(** * nMigen: resource resolution and the iCE40 I/O binder

    A shallow embedding of [nmigen/vendor/lattice_ice40.py] (the platform
    I/O binder) and of the resource manager exercised by
    [nmigen/test/test_build_res.py], together with the properties that the
    specification states about them. *)

From stdpp Require Import gmap strings list pretty.
From Stdlib Require Import ZArith Lia.


(** ** Results of fallible operations *)

Inductive Result (E A : Type) : Type :=
| Ok (a : A)
| Err (e : E).
Arguments Ok {E A} a.
Arguments Err {E A} e.

Definition rbind {E A B} (r : Result E A) (k : A -> Result E B) : Result E B :=
  match r with
  | Ok a => k a
  | Err e => Err e
  end.

Declare Scope result_scope.
Delimit Scope result_scope with result.
Notation "'let!' x ':=' r 'in' k" := (rbind r (fun x => k))
  (at level 10, x pattern, r at level 100, k at level 200) : result_scope.
Open Scope result_scope.

Definition is_ok {E A} (r : Result E A) : bool :=
  match r with Ok _ => true | Err _ => false end.

(** ** Python strings and attribute dictionaries *)

(** [needle in hay] on Python strings: substring test. *)
Fixpoint str_in (needle hay : string) : bool :=
  String.prefix needle hay ||
  match hay with
  | EmptyString => false
  | String _ hay' => str_in needle hay'
  end.

(** Attribute values are free-form; the binder only looks at their
    truthiness ([bool(v)]) and compares them with string literals. *)
Inductive AttrVal :=
| AStr (s : string)
| AInt (z : Z)
| ABool (b : bool).

Global Instance AttrVal_eq_dec : EqDecision AttrVal.
Proof. solve_decision. Defined.

Definition truthy (v : AttrVal) : bool :=
  match v with
  | AStr s => negb (String.eqb s "")
  | AInt z => negb (z =? 0)%Z
  | ABool b => b
  end.

(** An attribute mapping is an insertion-ordered dictionary. *)
Definition Attrs := list (string * AttrVal).

Definition attrs_get (key : string) (attrs : Attrs) : option AttrVal :=
  snd <$> List.find (fun kv => String.eqb (fst kv) key) attrs.

(** [key in attrs] *)
Definition attrs_mem (key : string) (attrs : Attrs) : bool :=
  bool_decide (is_Some (attrs_get key attrs)).

(** [attrs.get(key, default)] *)
Definition attrs_get_default (key : string) (default : AttrVal) (attrs : Attrs)
  : AttrVal :=
  match attrs_get key attrs with
  | Some v => v
  | None => default
  end.

(** [del attrs[key]] *)
Definition attrs_del (key : string) (attrs : Attrs) : Attrs :=
  List.filter (fun kv => negb (String.eqb (fst kv) key)) attrs.

(** ** Signals, pins, instances and modules

    These come from [nmigen.hdl] and [nmigen.lib.io]; the binder only
    builds names, slices and [Instance] argument lists out of them. *)

Record Signal := mkSignal { sig_name : string; sig_width : nat }.

Global Instance Signal_eq_dec : EqDecision Signal.
Proof. solve_decision. Defined.

(** [Signal.like(other, name_suffix=...)]: same shape, suffixed name. *)
Definition Signal_like (other : Signal) (name_suffix : string) : Signal :=
  {| sig_name := sig_name other +:+ name_suffix;
     sig_width := sig_width other |}.

Inductive Direction := Dir_i | Dir_o | Dir_oe | Dir_io.

Global Instance Direction_eq_dec : EqDecision Direction.
Proof. solve_decision. Defined.

Definition dir_str (d : Direction) : string :=
  match d with
  | Dir_i => "i"
  | Dir_o => "o"
  | Dir_oe => "oe"
  | Dir_io => "io"
  end.

(** The bound interface of a leaf: width, direction, data rate. *)
Record Pin := mkPin {
  pin_name : string;
  pin_width : nat;
  pin_dir : Direction;
  pin_xdr : Z
}.

Global Instance Pin_eq_dec : EqDecision Pin.
Proof. solve_decision. Defined.

Definition pin_field (pin : Pin) (field : string) (width : nat) : Signal :=
  {| sig_name := pin_name pin +:+ "__" +:+ field; sig_width := width |}.

Definition pin_i (pin : Pin) := pin_field pin "i" (pin_width pin).
Definition pin_i0 (pin : Pin) := pin_field pin "i0" (pin_width pin).
Definition pin_i1 (pin : Pin) := pin_field pin "i1" (pin_width pin).
Definition pin_o (pin : Pin) := pin_field pin "o" (pin_width pin).
Definition pin_o0 (pin : Pin) := pin_field pin "o0" (pin_width pin).
Definition pin_o1 (pin : Pin) := pin_field pin "o1" (pin_width pin).
Definition pin_oe (pin : Pin) := pin_field pin "oe" 1%nat.
Definition pin_i_clk (pin : Pin) := pin_field pin "i_clk" 1%nat.
Definition pin_o_clk (pin : Pin) := pin_field pin "o_clk" 1%nat.

(** Modelled from the spec: the layout of a bound pin ([pin_layout] of
    [nmigen.lib.io]) is not part of the sources.  The data model gives, for
    [xdr == 0], one signal per direction; for [xdr == 1], one signal per
    direction plus the associated clock; for [xdr == 2], two signals per
    direction plus the clock.  Hence a clock field exists exactly for a
    registered pin that has the respective capability. *)
Definition pin_has_i_clk (pin : Pin) : bool :=
  bool_decide (pin_dir pin = Dir_i \/ pin_dir pin = Dir_io) && (0 <? pin_xdr pin)%Z.

Definition pin_has_o_clk (pin : Pin) : bool :=
  bool_decide (pin_dir pin <> Dir_i) && (0 <? pin_xdr pin)%Z.

(** Values that appear as [Instance] arguments. *)
Inductive Value :=
| VInt (z : Z)                     (* a Python integer parameter *)
| VConst (z : Z)                   (* [Const(z)] *)
| VSig (s : Signal)                (* a whole signal *)
| VBit (s : Signal) (bit : nat)    (* [s[bit]] *)
| VAttr (a : AttrVal).             (* an attribute value *)

Global Instance Value_eq_dec : EqDecision Value.
Proof. solve_decision. Defined.

(** Argument kinds: ["p"], ["i"], ["o"], ["io"]; keyword arguments
    [p_X=], [i_X=], [o_X=] are the same thing. *)
Inductive ArgKind := Kp | Ki | Ko | Kio.

Global Instance ArgKind_eq_dec : EqDecision ArgKind.
Proof. solve_decision. Defined.

Definition Arg : Type := ArgKind * string * Value.

Record Instance := mkInstance {
  inst_type : string;
  inst_args : list Arg
}.

Global Instance Instance_eq_dec : EqDecision Instance.
Proof. solve_decision. Defined.

(** [m.submodules]: anonymous ([+=]) and named ([[name] =]) entries, in
    order of addition. *)
Record Module := mkModule {
  submodules : list (option string * Instance)
}.

Definition Module_new : Module := {| submodules := [] |}.

Definition add_submodule (m : Module) (name : option string) (inst : Instance)
  : Module :=
  {| submodules := submodules m ++ [(name, inst)] |}.

Definition instances (m : Module) : list Instance := snd <$> submodules m.

(** ** The iCE40 binder *)

Inductive BinderError :=
| AssertionError
| UnboundLocalError
| BitIndexError
| NotImplementedError (feature : string) (pin : string).

Definition BResult := Result BinderError.

(** [should_skip_port_component] *)
Definition should_skip_port_component (port : Signal) (attrs : Attrs)
    (component : string) : bool :=
  if bool_decide (attrs_get_default "IO_STANDARD" (AStr "SB_LVCMOS") attrs
                  = AStr "SB_LVDS_INPUT")
     && String.eqb component "n"
  then true
  else false.

(** The [$dff] cell that [get_dff] instantiates. *)
Definition dff_inst (clk d q : Signal) : Instance :=
  mkInstance "$dff"
    [ (Kp, "CLK_POLARITY", VInt 1%Z);
      (Kp, "WIDTH", VInt (Z.of_nat (sig_width d)));
      (Ki, "CLK", VSig clk);
      (Ki, "D", VSig d);
      (Ko, "Q", VSig q) ].

Definition get_dff (m : Module) (clk d q : Signal) : Module :=
  add_submodule m None (dff_inst clk d q).

Definition lut4 (invert : bool) (a y : Signal) (bit : nat) : Instance :=
  mkInstance "SB_LUT4"
    [ (Kp, "LUT_INIT", VInt (if invert then 1 else 2)%Z);
      (Ki, "I0", VBit a bit);
      (Ki, "I1", VConst 0%Z);
      (Ki, "I2", VConst 0%Z);
      (Ki, "I3", VConst 0%Z);
      (Ko, "O", VBit y bit) ].

Definition invert_suffix (invert : bool) : string :=
  "_x" +:+ (if invert then "1" else "0").

Definition add_luts (m : Module) (invert : bool) (a y : Signal) (n : nat)
  : Module :=
  fold_left (fun m bit => add_submodule m None (lut4 invert a y bit))
            (seq 0%nat n) m.

Definition get_ixor (m : Module) (y : Signal) (invert : option bool)
  : Module * Signal :=
  match invert with
  | None => (m, y)
  | Some inv =>
      let a := Signal_like y (invert_suffix inv) in
      (add_luts m inv a y (sig_width y), a)
  end.

Definition get_oxor (m : Module) (a : Signal) (invert : option bool)
  : Module * Signal :=
  match invert with
  | None => (m, a)
  | Some inv =>
      let y := Signal_like a (invert_suffix inv) in
      (add_luts m inv a y (sig_width a), y)
  end.

(** Truthiness of [i_invert], which is [None], [True] or [False]. *)
Definition opt_truthy (b : option bool) : bool :=
  match b with
  | Some true => true
  | _ => false
  end.

(** A local variable that may not have been assigned. *)
Definition local {A} (v : option A) : BResult A :=
  match v with
  | Some a => Ok a
  | None => Err UnboundLocalError
  end.

Definition has_i (pin : Pin) : bool := str_in "i" (dir_str (pin_dir pin)).
Definition has_o (pin : Pin) : bool := str_in "o" (dir_str (pin_dir pin)).

Definition i_type_of (pin : Pin) : option Z :=
  if negb (has_i pin) then Some 0%Z
  else if (pin_xdr pin =? 0)%Z then Some 1%Z
  else if (pin_xdr pin >? 0)%Z then Some 0%Z
  else None.

Definition o_type_of (pin : Pin) : option Z :=
  let is_o := String.eqb (dir_str (pin_dir pin)) "o" in
  if negb (has_o pin) then Some 0%Z
  else if (pin_xdr pin =? 0)%Z && is_o then Some 6%Z
  else if (pin_xdr pin =? 0)%Z then Some 10%Z
  else if (pin_xdr pin =? 1)%Z && is_o then Some 5%Z
  else if (pin_xdr pin =? 1)%Z then Some 13%Z
  else if (pin_xdr pin =? 2)%Z && is_o then Some 4%Z
  else if (pin_xdr pin =? 2)%Z then Some 12%Z
  else None.

(** The locals that the body of [_get_io_buffer] binds before its loop. *)
Record Locals := mkLocals {
  l_pin_i : option Signal;
  l_pin_i0 : option Signal;
  l_pin_i1 : option Signal;
  l_pin_o : option Signal;
  l_pin_o0 : option Signal;
  l_pin_o1 : option Signal;
  l_i0_ff : option Signal;
  l_i1_ff : option Signal;
  l_o1_ff : option Signal
}.

(** [s[bit]]: slicing a signal beyond its width raises IndexError (here
    [BitIndexError]). *)
Definition index (s : Signal) (bit : nat) : BResult Value :=
  if (bit <? sig_width s)%nat then Ok (VBit s bit) else Err BitIndexError.

Definition io_args_of (pin : Pin) (port : Signal) (attrs : Attrs)
    (is_global_input : bool) (ls : Locals) (bit : nat) : BResult (list Arg) :=
  let io_args :=
    (Kio, "PACKAGE_PIN", VBit port bit)
    :: ((fun kv : string * AttrVal => (Kp, fst kv, VAttr (snd kv))) <$> attrs) in
  let! o_type := local (o_type_of pin) in
  let! i_type := local (i_type_of pin) in
  let io_args :=
    io_args ++ [(Kp, "PIN_TYPE", VInt (Z.lor (Z.shiftl o_type 2%Z) i_type))] in
  let io_args :=
    if pin_has_i_clk pin
    then io_args ++ [(Ki, "INPUT_CLK", VSig (pin_i_clk pin))] else io_args in
  let io_args :=
    if pin_has_o_clk pin
    then io_args ++ [(Ki, "OUTPUT_CLK", VSig (pin_o_clk pin))] else io_args in
  let! io_args :=
    if has_i pin then
      if (pin_xdr pin =? 0)%Z && is_global_input then
        let! v := index (pin_i pin) bit in
        Ok (io_args ++ [(Ko, "GLOBAL_BUFFER_OUTPUT", v)])
      else if (pin_xdr pin <? 2)%Z then
        let! s := local (l_pin_i ls) in
        let! v := index s bit in
        Ok (io_args ++ [(Ko, "D_IN_0", v)])
      else if (pin_xdr pin =? 2)%Z then
        let! f0 := local (l_i0_ff ls) in
        let! f1 := local (l_i1_ff ls) in
        Ok (io_args ++ [(Ko, "D_IN_0", VSig f0); (Ko, "D_IN_1", VSig f1)])
      else Ok io_args
    else Ok io_args in
  let! io_args :=
    if has_o pin then
      if (pin_xdr pin <? 2)%Z then
        let! s := local (l_pin_o ls) in
        let! v := index s bit in
        Ok (io_args ++ [(Ki, "D_OUT_0", v)])
      else if (pin_xdr pin =? 2)%Z then
        let! s0 := local (l_pin_o0 ls) in
        let! v0 := index s0 bit in
        let! f1 := local (l_o1_ff ls) in
        Ok (io_args ++ [(Ki, "D_OUT_0", v0); (Ki, "D_OUT_1", VSig f1)])
      else Ok io_args
    else Ok io_args in
  let io_args :=
    if bool_decide (dir_str (pin_dir pin) ∈ ["oe"; "io"])
    then io_args ++ [(Ki, "OUTPUT_ENABLE", VSig (pin_oe pin))] else io_args in
  Ok io_args.

(** The [for bit in range(len(port))] loop. *)
Fixpoint io_loop (m : Module) (pin : Pin) (port : Signal) (attrs : Attrs)
    (is_global_input : bool) (ls : Locals) (bits : list nat) : BResult Module :=
  match bits with
  | [] => Ok m
  | bit :: bits' =>
      let! io_args := io_args_of pin port attrs is_global_input ls bit in
      let prim := if is_global_input then "SB_GB_IO" else "SB_IO" in
      io_loop (add_submodule m (Some (pin_name pin)) (mkInstance prim io_args))
              pin port attrs is_global_input ls bits'
  end.

(** [_get_io_buffer]: returns the module and the attribute dictionary, both
    of which the Python code updates in place. *)
Definition _get_io_buffer (m : Module) (pin : Pin) (port : Signal)
    (attrs : Attrs) (i_invert o_invert : option bool)
  : BResult (Module * Attrs) :=
  let '(is_global_input, attrs) :=
    if attrs_mem "GLOBAL" attrs
    then (truthy (attrs_get_default "GLOBAL" (ABool false) attrs),
          attrs_del "GLOBAL" attrs)
    else (false, attrs) in
  if is_global_input && opt_truthy i_invert then Err AssertionError else
  let '(m, v_i, v_i0, v_i1) :=
    if has_i pin then
      if (pin_xdr pin <? 2)%Z then
        let '(m, s) := get_ixor m (pin_i pin) i_invert in
        (m, Some s, None, None)
      else if (pin_xdr pin =? 2)%Z then
        let '(m, s0) := get_ixor m (pin_i0 pin) i_invert in
        let '(m, s1) := get_ixor m (pin_i1 pin) i_invert in
        (m, None, Some s0, Some s1)
      else (m, None, None, None)
    else (m, None, None, None) in
  let '(m, v_o, v_o0, v_o1) :=
    if has_o pin then
      if (pin_xdr pin <? 2)%Z then
        let '(m, s) := get_oxor m (pin_o pin) o_invert in
        (m, Some s, None, None)
      else if (pin_xdr pin =? 2)%Z then
        let '(m, s0) := get_oxor m (pin_o0 pin) o_invert in
        let '(m, s1) := get_oxor m (pin_o1 pin) o_invert in
        (m, None, Some s0, Some s1)
      else (m, None, None, None)
    else (m, None, None, None) in
  let! (m, v_i0_ff, v_i1_ff) :=
    if has_i pin && (pin_xdr pin =? 2)%Z then
      let! s0 := local v_i0 in
      let! s1 := local v_i1 in
      let i0_ff := Signal_like s0 "_ff" in
      let i1_ff := Signal_like s1 "_ff" in
      let m := get_dff m (pin_i_clk pin) i0_ff s0 in
      let m := get_dff m (pin_i_clk pin) i1_ff s1 in
      Ok (m, Some i0_ff, Some i1_ff)
    else Ok (m, None, None) in
  let! (m, v_o1_ff) :=
    if has_o pin && (pin_xdr pin =? 2)%Z then
      let! s1 := local v_o1 in
      let o1_ff := Signal_like s1 "_ff" in
      let m := get_dff m (pin_o_clk pin) s1 o1_ff in
      Ok (m, Some o1_ff)
    else Ok (m, None) in
  let ls := mkLocals v_i v_i0 v_i1 v_o v_o0 v_o1 v_i0_ff v_i1_ff v_o1_ff in
  let! m := io_loop m pin port attrs is_global_input ls
                    (seq 0%nat (sig_width port)) in
  Ok (m, attrs).

(** Modelled from the spec: [_check_feature] belongs to the templated
    platform base class, which is not part of the sources.  The binder
    "maps each legal pair to a primitive-mode code; illegal pairs (e.g., a
    data rate the family's I/O cell cannot register) fail naming the
    unsupported feature combination" and capability errors are "reported
    naming the unsupported feature and the pin". *)
Definition _check_feature (feature : string) (pin : Pin) (attrs : Attrs)
    (valid_xdrs : list Z) (valid_attrs : bool) : BResult unit :=
  if negb (bool_decide (pin_xdr pin ∈ valid_xdrs)) then
    Err (NotImplementedError feature (pin_name pin))
  else if negb valid_attrs && negb (bool_decide (attrs = [])) then
    Err (NotImplementedError feature (pin_name pin))
  else Ok ().

(** [True if invert else None] *)
Definition true_or_none (invert : bool) : option bool :=
  if invert then Some true else None.

Definition valid_xdrs_ice40 : list Z := [0; 1; 2]%Z.

Definition get_input (pin : Pin) (port : Signal) (attrs : Attrs) (invert : bool)
  : BResult (Module * Attrs) :=
  let! _ := _check_feature "single-ended input" pin attrs valid_xdrs_ice40 true in
  _get_io_buffer Module_new pin port attrs (true_or_none invert) None.

Definition get_output (pin : Pin) (port : Signal) (attrs : Attrs) (invert : bool)
  : BResult (Module * Attrs) :=
  let! _ := _check_feature "single-ended output" pin attrs valid_xdrs_ice40 true in
  _get_io_buffer Module_new pin port attrs None (true_or_none invert).

Definition get_tristate (pin : Pin) (port : Signal) (attrs : Attrs)
    (invert : bool) : BResult (Module * Attrs) :=
  let! _ := _check_feature "single-ended tristate" pin attrs valid_xdrs_ice40 true in
  _get_io_buffer Module_new pin port attrs None (true_or_none invert).

Definition get_input_output (pin : Pin) (port : Signal) (attrs : Attrs)
    (invert : bool) : BResult (Module * Attrs) :=
  let! _ := _check_feature "single-ended input/output" pin attrs
                           valid_xdrs_ice40 true in
  _get_io_buffer Module_new pin port attrs
                 (true_or_none invert) (true_or_none invert).

Definition get_diff_input (pin : Pin) (p_port n_port : Signal) (attrs : Attrs)
    (invert : bool) : BResult (Module * Attrs) :=
  let! _ := _check_feature "differential input" pin attrs valid_xdrs_ice40 true in
  _get_io_buffer Module_new pin p_port attrs (true_or_none invert) None.

(** The second call sees the attribute dictionary as the first call left
    it. *)
Definition get_diff_output (pin : Pin) (p_port n_port : Signal) (attrs : Attrs)
    (invert : bool) : BResult (Module * Attrs) :=
  let! _ := _check_feature "differential output" pin attrs valid_xdrs_ice40 true in
  let! (m, attrs) := _get_io_buffer Module_new pin p_port attrs None (Some invert) in
  _get_io_buffer m pin n_port attrs None (Some (negb invert)).

(** The binder operations by name. *)
Inductive BinderOp :=
| OpInput | OpOutput | OpTristate | OpInputOutput | OpDiffInput | OpDiffOutput.

Definition run_op (op : BinderOp) (pin : Pin) (p_port n_port : Signal)
    (attrs : Attrs) (invert : bool) : BResult (Module * Attrs) :=
  match op with
  | OpInput => get_input pin p_port attrs invert
  | OpOutput => get_output pin p_port attrs invert
  | OpTristate => get_tristate pin p_port attrs invert
  | OpInputOutput => get_input_output pin p_port attrs invert
  | OpDiffInput => get_diff_input pin p_port n_port attrs invert
  | OpDiffOutput => get_diff_output pin p_port n_port attrs invert
  end.

(** Observations on a module. *)
Definition is_type (ty : string) (inst : Instance) : bool :=
  String.eqb (inst_type inst) ty.

Definition instances_of (ty : string) (m : Module) : list Instance :=
  List.filter (is_type ty) (instances m).

Definition is_io_cell (inst : Instance) : bool :=
  is_type "SB_IO" inst || is_type "SB_GB_IO" inst.

Definition io_cells (m : Module) : list Instance :=
  List.filter is_io_cell (instances m).

(** The value connected to argument [name] of kind [kind], if any. *)
Definition arg_of (kind : ArgKind) (name : string) (inst : Instance)
  : option Value :=
  (fun a : Arg => snd a) <$>
  List.find (fun a : Arg => bool_decide (fst (fst a) = kind)
                            && String.eqb (snd (fst a)) name)
            (inst_args inst).

(** ** Declarations: resources and connectors *)

Set Warnings "-register-all".

(** A physical pin token: a literal pin name, or a slot of a connector. *)
Inductive PinToken :=
| Literal (name : string)
| ConnRef (label : string) (conn : string * nat).

Global Instance PinToken_eq_dec : EqDecision PinToken.
Proof. solve_decision. Defined.

Inductive Electrical :=
| Pins (names : list PinToken)
| DiffPairs (p n : list PinToken).

(** An electrical group; frequencies are in Hz. *)
Record Group := mkGroup {
  g_io : Electrical;
  g_dir : Direction;
  g_invert : bool;
  g_attrs : Attrs;
  g_clock : option Z
}.

Inductive Body :=
| Leaf (g : Group)
| Node (subs : list (string * Body)).

Record Resource := mkResource {
  res_name : string;
  res_number : nat;
  res_body : Body
}.

Record Connector := mkConnector {
  conn_name : string;
  conn_number : nat;
  conn_body : list (string * PinToken)
}.

(** ** Session state *)

(** A port: the top-level signal and the physical pins it is bound to. *)
Record Port := mkPort {
  port_sig : Signal;
  port_pins : list string
}.

Global Instance Port_eq_dec : EqDecision Port.
Proof. solve_decision. Defined.

Definition port_name (p : Port) : string := sig_name (port_sig p).
Definition port_nbits (p : Port) : nat := sig_width (port_sig p).

(** What a request returns. *)
Inductive Bound :=
| BPin (pin : Pin)
| BRaw (name : string) (ports : list Port)
| BRecord (name : string) (fields : list (string * Bound)).

(** One ledger entry per resolved electrical group. *)
Record Entry := mkEntry {
  e_group : Group;
  e_pin : option Pin;
  e_ports : list Port;
  e_attrs : Attrs
}.

Record Session := mkSession {
  resources : gmap (string * nat) Resource;
  connectors : gmap (string * nat) Connector;
  requested : gset (string * nat);
  phys_reqd : gmap string string;
  ports : list Entry;
  clocks : list (Port * Z)
}.

Definition set_phys_reqd (s : Session) (m : gmap string string) : Session :=
  mkSession (resources s) (connectors s) (requested s) m (ports s) (clocks s).

Definition set_requested (s : Session) (r : gset (string * nat)) : Session :=
  mkSession (resources s) (connectors s) r (phys_reqd s) (ports s) (clocks s).

Definition set_ports (s : Session) (l : list Entry) : Session :=
  mkSession (resources s) (connectors s) (requested s) (phys_reqd s) l (clocks s).

Definition set_clocks (s : Session) (c : list (Port * Z)) : Session :=
  mkSession (resources s) (connectors s) (requested s) (phys_reqd s) (ports s) c.

Definition set_resources (s : Session) (r : gmap (string * nat) Resource)
  : Session :=
  mkSession r (connectors s) (requested s) (phys_reqd s) (ports s) (clocks s).

Definition set_connectors (s : Session) (c : gmap (string * nat) Connector)
  : Session :=
  mkSession (resources s) c (requested s) (phys_reqd s) (ports s) (clocks s).

Definition empty_session : Session := mkSession ∅ ∅ ∅ ∅ [] [].

(** Request arguments: [None], a scalar, or a dictionary keyed by
    subsignal name. *)
Inductive DirArg :=
| DirNone
| DirScalar (d : string)
| DirDict (m : list (string * DirArg)).

Inductive XdrArg :=
| XdrNone
| XdrScalar (x : Z)
| XdrDict (m : list (string * XdrArg)).

(** The target of a clock constraint and its frequency argument. *)
Inductive ClockTarget :=
| TPin (pin : Pin)
| TSignal (sg : Signal)
| TOther.

Inductive Frequency :=
| Hz (f : Z)
| NotANumber.

Inductive ResError :=
| NameError_Resource (new old : Resource)
| NameError_Connector (new old : Connector)
| ResourceError_DoesNotExist (name : string) (number : nat)
| ResourceError_AlreadyRequested (name : string) (number : nat)
| ResourceError_Conflict (component pin prior : string)
| ConnectorError_Unresolved (label : string) (conn : string * nat)
| TypeError_Direction (d : string)
| ValueError_Direction (g : Group) (declared : string) (override : string)
| TypeError_DirectionsDict (component : string)
| TypeError_DirectionScalar (component : string)
| ValueError_DataRate (g : Group) (x : Z)
| TypeError_DataRateDict (component : string)
| TypeError_DataRateScalar (component : string)
| TypeError_NotSignalOrPin
| TypeError_Frequency
| ValueError_NotRequested (target : ClockTarget)
| ValueError_Constrained (port : Port) (existing : Z)
| KeyError_Clock.

Definition RResult := Result ResError.

(** ** The resource manager

    Modelled from the spec: the resource manager ([nmigen/build/res.py])
    and the declaration classes ([nmigen/build/dsl.py]) are not part of the
    sources; only their test suite is.  The definitions of this section
    follow sections 3, 4.1, 4.2 and 4.3 of the specification, and the
    error constructors carry what the test suite's messages name. *)

(** [d.get(key)] on a dictionary given as an association list. *)
Definition dict_get {A} (key : string) (m : list (string * A)) : option A :=
  snd <$> List.find (fun kv => String.eqb (fst kv) key) m.

(** Modelled from the spec: section 4.1, [lookup] "returns the stored
    declaration or signals 'resource does not exist' naming the (name,
    number)". *)
Definition lookup (s : Session) (name : string) (number : nat)
  : RResult Resource :=
  match resources s !! (name, number) with
  | Some r => Ok r
  | None => Err (ResourceError_DoesNotExist name number)
  end.

(** Modelled from the spec: section 4.1, [add_resources] rejects "an
    identity collision with an already-registered entry of the same (name,
    number), reporting both the new and the conflicting existing
    declaration". *)
Fixpoint add_resources (s : Session) (rs : list Resource) : RResult Session :=
  match rs with
  | [] => Ok s
  | r :: rs' =>
      match resources s !! (res_name r, res_number r) with
      | Some old => Err (NameError_Resource r old)
      | None =>
          add_resources
            (set_resources s (<[(res_name r, res_number r) := r]> (resources s)))
            rs'
      end
  end.

(** Modelled from the spec: section 4.1, [add_connectors], as
    [add_resources]. *)
Fixpoint add_connectors (s : Session) (cs : list Connector) : RResult Session :=
  match cs with
  | [] => Ok s
  | c :: cs' =>
      match connectors s !! (conn_name c, conn_number c) with
      | Some old => Err (NameError_Connector c old)
      | None =>
          add_connectors
            (set_connectors s
               (<[(conn_name c, conn_number c) := c]> (connectors s)))
            cs'
      end
  end.

(** Modelled from the spec: [ResourceManager(resources, connectors)] as the
    test suite's [setUp] builds it. *)
Definition ResourceManager (rs : list Resource) (cs : list Connector)
  : RResult Session :=
  let! s := add_resources empty_session rs in
  add_connectors s cs.

(** The slot [(label, conn)] of the connector table. *)
Definition conn_lookup (conns : gmap (string * nat) Connector)
    (label : string) (conn : string * nat) : option PinToken :=
  match conns !! conn with
  | Some c => dict_get label (conn_body c)
  | None => None
  end.

(** Every declared slot, connector by connector. *)
Definition all_slots (conns : gmap (string * nat) Connector)
  : list (string * nat * string) :=
  flat_map (fun kc : string * nat * Connector =>
              (fun lt : string * PinToken => (fst kc, fst lt))
                <$> conn_body (snd kc))
           (map_to_list conns).

(** Modelled from the spec: section 4.2 step 2, "following connector
    indirection (label lookup in the referenced connector, repeated until
    a literal pin name is reached; an unresolved chain is a configuration
    error)", with the bounded recursion depth of section 9. *)
Fixpoint resolve_token (conns : gmap (string * nat) Connector) (fuel : nat)
    (t : PinToken) : RResult string :=
  match t with
  | Literal name => Ok name
  | ConnRef label conn =>
      match fuel with
      | O => Err (ConnectorError_Unresolved label conn)
      | S fuel' =>
          match conn_lookup conns label conn with
          | Some t' => resolve_token conns fuel' t'
          | None => Err (ConnectorError_Unresolved label conn)
          end
      end
  end.

(** A chain never needs more steps than there are slots. *)
Definition conn_fuel (conns : gmap (string * nat) Connector) : nat :=
  length (all_slots conns).

Fixpoint resolve_tokens (conns : gmap (string * nat) Connector)
    (ts : list PinToken) : RResult (list string) :=
  match ts with
  | [] => Ok []
  | t :: ts' =>
      let! p := resolve_token conns (conn_fuel conns) t in
      let! ps := resolve_tokens conns ts' in
      Ok (p :: ps)
  end.

(** Modelled from the spec: section 4.2 step 2, "For each physical pin
    token about to be claimed, consult the Allocation record: if already
    claimed, fail naming both the newly requested resource component and
    the prior claimant and its physical pin. Otherwise claim it." *)
Definition claim (s : Session) (component pin : string) : RResult Session :=
  match phys_reqd s !! pin with
  | Some prior => Err (ResourceError_Conflict component pin prior)
  | None => Ok (set_phys_reqd s (<[pin := component]> (phys_reqd s)))
  end.

Fixpoint claim_all (s : Session) (component : string) (pins : list string)
  : RResult Session :=
  match pins with
  | [] => Ok s
  | pin :: pins' =>
      let! s := claim s component pin in
      claim_all s component pins'
  end.

(** A direction override: one of the four directions, or ["-"]. *)
Inductive Override :=
| OvDir (d : Direction)
| OvRaw.

Definition ov_str (o : Override) : string :=
  match o with
  | OvDir d => dir_str d
  | OvRaw => "-"
  end.

Definition parse_override (d : string) : option Override :=
  if String.eqb d "i" then Some (OvDir Dir_i)
  else if String.eqb d "o" then Some (OvDir Dir_o)
  else if String.eqb d "oe" then Some (OvDir Dir_oe)
  else if String.eqb d "io" then Some (OvDir Dir_io)
  else if String.eqb d "-" then Some OvRaw
  else None.

(** Modelled from the spec: section 4.2 step 3, "An override is accepted
    only along this lattice: io -> {i, o, oe}; any direction -> '-'; any
    other transition fails, naming the disallowed pair", and "mapping
    against a leaf likewise fails". *)
Definition resolve_dir (g : Group) (dir : DirArg) (component : string)
  : RResult Override :=
  match dir with
  | DirNone => Ok (OvDir (g_dir g))
  | DirDict _ => Err (TypeError_DirectionScalar component)
  | DirScalar d =>
      match parse_override d with
      | None => Err (TypeError_Direction d)
      | Some OvRaw => Ok OvRaw
      | Some (OvDir d') =>
          if bool_decide (d' = g_dir g) then Ok (OvDir d')
          else if bool_decide (g_dir g = Dir_io) then Ok (OvDir d')
          else Err (ValueError_Direction g (dir_str (g_dir g)) d)
      end
  end.

(** Modelled from the spec: section 4.2 step 4, "scalar for leaves ...
    xdr must be a non-negative integer"; the default is [0]. *)
Definition resolve_xdr (g : Group) (xdr : XdrArg) (component : string)
  : RResult Z :=
  match xdr with
  | XdrNone => Ok 0%Z
  | XdrDict _ => Err (TypeError_DataRateScalar component)
  | XdrScalar x =>
      if (x <? 0)%Z then Err (ValueError_DataRate g x) else Ok x
  end.

(** The override for subsignal [name]: [d.get(name)], [None] if absent. *)
Definition sub_dir (dir : DirArg) (name : string) : DirArg :=
  match dir with
  | DirDict m => default DirNone (dict_get name m)
  | _ => DirNone
  end.

Definition sub_xdr (xdr : XdrArg) (name : string) : XdrArg :=
  match xdr with
  | XdrDict m => default XdrNone (dict_get name m)
  | _ => XdrNone
  end.

(** Modelled from the spec: section 4.3, "a second constraint on the same
    Port fails, naming the existing frequency". *)
Definition clock_of (s : Session) (port : Port) : option Z :=
  snd <$> List.find (fun pf : Port * Z => bool_decide (fst pf = port)) (clocks s).

Definition add_clock_port (s : Session) (port : Port) (f : Z)
  : RResult Session :=
  match clock_of s port with
  | Some existing => Err (ValueError_Constrained port existing)
  | None => Ok (set_clocks s (clocks s ++ [(port, f)]))
  end.

(** Modelled from the spec: section 3, a Port is named after the request
    path, [__io] for a single-ended group and [__p]/[__n] for a
    differential pair, and bound to the ordered physical pin tokens. *)
Definition mk_port (component suffix : string) (pins : list string) : Port :=
  {| port_sig := {| sig_name := component +:+ "__" +:+ suffix;
                    sig_width := length pins |};
     port_pins := pins |}.

(** The declared tokens of a group, port by port. *)
Definition group_tokens (g : Group) : list (string * list PinToken) :=
  match g_io g with
  | Pins names => [("io", names)]
  | DiffPairs p n => [("p", p); ("n", n)]
  end.

Definition group_width (g : Group) : nat :=
  match g_io g with
  | Pins names => length names
  | DiffPairs p n => length p
  end.

Fixpoint resolve_ports (conns : gmap (string * nat) Connector)
    (component : string) (tl : list (string * list PinToken))
  : RResult (list Port) :=
  match tl with
  | [] => Ok []
  | (suffix, ts) :: tl' =>
      let! pins := resolve_tokens conns ts in
      let! ps := resolve_ports conns component tl' in
      Ok (mk_port component suffix pins :: ps)
  end.

(** Modelled from the spec: section 4.2 steps 2 to 7 for one electrical
    group. *)
Definition resolve_leaf (s : Session) (g : Group) (dir : DirArg) (xdr : XdrArg)
    (component : string) : RResult (Bound * Session) :=
  let! new_ports := resolve_ports (connectors s) component (group_tokens g) in
  let! s := claim_all s component (flat_map port_pins new_ports) in
  let! ov := resolve_dir g dir component in
  let! x := resolve_xdr g xdr component in
  let pin :=
    match ov with
    | OvDir d => Some (mkPin component (group_width g) d x)
    | OvRaw => None
    end in
  let! s :=
    match g_clock g, new_ports with
    | Some f, port :: _ => add_clock_port s port f
    | _, _ => Ok s
    end in
  let s := set_ports s (ports s ++ [mkEntry g pin new_ports (g_attrs g)]) in
  Ok (match pin with
      | Some p => BPin p
      | None => BRaw component new_ports
      end, s).

(** Resolving the subsignals in order, threading the session. *)
Definition resolve_subs
    (rec : Session -> Body -> DirArg -> XdrArg -> string -> RResult (Bound * Session))
    (dir : DirArg) (xdr : XdrArg) (component : string)
  : Session -> list (string * Body) -> RResult (list (string * Bound) * Session) :=
  fix go (s : Session) (subs : list (string * Body)) :=
    match subs with
    | [] => Ok ([], s)
    | (name, b) :: subs' =>
        let! (v, s) := rec s b (sub_dir dir name) (sub_xdr xdr name)
                           (component +:+ "__" +:+ name) in
        let! (vs, s) := go s subs' in
        Ok ((name, v) :: vs, s)
    end.

(** Modelled from the spec: section 4.2 steps 2 to 7 over the subsignal
    tree; "a scalar override against a subsignal-bearing resource
    fails". *)
Fixpoint resolve (s : Session) (b : Body) (dir : DirArg) (xdr : XdrArg)
    (component : string) {struct b} : RResult (Bound * Session) :=
  match b with
  | Leaf g => resolve_leaf s g dir xdr component
  | Node subs =>
      match dir, xdr with
      | DirScalar _, _ => Err (TypeError_DirectionsDict component)
      | _, XdrScalar _ => Err (TypeError_DataRateDict component)
      | _, _ =>
          let! (fields, s) := resolve_subs resolve dir xdr component s subs in
          Ok (BRecord component fields, s)
      end
  end.

Definition component_name (name : string) (number : nat) : string :=
  name +:+ "_" +:+ pretty number.

(** Modelled from the spec: section 4.2, [request(name, number, dir,
    xdr)]: "Look up the Resource; signal failure if absent or if this
    identity was already successfully requested this session", then
    resolve the body. *)
Definition request (s : Session) (name : string) (number : nat)
    (dir : DirArg) (xdr : XdrArg) : RResult (Bound * Session) :=
  let! r := lookup s name number in
  if bool_decide ((name, number) ∈ requested s) then
    Err (ResourceError_AlreadyRequested name number)
  else
    let! (v, s) := resolve s (res_body r) dir xdr (component_name name number) in
    Ok (v, set_requested s ({[ (name, number) ]} ∪ requested s)).

(** ** The constraint ledger *)

(** Modelled from the spec: section 4.3, [iter_ports()] "produces ... every
    Port created so far, in creation order". *)
Definition iter_ports (s : Session) : list Port :=
  flat_map e_ports (ports s).

(** Modelled from the spec: section 4.3, [iter_port_constraints()]
    "produces (port_name, [physical pin tokens in bit order], attrs)
    tuples". *)
Definition iter_port_constraints (s : Session)
  : list (string * list string * Attrs) :=
  flat_map (fun e => (fun p => (port_name p, port_pins p, e_attrs e)) <$> e_ports e)
           (ports s).

Definition is_single_ended (g : Group) : bool :=
  match g_io g with
  | Pins _ => true
  | DiffPairs _ _ => false
  end.

(** Modelled from the spec: section 4.3, [iter_single_ended_pins()]
    produces, "for every bound leaf Pin, its associated Port(s), attribute
    mapping, and inversion flag, in creation order". *)
Definition single_ended_of (e : Entry) : list (Pin * Port * Attrs * bool) :=
  match e_pin e, e_ports e with
  | Some pin, [io] =>
      if is_single_ended (e_group e)
      then [(pin, io, e_attrs e, g_invert (e_group e))] else []
  | _, _ => []
  end.

Definition iter_single_ended_pins (s : Session)
  : list (Pin * Port * Attrs * bool) :=
  flat_map single_ended_of (ports s).

(** Modelled from the spec: section 4.3, [iter_differential_pins()], as
    [iter_single_ended_pins] for differential groups. *)
Definition differential_of (e : Entry)
  : list (Pin * Port * Port * Attrs * bool) :=
  match e_pin e, e_ports e with
  | Some pin, [p; n] =>
      if is_single_ended (e_group e) then []
      else [(pin, p, n, e_attrs e, g_invert (e_group e))]
  | _, _ => []
  end.

Definition iter_differential_pins (s : Session)
  : list (Pin * Port * Port * Attrs * bool) :=
  flat_map differential_of (ports s).

(** Modelled from the spec: section 4.3, [iter_clock_constraints()]
    "produces (Port, frequency) pairs, in the order constraints were
    added". *)
Definition iter_clock_constraints (s : Session) : list (Port * Z) := clocks s.

(** Modelled from the spec: section 4.3, "the target must resolve to a Port
    produced by a prior request": a Pin resolves to the first Port of the
    ledger entry that holds it, a signal to the Port it is. *)
Definition resolve_target (s : Session) (target : ClockTarget) : option Port :=
  match target with
  | TPin pin =>
      match List.find (fun e => bool_decide (e_pin e = Some pin)) (ports s) with
      | Some e => head (e_ports e)
      | None => None
      end
  | TSignal sg =>
      List.find (fun p => bool_decide (port_sig p = sg)) (iter_ports s)
  | TOther => None
  end.

(** Modelled from the spec: section 4.3, [add_clock_constraint(signal_or_pin,
    frequency)]: "the target must resolve to a Port produced by a prior
    request (a bare, never-requested signal fails: 'not a previously
    requested resource'); frequency must be numeric; a second constraint
    on the same Port fails, naming the existing frequency".  The test suite
    fixes the order of the first two checks. *)
Definition add_clock_constraint (s : Session) (target : ClockTarget)
    (frequency : Frequency) : RResult Session :=
  match target with
  | TOther => Err TypeError_NotSignalOrPin
  | _ =>
      match frequency with
      | NotANumber => Err TypeError_Frequency
      | Hz f =>
          match resolve_target s target with
          | None => Err (ValueError_NotRequested target)
          | Some port => add_clock_port s port f
          end
      end
  end.

(** Modelled from the spec: section 4.3, [get_clock_constraint] "returns
    the frequency or signals absence". *)
Definition get_clock_constraint (s : Session) (target : ClockTarget)
  : RResult Z :=
  match resolve_target s target with
  | None => Err KeyError_Clock
  | Some port =>
      match clock_of s port with
      | Some f => Ok f
      | None => Err KeyError_Clock
      end
  end.

(** ** The declarations of the test suite *)

Definition pins (names : list string) (dir : Direction) : Group :=
  mkGroup (Pins (Literal <$> names)) dir false [] None.

Definition test_resources : list Resource :=
  [ mkResource "clk100" 0
      (Leaf (mkGroup (DiffPairs [Literal "H1"] [Literal "H2"]) Dir_i false []
                     (Some 100000000%Z)));
    mkResource "clk50" 0
      (Leaf (mkGroup (Pins [Literal "K1"]) Dir_io false [] (Some 50000000%Z)));
    mkResource "user_led" 0 (Leaf (pins ["A0"] Dir_o));
    mkResource "i2c" 0
      (Node [("scl", Leaf (pins ["N10"] Dir_o));
             ("sda", Leaf (pins ["N11"] Dir_io))]) ].

Definition test_connectors : list Connector :=
  [ mkConnector "pmod" 0
      [("1", Literal "B0"); ("2", Literal "B1");
       ("3", Literal "B2"); ("4", Literal "B3")] ].

Definition spi_resource : Resource :=
  mkResource "spi" 0
    (Node [("ss", Leaf (mkGroup (Pins [ConnRef "1" ("pmod", 0%nat)]) Dir_io false [] None));
           ("clk", Leaf (mkGroup (Pins [ConnRef "2" ("pmod", 0%nat)]) Dir_io false [] None));
           ("miso", Leaf (mkGroup (Pins [ConnRef "3" ("pmod", 0%nat)]) Dir_io false [] None));
           ("mosi", Leaf (mkGroup (Pins [ConnRef "4" ("pmod", 0%nat)]) Dir_io false [] None))]).

(** Running a computation on the session of the test suite's [setUp]. *)
Definition with_setup {A} (k : Session -> RResult A) : RResult A :=
  let! s := ResourceManager test_resources test_connectors in
  k s.

(** ** Descriptions of what one call of [_get_io_buffer] adds

    These are used to state what the module looks like after a call. *)

Definition lut_entries (inv : bool) (a y : Signal) (n : nat)
  : list (option string * Instance) :=
  (fun bit => (@None string, lut4 inv a y bit)) <$> seq 0%nat n.

(** The signal that stands for [s] on the fabric side of the input path,
    or on the cell side of the output path. *)
Definition xor_sig (s : Signal) (invert : option bool) : Signal :=
  match invert with
  | None => s
  | Some inv => Signal_like s (invert_suffix inv)
  end.

Definition ixor_entries (y : Signal) (invert : option bool)
  : list (option string * Instance) :=
  match invert with
  | None => []
  | Some inv => lut_entries inv (Signal_like y (invert_suffix inv)) y (sig_width y)
  end.

Definition oxor_entries (a : Signal) (invert : option bool)
  : list (option string * Instance) :=
  match invert with
  | None => []
  | Some inv => lut_entries inv a (Signal_like a (invert_suffix inv)) (sig_width a)
  end.

(** The value of [is_global_input] and the dictionary after the [del]. *)
Definition global_of (attrs : Attrs) : bool :=
  if attrs_mem "GLOBAL" attrs
  then truthy (attrs_get_default "GLOBAL" (ABool false) attrs) else false.

Definition attrs_after (attrs : Attrs) : Attrs :=
  if attrs_mem "GLOBAL" attrs then attrs_del "GLOBAL" attrs else attrs.

Definition in_luts (pin : Pin) (i_invert : option bool)
  : list (option string * Instance) :=
  if has_i pin then
    if (pin_xdr pin <? 2)%Z then ixor_entries (pin_i pin) i_invert
    else if (pin_xdr pin =? 2)%Z then
      ixor_entries (pin_i0 pin) i_invert ++ ixor_entries (pin_i1 pin) i_invert
    else []
  else [].

Definition out_luts (pin : Pin) (o_invert : option bool)
  : list (option string * Instance) :=
  if has_o pin then
    if (pin_xdr pin <? 2)%Z then oxor_entries (pin_o pin) o_invert
    else if (pin_xdr pin =? 2)%Z then
      oxor_entries (pin_o0 pin) o_invert ++ oxor_entries (pin_o1 pin) o_invert
    else []
  else [].

Definition in_dffs (pin : Pin) (i_invert : option bool) : list Instance :=
  if has_i pin && (pin_xdr pin =? 2)%Z then
    [ dff_inst (pin_i_clk pin)
               (Signal_like (xor_sig (pin_i0 pin) i_invert) "_ff")
               (xor_sig (pin_i0 pin) i_invert);
      dff_inst (pin_i_clk pin)
               (Signal_like (xor_sig (pin_i1 pin) i_invert) "_ff")
               (xor_sig (pin_i1 pin) i_invert) ]
  else [].

Definition out_dffs (pin : Pin) (o_invert : option bool) : list Instance :=
  if has_o pin && (pin_xdr pin =? 2)%Z then
    [ dff_inst (pin_o_clk pin)
               (xor_sig (pin_o1 pin) o_invert)
               (Signal_like (xor_sig (pin_o1 pin) o_invert) "_ff") ]
  else [].

Definition locals_of (pin : Pin) (i_invert o_invert : option bool) : Locals :=
  let lt2 := (pin_xdr pin <? 2)%Z in
  let eq2 := (pin_xdr pin =? 2)%Z && negb lt2 in
  let i x := if has_i pin then x else None in
  let o x := if has_o pin then x else None in
  {| l_pin_i := i (if lt2 then Some (xor_sig (pin_i pin) i_invert) else None);
     l_pin_i0 := i (if eq2 then Some (xor_sig (pin_i0 pin) i_invert) else None);
     l_pin_i1 := i (if eq2 then Some (xor_sig (pin_i1 pin) i_invert) else None);
     l_pin_o := o (if lt2 then Some (xor_sig (pin_o pin) o_invert) else None);
     l_pin_o0 := o (if eq2 then Some (xor_sig (pin_o0 pin) o_invert) else None);
     l_pin_o1 := o (if eq2 then Some (xor_sig (pin_o1 pin) o_invert) else None);
     l_i0_ff := i (if eq2 then Some (Signal_like (xor_sig (pin_i0 pin) i_invert) "_ff")
                   else None);
     l_i1_ff := i (if eq2 then Some (Signal_like (xor_sig (pin_i1 pin) i_invert) "_ff")
                   else None);
     l_o1_ff := o (if eq2 then Some (Signal_like (xor_sig (pin_o1 pin) o_invert) "_ff")
                   else None) |}.

(** The argument lists of the I/O cells, bit by bit. *)
Fixpoint all_io_args (pin : Pin) (port : Signal) (attrs : Attrs)
    (is_global_input : bool) (ls : Locals) (bits : list nat)
  : BResult (list (list Arg)) :=
  match bits with
  | [] => Ok []
  | bit :: bits' =>
      let! args := io_args_of pin port attrs is_global_input ls bit in
      let! rest := all_io_args pin port attrs is_global_input ls bits' in
      Ok (args :: rest)
  end.

Definition io_entries (pin : Pin) (is_global_input : bool)
    (argss : list (list Arg)) : list (option string * Instance) :=
  (fun args => (Some (pin_name pin),
                mkInstance (if is_global_input then "SB_GB_IO" else "SB_IO") args))
    <$> argss.

Definition anon (l : list Instance) : list (option string * Instance) :=
  (fun i => (@None string, i)) <$> l.

(** The head of every I/O cell's argument list: the package pin, then the
    attributes as parameters. *)
Definition cell_base (port : Signal) (attrs : Attrs) (bit : nat) : list Arg :=
  (Kio, "PACKAGE_PIN", VBit port bit)
    :: ((fun kv : string * AttrVal => (Kp, fst kv, VAttr (snd kv))) <$> attrs).

(** The [LUT_INIT] parameter: [0b01] inverts, [0b10] passes through. *)
Definition lut_init (i : Instance) : option Value := arg_of Kp "LUT_INIT" i.

(** Everything an SB_LUT4 is instantiated with: [LUT_INIT], [I0], [I1],
    [I2], [I3] and [O]. *)
Definition lut_pins (i : Instance)
  : option Value * option Value * option Value * option Value * option Value
    * option Value :=
  (arg_of Kp "LUT_INIT" i, arg_of Ki "I0" i, arg_of Ki "I1" i, arg_of Ki "I2" i,
   arg_of Ki "I3" i, arg_of Ko "O" i).

(** ** Sessions over time, and what the properties are stated with *)

(** One successful operation on a session. *)
Inductive session_step : Session -> Session -> Prop :=
| step_request s name number dir xdr v s' :
    request s name number dir xdr = Ok (v, s') -> session_step s s'
| step_add_clock s target frequency s' :
    add_clock_constraint s target frequency = Ok s' -> session_step s s'
| step_add_resources s rs s' :
    add_resources s rs = Ok s' -> session_step s s'
| step_add_connectors s cs s' :
    add_connectors s cs = Ok s' -> session_step s s'.

(** Any number of successful operations. *)
Definition session_steps : Session -> Session -> Prop := rtc session_step.

(** Following connector indirections until a literal pin name is reached. *)
Inductive chain (conns : gmap (string * nat) Connector)
  : PinToken -> string -> Prop :=
| chain_literal name : chain conns (Literal name) name
| chain_ref label conn t name :
    conn_lookup conns label conn = Some t ->
    chain conns t name ->
    chain conns (ConnRef label conn) name.

(** The same, counting the indirections. *)
Inductive chain_len (conns : gmap (string * nat) Connector)
  : nat -> PinToken -> string -> Prop :=
| chain_len_literal name : chain_len conns 0 (Literal name) name
| chain_len_ref n label conn t name :
    conn_lookup conns label conn = Some t ->
    chain_len conns n t name ->
    chain_len conns (S n) (ConnRef label conn) name.

(** The electrical groups of a body with their request paths, in order. *)
Fixpoint leaves (b : Body) (component : string) : list (string * Group) :=
  match b with
  | Leaf g => [(component, g)]
  | Node subs =>
      flat_map (fun nb : string * Body =>
                  leaves (snd nb) (component +:+ "__" +:+ fst nb))
               subs
  end.

(** All physical pins bound to the ports of a session. *)
Definition bound_pins (s : Session) : list string :=
  flat_map port_pins (iter_ports s).

(** The transitions of the direction lattice: no change, a narrowing of
    ["io"], or the raw request ["-"]. *)
Definition allowed (declared : Direction) (ov : Override) : Prop :=
  ov = OvDir declared \/
  (declared = Dir_io /\ (ov = OvDir Dir_i \/ ov = OvDir Dir_o \/ ov = OvDir Dir_oe)) \/
  ov = OvRaw.

(** Structural induction on bodies, through the list of subsignals. *)
Fixpoint Body_induction (P : Body -> Prop)
    (HLeaf : forall g, P (Leaf g))
    (HNode : forall subs, Forall (fun nb => P (snd nb)) subs -> P (Node subs))
    (b : Body) {struct b} : P b :=
  match b with
  | Leaf g => HLeaf g
  | Node subs =>
      HNode subs
        ((fix go (l : list (string * Body)) : Forall (fun nb => P (snd nb)) l :=
            match l with
            | [] => @List.Forall_nil _ (fun nb => P (snd nb))
            | (name, b') :: l' =>
                @List.Forall_cons _ (fun nb => P (snd nb)) (name, b') l'
                  (Body_induction P HLeaf HNode b') (go l')
            end) subs)
  end.

(** The physical pins of a ledger entry. *)
Definition entry_pins (e : Entry) : list string :=
  flat_map port_pins (e_ports e).

(** The ledger entry that resolving group [g] at path [c] creates: the
    ports are those of the declared tokens, resolved through the
    connectors; the pin, if any, carries the path and the width. *)
Definition entry_of (conns : gmap (string * nat) Connector) (c : string)
    (g : Group) (e : Entry) : Prop :=
  e_group e = g /\
  e_attrs e = g_attrs g /\
  resolve_ports conns c (group_tokens g) = Ok (e_ports e) /\
  (e_pin e = None \/
   exists d x, e_pin e = Some (mkPin c (group_width g) d x)).

(** What resolving the groups [l] does to a session. *)
Definition resolve_effect (l : list (string * Group)) (s s' : Session) : Prop :=
  resources s' = resources s /\
  connectors s' = connectors s /\
  requested s' = requested s /\
  phys_reqd s ⊆ phys_reqd s' /\
  exists entries,
    ports s' = ports s ++ entries /\
    Forall2 (fun (cg : string * Group) (e : Entry) =>
               entry_of (connectors s) (fst cg) (snd cg) e /\
               forall pin, pin ∈ entry_pins e ->
                           phys_reqd s' !! pin = Some (fst cg))
            l entries /\
    NoDup (flat_map entry_pins entries) /\
    (forall pin, pin ∈ flat_map entry_pins entries -> phys_reqd s !! pin = None) /\
    (forall pin, pin ∉ flat_map entry_pins entries ->
                 phys_reqd s' !! pin = phys_reqd s !! pin).

(** No port carries two clock constraints. *)
Definition clocks_unique (s : Session) : Prop :=
  NoDup (fst <$> clocks s).

(** The pins bound to ports are pairwise distinct, and each of them is in
    the allocation record. *)
Definition ledger_ok (s : Session) : Prop :=
  NoDup (bound_pins s) /\
  forall pin, pin ∈ bound_pins s -> is_Some (phys_reqd s !! pin).

(** The session of the test suite after [clk20#0] (on pin [H1]) has been
    declared and [clk100#0] requested. *)
Definition session_clk100 : Session :=
  Eval vm_compute in
    match with_setup (fun s =>
            let! s := add_resources s
                        [mkResource "clk20" 0 (Leaf (pins ["H1"] Dir_i))] in
            let! (_, s) := request s "clk100" 0 DirNone XdrNone in
            Ok s) with
    | Ok s => s
    | Err _ => empty_session
    end.

Global Instance Override_eq_dec : EqDecision Override.
Proof. solve_decision. Defined.

Global Instance allowed_dec declared ov : Decision (allowed declared ov).
Proof. unfold allowed. apply _. Defined.

(** The session of the test suite's [setUp]. *)
Definition session_setup : Session :=
  Eval vm_compute in
    match ResourceManager test_resources test_connectors with
    | Ok s => s
    | Err _ => empty_session
    end.

(** The ports and binder records that resolving group [g] at path [c]
    yields: one [__io] port for a single-ended group, a [__p] and a [__n]
    port for a differential one, bound to the resolved tokens in order;
    the inversion flag is passed on as declared. *)
Definition port_spec (conns : gmap (string * nat) Connector) (c : string)
    (g : Group) (e : Entry) : Prop :=
  match g_io g with
  | Pins names =>
      exists pins,
        resolve_tokens conns names = Ok pins /\
        e_ports e = [mk_port c "io" pins] /\
        differential_of e = [] /\
        single_ended_of e
        = match e_pin e with
          | Some pin => [(pin, mk_port c "io" pins, g_attrs g, g_invert g)]
          | None => []
          end
  | DiffPairs p n =>
      exists pp pn,
        resolve_tokens conns p = Ok pp /\
        resolve_tokens conns n = Ok pn /\
        e_ports e = [mk_port c "p" pp; mk_port c "n" pn] /\
        single_ended_of e = [] /\
        differential_of e
        = match e_pin e with
          | Some pin =>
              [(pin, mk_port c "p" pp, mk_port c "n" pn, g_attrs g, g_invert g)]
          | None => []
          end
  end.

(** ** Reading an instantiated cell *)

(** The value of parameter [name]: [Instance] collects the ["p"] arguments
    into a dictionary in order, so a later one overrides an earlier one of
    the same name. *)
Definition param_of (name : string) (inst : Instance) : option Value :=
  (fun a : Arg => snd a) <$>
  List.find (fun a : Arg => bool_decide (fst (fst a) = Kp)
                            && String.eqb (snd (fst a)) name)
            (rev (inst_args inst)).

(** Whether the cell has a connection named [name] of kind [kind]. *)
Definition connected (kind : ArgKind) (name : string) (inst : Instance) : bool :=
  bool_decide (is_Some (arg_of kind name inst)).

(** The three fields of the iCE40 [PIN_TYPE] parameter. *)
Definition pin_type_input (p : Z) : Z := Z.land p 3.
Definition pin_type_output (p : Z) : Z := Z.land (Z.shiftr p 2) 3.
Definition pin_type_enable (p : Z) : Z := Z.shiftr p 4.

(** The attributes as cell parameters. *)
Definition attr_params (attrs : Attrs) : list Arg :=
  (fun kv : string * AttrVal => (Kp, fst kv, VAttr (snd kv))) <$> attrs.

(** The ["p"] arguments of a cell, in order. *)
Definition params (inst : Instance) : list Arg :=
  List.filter (fun a : Arg => bool_decide (fst (fst a) = Kp)) (inst_args inst).

(** The data signals of a pin that [_get_io_buffer] passes through
    [get_ixor], respectively [get_oxor]. *)
Definition in_signals (pin : Pin) : list Signal :=
  if has_i pin then
    if (pin_xdr pin <? 2)%Z then [pin_i pin]
    else if (pin_xdr pin =? 2)%Z then [pin_i0 pin; pin_i1 pin]
    else []
  else [].

Definition out_signals (pin : Pin) : list Signal :=
  if has_o pin then
    if (pin_xdr pin <? 2)%Z then [pin_o pin]
    else if (pin_xdr pin =? 2)%Z then [pin_o0 pin; pin_o1 pin]
    else []
  else [].

(** ** Clock domain crossing ([nmigen/lib/cdc.py]) *)

(** A signal as [cdc.py] creates it: name, shape, reset value and
    reset-less flag. *)
Record HSignal := mkHSignal {
  hs_name : string;
  hs_width : nat;
  hs_signed : bool;
  hs_reset : Z;
  hs_reset_less : bool
}.

Global Instance HSignal_eq_dec : EqDecision HSignal.
Proof. solve_decision. Defined.

(** The values that [cdc.py] assigns and connects. *)
Inductive Expr :=
| ESig (s : HSignal)
| EConst (value : Z) (width : nat)
| EClockSignal (domain : string)
| EResetSignal (domain : string).

Global Instance Expr_eq_dec : EqDecision Expr.
Proof. solve_decision. Defined.

(** [m.d[domain] += lhs.eq(rhs)]; the combinational domain is ["comb"]. *)
Record Assign := mkAssign {
  a_domain : string;
  a_lhs : Expr;
  a_rhs : Expr
}.

Inductive CValue :=
| CInt (z : Z)
| CExpr (e : Expr).

Record CInstance := mkCInstance {
  ci_type : string;
  ci_args : list (ArgKind * string * CValue)
}.

(** A module as [elaborate] builds it: statements and anonymous
    submodules, in order. *)
Record Design := mkDesign {
  d_stmts : list Assign;
  d_insts : list CInstance
}.

Inductive CdcError := IndexError.

Record MultiReg := mkMultiReg {
  mr_i : HSignal;
  mr_o : HSignal;
  mr_odomain : string;
  mr_regs : list HSignal
}.

Record ResetSynchronizer := mkResetSynchronizer {
  rs_arst : Expr;
  rs_domain : string;
  rs_regs : list HSignal
}.

(** The platform hooks that [elaborate] probes with [hasattr]. *)
Record Platform := mkPlatform {
  get_multi_reg : option (MultiReg -> Result CdcError Design);
  get_reset_sync : option (ResetSynchronizer -> Result CdcError Design)
}.

(** [range(n)]: empty for [n <= 0]. *)
Definition py_range (n : Z) : list nat := seq 0%nat (Z.to_nat n).

(** [MultiReg.__init__] *)
Definition MultiReg_init (i o : HSignal) (odomain : string) (n : Z) (reset : Z)
    (reset_less : bool) : MultiReg :=
  {| mr_i := i;
     mr_o := o;
     mr_odomain := odomain;
     mr_regs :=
       (fun k : nat =>
          mkHSignal ("cdc" +:+ pretty k) (hs_width i) (hs_signed i) reset reset_less)
         <$> py_range n |}.

(** [MultiReg.elaborate] *)
Definition MultiReg_elaborate (self : MultiReg) (platform : Platform)
  : Result CdcError Design :=
  match get_multi_reg platform with
  | Some hook => hook self
  | None =>
      let sync :=
        (fun io : HSignal * HSignal =>
           mkAssign (mr_odomain self) (ESig (snd io)) (ESig (fst io)))
          <$> zip (mr_i self :: mr_regs self) (mr_regs self) in
      match last (mr_regs self) with
      | None => Err IndexError
      | Some r =>
          Ok {| d_stmts := sync ++ [mkAssign "comb" (ESig (mr_o self)) (ESig r)];
                d_insts := [] |}
      end
  end.

(** [ResetSynchronizer.__init__] *)
Definition ResetSynchronizer_init (arst : Expr) (domain : string) (n : Z)
  : ResetSynchronizer :=
  {| rs_arst := arst;
     rs_domain := domain;
     rs_regs :=
       (fun k : nat => mkHSignal ("arst" +:+ pretty k) 1 false 1%Z false)
         <$> py_range n |}.

(** The [$adff] cell of one stage. *)
Definition adff (domain : string) (arst d q : Expr) : CInstance :=
  mkCInstance "$adff"
    [ (Kp, "CLK_POLARITY", CInt 1%Z);
      (Kp, "ARST_POLARITY", CInt 1%Z);
      (Kp, "ARST_VALUE", CExpr (EConst 1%Z 1));
      (Kp, "WIDTH", CInt 1%Z);
      (Ki, "CLK", CExpr (EClockSignal domain));
      (Ki, "ARST", CExpr arst);
      (Ki, "D", CExpr d);
      (Ko, "Q", CExpr q) ].

(** [ResetSynchronizer.elaborate] *)
Definition ResetSynchronizer_elaborate (self : ResetSynchronizer)
    (platform : Platform) : Result CdcError Design :=
  match get_reset_sync platform with
  | Some hook => hook self
  | None =>
      let insts :=
        (fun io : Expr * HSignal =>
           adff (rs_domain self) (rs_arst self) (fst io) (ESig (snd io)))
          <$> zip (EConst 0%Z 1 :: (ESig <$> rs_regs self)) (rs_regs self) in
      match last (rs_regs self) with
      | None => Err IndexError
      | Some r =>
          Ok {| d_stmts := [mkAssign "comb" (EResetSignal (rs_domain self)) (ESig r)];
                d_insts := insts |}
      end
  end.

(** The connection named [name] of a cell. *)
Definition cport (kind : ArgKind) (name : string) (inst : CInstance)
  : option CValue :=
  (fun a : ArgKind * string * CValue => snd a) <$>
  List.find (fun a : ArgKind * string * CValue =>
               bool_decide (fst (fst a) = kind) && String.eqb (snd (fst a)) name)
            (ci_args inst).

(** A platform without hooks, such as [None]. *)
Definition no_platform : Platform := mkPlatform None None.

(** * Properties *)

(** ** Generic facts *)

Lemma rbind_ok {E A B} (r : Result E A) (k : A -> Result E B) (b : B) :
  rbind r k = Ok b -> exists a, r = Ok a /\ k a = Ok b.
Proof. destruct r as [a|e]; simpl; intros H; [eauto | discriminate]. Qed.

Lemma find_app_none {A} (P : A -> bool) (l1 l2 : list A) :
  List.find P l1 = None -> List.find P (l1 ++ l2) = List.find P l2.
Proof.
  induction l1 as [|x l1 IH]; simpl; [done|].
  destruct (P x); [discriminate | exact IH].
Qed.

Lemma find_none_forall {A} (P : A -> bool) (l : list A) :
  Forall (fun x => P x = false) l -> List.find P l = None.
Proof.
  induction 1 as [|x l Hx _ IH]; simpl; [done|]. by rewrite Hx.
Qed.

(** ** Slicing *)

Arguments index : simpl never.

Lemma index_ok s bit v :
  index s bit = Ok v -> v = VBit s bit /\ (bit < sig_width s)%nat.
Proof.
  unfold index. destruct (Nat.ltb_spec bit (sig_width s)) as [Hlt|Hge];
    [|discriminate].
  intros Hv. by inversion Hv.
Qed.

Lemma index_lt s bit : (bit < sig_width s)%nat -> index s bit = Ok (VBit s bit).
Proof. intros H. unfold index. by rewrite (proj2 (Nat.ltb_lt _ _) H). Qed.

Lemma index_ge s bit : (sig_width s <= bit)%nat -> index s bit = Err BitIndexError.
Proof. intros H. unfold index. by rewrite (proj2 (Nat.ltb_ge _ _) H). Qed.

Lemma xor_sig_width s invert : sig_width (xor_sig s invert) = sig_width s.
Proof. by destruct invert. Qed.

(** ** The shape of the module after [_get_io_buffer] *)

Lemma add_luts_submodules m inv a y n :
  add_luts m inv a y n
  = mkModule (submodules m ++ lut_entries inv a y n).
Proof.
  unfold add_luts, lut_entries. generalize (seq 0 n) as bits.
  intros bits. revert m. induction bits as [|bit bits IH]; intros m; simpl.
  - rewrite app_nil_r. by destruct m.
  - rewrite IH. unfold add_submodule. simpl. by rewrite <- app_assoc.
Qed.

Lemma get_ixor_eq m y invert :
  get_ixor m y invert
  = (mkModule (submodules m ++ ixor_entries y invert), xor_sig y invert).
Proof.
  destruct invert as [inv|]; simpl.
  - by rewrite add_luts_submodules.
  - rewrite app_nil_r. by destruct m.
Qed.

Lemma get_oxor_eq m a invert :
  get_oxor m a invert
  = (mkModule (submodules m ++ oxor_entries a invert), xor_sig a invert).
Proof.
  destruct invert as [inv|]; simpl.
  - by rewrite add_luts_submodules.
  - rewrite app_nil_r. by destruct m.
Qed.

Lemma io_loop_eq m pin port attrs gl ls bits :
  io_loop m pin port attrs gl ls bits
  = let! argss := all_io_args pin port attrs gl ls bits in
    Ok (mkModule (submodules m ++ io_entries pin gl argss)).
Proof.
  revert m. induction bits as [|bit bits IH]; intros m; simpl.
  - rewrite app_nil_r. by destruct m.
  - destruct (io_args_of pin port attrs gl ls bit) as [args|e]; simpl; [|done].
    rewrite IH. destruct (all_io_args pin port attrs gl ls bits) as [argss|e];
      simpl; [|done].
    by rewrite <- app_assoc.
Qed.

(** One call of [_get_io_buffer] either fails its assertion, or appends the
    inversion LUTs, then the retiming flip-flops, then one I/O cell per
    bit of the port. *)
Lemma get_io_buffer_eq m pin port attrs i_invert o_invert :
  _get_io_buffer m pin port attrs i_invert o_invert
  = if global_of attrs && opt_truthy i_invert then Err AssertionError
    else
      let! argss :=
        all_io_args pin port (attrs_after attrs) (global_of attrs)
                    (locals_of pin i_invert o_invert)
                    (seq 0%nat (sig_width port)) in
      Ok (mkModule (submodules m
                    ++ in_luts pin i_invert ++ out_luts pin o_invert
                    ++ anon (in_dffs pin i_invert) ++ anon (out_dffs pin o_invert)
                    ++ io_entries pin (global_of attrs) argss),
          attrs_after attrs).
Proof.
  unfold _get_io_buffer, global_of, attrs_after, in_luts, out_luts, in_dffs,
    out_dffs, locals_of.
  destruct (attrs_mem "GLOBAL" attrs);
    (match goal with |- context [if ?g && opt_truthy _ then _ else _] =>
       destruct (g && opt_truthy i_invert); [reflexivity|] end);
    destruct (has_i pin), (has_o pin), (pin_xdr pin <? 2)%Z eqn:Hlt,
      (pin_xdr pin =? 2)%Z eqn:Heq;
    try lia; simpl;
    repeat (rewrite ?get_ixor_eq, ?get_oxor_eq; simpl);
    rewrite io_loop_eq; simpl;
    (match goal with |- context [all_io_args ?a ?b ?c ?d ?e ?f] =>
       destruct (all_io_args a b c d e f) end); simpl;
    rewrite ?app_nil_r, <- ?app_assoc; reflexivity.
Qed.

(** ** Arguments of the I/O cells *)

Lemma arg_of_base kind name ty port attrs bit tail :
  kind <> Kp -> kind <> Kio ->
  arg_of kind name (mkInstance ty (cell_base port attrs bit ++ tail))
  = arg_of kind name (mkInstance ty tail).
Proof.
  intros Hp Hio. unfold arg_of, cell_base. simpl.
  rewrite bool_decide_eq_false_2 by congruence. simpl.
  f_equal. apply find_app_none. apply find_none_forall.
  apply Forall_fmap, Forall_forall. intros [k v] _. simpl.
  by rewrite bool_decide_eq_false_2 by congruence.
Qed.

Lemma arg_of_package_pin ty port attrs bit tail :
  arg_of Kio "PACKAGE_PIN" (mkInstance ty (cell_base port attrs bit ++ tail))
  = Some (VBit port bit).
Proof. reflexivity. Qed.

Ltac to_cell_base port attrs bit :=
  rewrite <- ?app_assoc; simpl;
  match goal with
  | |- context [(Kio, "PACKAGE_PIN", VBit port bit) :: ?l ++ ?tail] =>
      change ((Kio, "PACKAGE_PIN", VBit port bit) :: l ++ tail)
        with (cell_base port attrs bit ++ tail)
  end.

Lemma io_args_ddr pin port attrs gl ii oi bit ty :
  pin_xdr pin = 2%Z ->
  (has_o pin = true -> (bit < pin_width pin)%nat) ->
  exists args,
    io_args_of pin port attrs gl (locals_of pin ii oi) bit = Ok args /\
    arg_of Kio "PACKAGE_PIN" (mkInstance ty args) = Some (VBit port bit) /\
    (has_i pin = true ->
     arg_of Ko "D_IN_0" (mkInstance ty args)
       = Some (VSig (Signal_like (xor_sig (pin_i0 pin) ii) "_ff")) /\
     arg_of Ko "D_IN_1" (mkInstance ty args)
       = Some (VSig (Signal_like (xor_sig (pin_i1 pin) ii) "_ff"))) /\
    (has_o pin = true ->
     arg_of Ki "D_OUT_0" (mkInstance ty args)
       = Some (VBit (xor_sig (pin_o0 pin) oi) bit) /\
     arg_of Ki "D_OUT_1" (mkInstance ty args)
       = Some (VSig (Signal_like (xor_sig (pin_o1 pin) oi) "_ff"))).
Proof.
  intros Hx Hw.
  assert (has_o pin = true -> index (xor_sig (pin_o0 pin) oi) bit
                              = Ok (VBit (xor_sig (pin_o0 pin) oi) bit)) as Hidx.
  { intros Ho. apply index_lt. rewrite xor_sig_width. by apply Hw. }
  revert Hidx. clear Hw.
  unfold io_args_of, locals_of, pin_has_i_clk, pin_has_o_clk, o_type_of,
    i_type_of, has_i, has_o.
  rewrite Hx. destruct (pin_dir pin) eqn:Hd; simpl; intros Hidx;
    rewrite ?Hidx by reflexivity; simpl;
    (eexists; split; [reflexivity|]);
    to_cell_base port attrs bit;
    (split; [apply arg_of_package_pin|]);
    (split; intros Hcap; try discriminate Hcap);
    rewrite !arg_of_base by congruence; split; reflexivity.
Qed.

(** ** Observations on the module after a call *)

Lemma filter_none {A} (P : A -> bool) (l : list A) :
  Forall (fun x => P x = false) l -> List.filter P l = [].
Proof. induction 1 as [|x l Hx _ IH]; simpl; [done|]. by rewrite Hx. Qed.

Lemma filter_all {A} (P : A -> bool) (l : list A) :
  Forall (fun x => P x = true) l -> List.filter P l = l.
Proof. induction 1 as [|x l Hx _ IH]; simpl; [done|]. by rewrite Hx, IH. Qed.

Lemma lut_entries_type inv a y n :
  Forall (fun i => inst_type i = "SB_LUT4") (snd <$> lut_entries inv a y n).
Proof.
  unfold lut_entries. rewrite <- list_fmap_compose.
  apply Forall_fmap, Forall_forall. by intros bit _.
Qed.

Lemma ixor_entries_type y invert :
  Forall (fun i => inst_type i = "SB_LUT4") (snd <$> ixor_entries y invert).
Proof. destruct invert; simpl; [apply lut_entries_type | constructor]. Qed.

Lemma oxor_entries_type a invert :
  Forall (fun i => inst_type i = "SB_LUT4") (snd <$> oxor_entries a invert).
Proof. destruct invert; simpl; [apply lut_entries_type | constructor]. Qed.

Lemma in_luts_type pin invert :
  Forall (fun i => inst_type i = "SB_LUT4") (snd <$> in_luts pin invert).
Proof.
  unfold in_luts. repeat case_match; rewrite ?fmap_app, ?Forall_app;
    repeat split; try apply ixor_entries_type; constructor.
Qed.

Lemma out_luts_type pin invert :
  Forall (fun i => inst_type i = "SB_LUT4") (snd <$> out_luts pin invert).
Proof.
  unfold out_luts. repeat case_match; rewrite ?fmap_app, ?Forall_app;
    repeat split; try apply oxor_entries_type; constructor.
Qed.

Lemma in_dffs_type pin invert :
  Forall (fun i => inst_type i = "$dff") (in_dffs pin invert).
Proof. unfold in_dffs. case_match; repeat constructor. Qed.

Lemma out_dffs_type pin invert :
  Forall (fun i => inst_type i = "$dff") (out_dffs pin invert).
Proof. unfold out_dffs. case_match; repeat constructor. Qed.

Lemma io_entries_type pin (gl : bool) argss :
  Forall (fun i => inst_type i = if gl then "SB_GB_IO" else "SB_IO")
         (snd <$> io_entries pin gl argss).
Proof.
  unfold io_entries. rewrite <- list_fmap_compose.
  apply Forall_fmap, Forall_forall. by intros args _.
Qed.

Lemma snd_anon l : snd <$> anon l = l.
Proof.
  unfold anon. rewrite <- list_fmap_compose. induction l; simpl; [done|].
  by f_equal.
Qed.

(** The instances of a module that went through one successful call. *)
Lemma get_io_buffer_instances m pin port attrs i_invert o_invert m' attrs' :
  _get_io_buffer m pin port attrs i_invert o_invert = Ok (m', attrs') ->
  global_of attrs && opt_truthy i_invert = false /\
  attrs' = attrs_after attrs /\
  exists argss,
    all_io_args pin port (attrs_after attrs) (global_of attrs)
                (locals_of pin i_invert o_invert) (seq 0%nat (sig_width port))
      = Ok argss /\
    instances m'
    = instances m
      ++ (snd <$> in_luts pin i_invert) ++ (snd <$> out_luts pin o_invert)
      ++ in_dffs pin i_invert ++ out_dffs pin o_invert
      ++ (snd <$> io_entries pin (global_of attrs) argss).
Proof.
  rewrite get_io_buffer_eq.
  destruct (global_of attrs && opt_truthy i_invert); [discriminate|].
  intros H. apply rbind_ok in H as (argss & Hargs & H). inversion H; subst.
  split; [done|]. split; [done|]. exists argss. split; [done|].
  unfold instances. simpl. by rewrite !fmap_app, !snd_anon.
Qed.

Lemma type_ne_false ty ty' (l : list Instance) :
  ty' <> ty ->
  Forall (fun i => inst_type i = ty') l ->
  Forall (fun i => is_type ty i = false) l.
Proof.
  intros Hne Hl. eapply Forall_impl; [exact Hl|]. intros i Hi.
  unfold is_type. simpl in Hi. rewrite Hi. by apply String.eqb_neq.
Qed.

Lemma type_eq_true ty (l : list Instance) :
  Forall (fun i => inst_type i = ty) l ->
  Forall (fun i => is_type ty i = true) l.
Proof.
  intros Hl. eapply Forall_impl; [exact Hl|]. intros i Hi.
  unfold is_type. simpl in Hi. rewrite Hi. apply String.eqb_refl.
Qed.

Lemma io_entries_not ty pin gl argss :
  ty <> "SB_IO" -> ty <> "SB_GB_IO" ->
  Forall (fun i => is_type ty i = false) (snd <$> io_entries pin gl argss).
Proof.
  intros H1 H2. destruct gl.
  - eapply (type_ne_false ty "SB_GB_IO"); [congruence|]. apply (io_entries_type pin true).
  - eapply (type_ne_false ty "SB_IO"); [congruence|]. apply (io_entries_type pin false).
Qed.

Lemma instances_dff m pin port attrs i_invert o_invert m' attrs' :
  _get_io_buffer m pin port attrs i_invert o_invert = Ok (m', attrs') ->
  instances_of "$dff" m'
  = instances_of "$dff" m ++ in_dffs pin i_invert ++ out_dffs pin o_invert.
Proof.
  intros H. apply get_io_buffer_instances in H as (_ & _ & argss & _ & H).
  unfold instances_of. rewrite H, !List.filter_app.
  rewrite (filter_none _ (snd <$> in_luts _ _))
    by (eapply type_ne_false; [|apply in_luts_type]; done).
  rewrite (filter_none _ (snd <$> out_luts _ _))
    by (eapply type_ne_false; [|apply out_luts_type]; done).
  rewrite (filter_none _ (snd <$> io_entries _ _ _))
    by (apply io_entries_not; done).
  rewrite (filter_all _ (in_dffs _ _)) by (apply type_eq_true, in_dffs_type).
  rewrite (filter_all _ (out_dffs _ _)) by (apply type_eq_true, out_dffs_type).
  simpl. by rewrite app_nil_r.
Qed.

Lemma instances_lut m pin port attrs i_invert o_invert m' attrs' :
  _get_io_buffer m pin port attrs i_invert o_invert = Ok (m', attrs') ->
  instances_of "SB_LUT4" m'
  = instances_of "SB_LUT4" m
    ++ (snd <$> in_luts pin i_invert) ++ (snd <$> out_luts pin o_invert).
Proof.
  intros H. apply get_io_buffer_instances in H as (_ & _ & argss & _ & H).
  unfold instances_of. rewrite H, !List.filter_app.
  rewrite (filter_all _ (snd <$> in_luts _ _)) by (apply type_eq_true, in_luts_type).
  rewrite (filter_all _ (snd <$> out_luts _ _)) by (apply type_eq_true, out_luts_type).
  rewrite (filter_none _ (snd <$> io_entries _ _ _))
    by (apply io_entries_not; done).
  rewrite (filter_none _ (in_dffs _ _))
    by (eapply type_ne_false; [|apply in_dffs_type]; done).
  rewrite (filter_none _ (out_dffs _ _))
    by (eapply type_ne_false; [|apply out_dffs_type]; done).
  simpl. by rewrite app_nil_r.
Qed.

Lemma not_io_cell ty (l : list Instance) :
  ty <> "SB_IO" -> ty <> "SB_GB_IO" ->
  Forall (fun i => inst_type i = ty) l ->
  Forall (fun i => is_io_cell i = false) l.
Proof.
  intros H1 H2 Hl. eapply Forall_impl; [exact Hl|]. intros i Hi.
  unfold is_io_cell, is_type. simpl in Hi. rewrite Hi.
  apply orb_false_intro; by apply String.eqb_neq.
Qed.

Lemma io_entries_cells pin gl argss :
  Forall (fun i => is_io_cell i = true) (snd <$> io_entries pin gl argss).
Proof.
  eapply Forall_impl; [apply io_entries_type|]. intros i Hi.
  unfold is_io_cell, is_type. simpl in Hi. rewrite Hi. by destruct gl.
Qed.

Lemma instances_io m pin port attrs i_invert o_invert m' attrs' :
  _get_io_buffer m pin port attrs i_invert o_invert = Ok (m', attrs') ->
  exists argss,
    all_io_args pin port (attrs_after attrs) (global_of attrs)
                (locals_of pin i_invert o_invert) (seq 0%nat (sig_width port))
      = Ok argss /\
    io_cells m'
    = io_cells m ++ (snd <$> io_entries pin (global_of attrs) argss).
Proof.
  intros H. apply get_io_buffer_instances in H as (_ & _ & argss & Ha & H).
  exists argss. split; [done|].
  unfold io_cells. rewrite H, !List.filter_app.
  rewrite (filter_none _ (snd <$> in_luts _ _))
    by (eapply (not_io_cell "SB_LUT4"); [done|done|apply in_luts_type]).
  rewrite (filter_none _ (snd <$> out_luts _ _))
    by (eapply (not_io_cell "SB_LUT4"); [done|done|apply out_luts_type]).
  rewrite (filter_none _ (in_dffs _ _))
    by (eapply (not_io_cell "$dff"); [done|done|apply in_dffs_type]).
  rewrite (filter_none _ (out_dffs _ _))
    by (eapply (not_io_cell "$dff"); [done|done|apply out_dffs_type]).
  rewrite (filter_all _ (snd <$> io_entries _ _ _)) by apply io_entries_cells.
  done.
Qed.

(** ** Double data rate: the retiming registers *)

Lemma all_io_args_ok (P : nat -> list Arg -> Prop) pin port attrs gl ls bits :
  (forall bit, bit ∈ bits ->
     exists args, io_args_of pin port attrs gl ls bit = Ok args /\ P bit args) ->
  exists argss,
    all_io_args pin port attrs gl ls bits = Ok argss /\ Forall2 P bits argss.
Proof.
  induction bits as [|bit bits IH]; intros H; simpl.
  - exists []. by split.
  - destruct (H bit (list_elem_of_here _ _)) as (args & -> & HP). simpl.
    destruct IH as (argss & IH & HF).
    { intros b Hb. apply H. by apply list_elem_of_further. }
    rewrite IH. simpl. exists (args :: argss). split; [done|]. by constructor.
Qed.

Lemma all_io_args_inv pin port attrs gl ls bits argss :
  all_io_args pin port attrs gl ls bits = Ok argss ->
  Forall2 (fun bit args => io_args_of pin port attrs gl ls bit = Ok args)
          bits argss.
Proof.
  revert argss. induction bits as [|bit bits IH]; simpl; intros argss H.
  - inversion H. constructor.
  - apply rbind_ok in H as (args & Ha & H).
    apply rbind_ok in H as (rest & Hr & H). inversion H; subst.
    constructor; [done | by apply IH].
Qed.

Lemma append_suffix_ne (s t : string) : t <> "" -> s +:+ t <> s.
Proof.
  intros Ht. induction s as [|c s IH]; simpl; [done|].
  intros H. inversion H. by apply IH.
Qed.

Lemma suffixed_signal_ne (s : Signal) (t : string) :
  t <> "" -> mkSignal (sig_name s +:+ t) (sig_width s) <> s.
Proof.
  intros Ht H. destruct s as [name w]. simpl in H. inversion H as [Hn].
  by apply (append_suffix_ne name t).
Qed.

(** C7: with [xdr == 2], a call of [_get_io_buffer] that passes its
    assertion, on a port no wider than the pin when the pin has output
    capability, succeeds, and the [$dff] cells it adds are exactly: for a
    direction containing "i", one per edge-sample, with [CLK] = [pin.i_clk],
    [Q] = the fabric-side signal of [i0] (resp. [i1]) and [D] = a new
    [_ff] signal, which is what the cells' [D_IN_0] (resp. [D_IN_1]) drive;
    for a direction containing "o", one, with [CLK] = [pin.o_clk], [D] =
    the signal of [o1] and [Q] = a new [_ff] signal, which is what the
    cells' [D_OUT_1] read, while [D_OUT_0] reads the bit of the signal of
    [o0] itself.  The signal of a data signal is the signal itself, or its
    [_x0]/[_x1] copy behind the inversion LUT. *)
Theorem ddr_retiming_asymmetry (m : Module) (pin : Pin) (port : Signal)
    (attrs : Attrs) (i_invert o_invert : option bool) :
  pin_xdr pin = 2%Z ->
  global_of attrs && opt_truthy i_invert = false ->
  (has_o pin = true -> (sig_width port <= pin_width pin)%nat) ->
  let x := fun (s : Signal) (invert : option bool) =>
    match invert with
    | None => s
    | Some inv =>
        mkSignal (sig_name s +:+ "_x" +:+ (if inv then "1" else "0")) (sig_width s)
    end in
  let ff := fun s : Signal => mkSignal (sig_name s +:+ "_ff") (sig_width s) in
  let i0 := x (pin_i0 pin) i_invert in
  let i1 := x (pin_i1 pin) i_invert in
  let o0 := x (pin_o0 pin) o_invert in
  let o1 := x (pin_o1 pin) o_invert in
  exists (m' : Module) (attrs' : Attrs) (ffs cells : list Instance),
    _get_io_buffer m pin port attrs i_invert o_invert = Ok (m', attrs') /\
    instances_of "$dff" m' = instances_of "$dff" m ++ ffs /\
    (fun f => (arg_of Ki "CLK" f, arg_of Ki "D" f, arg_of Ko "Q" f)) <$> ffs
    = (if has_i pin
       then [ (Some (VSig (pin_i_clk pin)), Some (VSig (ff i0)), Some (VSig i0));
              (Some (VSig (pin_i_clk pin)), Some (VSig (ff i1)), Some (VSig i1)) ]
       else [])
      ++ (if has_o pin
          then [ (Some (VSig (pin_o_clk pin)), Some (VSig o1), Some (VSig (ff o1))) ]
          else []) /\
    ff i0 <> i0 /\ ff i1 <> i1 /\ ff o1 <> o1 /\
    io_cells m' = io_cells m ++ cells /\
    length cells = sig_width port /\
    forall (bit : nat) (cell : Instance),
      cells !! bit = Some cell ->
      arg_of Kio "PACKAGE_PIN" cell = Some (VBit port bit) /\
      (has_i pin = true ->
       arg_of Ko "D_IN_0" cell = Some (VSig (ff i0)) /\
       arg_of Ko "D_IN_1" cell = Some (VSig (ff i1))) /\
      (has_o pin = true ->
       arg_of Ki "D_OUT_0" cell = Some (VBit o0 bit) /\
       arg_of Ki "D_OUT_1" cell = Some (VSig (ff o1))).
Proof.
  intros Hx Hassert Hw x ff i0 i1 o0 o1.
  assert (Hxe : x = xor_sig) by reflexivity.
  assert (Hfe : ff = fun s => Signal_like s "_ff") by reflexivity.
  subst i0 i1 o0 o1. rewrite Hxe.
  set (ty := if global_of attrs then "SB_GB_IO" else "SB_IO").
  destruct (all_io_args_ok
              (fun bit args =>
                 arg_of Kio "PACKAGE_PIN" (mkInstance ty args) = Some (VBit port bit) /\
                 (has_i pin = true ->
                  arg_of Ko "D_IN_0" (mkInstance ty args)
                    = Some (VSig (Signal_like (xor_sig (pin_i0 pin) i_invert) "_ff")) /\
                  arg_of Ko "D_IN_1" (mkInstance ty args)
                    = Some (VSig (Signal_like (xor_sig (pin_i1 pin) i_invert) "_ff"))) /\
                 (has_o pin = true ->
                  arg_of Ki "D_OUT_0" (mkInstance ty args)
                    = Some (VBit (xor_sig (pin_o0 pin) o_invert) bit) /\
                  arg_of Ki "D_OUT_1" (mkInstance ty args)
                    = Some (VSig (Signal_like (xor_sig (pin_o1 pin) o_invert) "_ff"))))
              pin port (attrs_after attrs) (global_of attrs)
              (locals_of pin i_invert o_invert) (seq 0%nat (sig_width port)))
    as (argss & Hargs & HF).
  { intros bit Hbit. apply io_args_ddr; [done|]. intros Ho.
    apply elem_of_seq in Hbit. specialize (Hw Ho). lia. }
  assert (Hrun : _get_io_buffer m pin port attrs i_invert o_invert
                 = Ok (mkModule (submodules m
                    ++ in_luts pin i_invert ++ out_luts pin o_invert
                    ++ anon (in_dffs pin i_invert) ++ anon (out_dffs pin o_invert)
                    ++ io_entries pin (global_of attrs) argss),
                       attrs_after attrs)).
  { rewrite get_io_buffer_eq, Hassert, Hargs. done. }
  eexists _, _, (in_dffs pin i_invert ++ out_dffs pin o_invert),
    (snd <$> io_entries pin (global_of attrs) argss).
  split; [exact Hrun|].
  split; [exact (instances_dff _ _ _ _ _ _ _ _ Hrun)|].
  split.
  { rewrite Hfe. unfold in_dffs, out_dffs. rewrite Hx. simpl.
    rewrite !andb_true_r. by destruct (has_i pin), (has_o pin). }
  split; [by apply suffixed_signal_ne|].
  split; [by apply suffixed_signal_ne|].
  split; [by apply suffixed_signal_ne|].
  split.
  { destruct (instances_io _ _ _ _ _ _ _ _ Hrun) as (argss' & Ha' & ->).
    rewrite Hargs in Ha'. by inversion Ha'. }
  split.
  { rewrite length_fmap. unfold io_entries. rewrite length_fmap.
    apply Forall2_length in HF. by rewrite <- HF, length_seq. }
  intros bit cell Hcell.
  unfold io_entries in Hcell. rewrite <- list_fmap_compose in Hcell.
  apply list_lookup_fmap_Some in Hcell as (args & -> & Hlk).
  destruct (Forall2_lookup_r _ _ _ _ _ HF Hlk) as (bit' & Hbit & HP).
  apply lookup_seq in Hbit as [-> _]. rewrite Hfe. exact HP.
Qed.

Lemma ddr_retiming_asymmetry_witness :
  pin_xdr (mkPin "d" 2 Dir_io 2) = 2%Z /\
  global_of [] && opt_truthy None = false /\
  exists m' attrs',
    _get_io_buffer Module_new (mkPin "d" 2 Dir_io 2) (mkSignal "d__io" 2) []
                   None None = Ok (m', attrs') /\
    (fun f => (arg_of Ki "CLK" f, arg_of Ki "D" f, arg_of Ko "Q" f))
      <$> instances_of "$dff" m'
    = [ (Some (VSig (mkSignal "d__i_clk" 1)), Some (VSig (mkSignal "d__i0_ff" 2)),
         Some (VSig (mkSignal "d__i0" 2)));
        (Some (VSig (mkSignal "d__i_clk" 1)), Some (VSig (mkSignal "d__i1_ff" 2)),
         Some (VSig (mkSignal "d__i1" 2)));
        (Some (VSig (mkSignal "d__o_clk" 1)), Some (VSig (mkSignal "d__o1" 2)),
         Some (VSig (mkSignal "d__o1_ff" 2))) ] /\
    length (io_cells m') = 2%nat.
Proof.
  split; [reflexivity|]. split; [reflexivity|].
  destruct (ddr_retiming_asymmetry Module_new (mkPin "d" 2 Dir_io 2)
              (mkSignal "d__io" 2) [] None None eq_refl eq_refl
              (fun _ => le_n 2))
    as (m' & attrs' & ffs & cells & Hrun & Hdff & Hffs & _ & _ & _ & Hc & Hlen & _).
  exists m', attrs'. split; [exact Hrun|]. split.
  - rewrite Hdff. exact Hffs.
  - rewrite Hc. exact Hlen.
Defined.

(** ** Differential inputs use the p port only *)

Lemma io_args_of_base pin port attrs gl ls bit args :
  io_args_of pin port attrs gl ls bit = Ok args ->
  exists tail, args = cell_base port attrs bit ++ tail.
Proof.
  unfold io_args_of, local, index. intros H.
  repeat (case_match; simpl in *; try discriminate);
    inversion H; subst; rewrite <- ?app_assoc; simpl;
    eexists; unfold cell_base; simpl; reflexivity.
Qed.

Lemma io_args_of_ok pin port attrs gl ii oi bit :
  pin_xdr pin ∈ valid_xdrs_ice40 ->
  (bit < pin_width pin)%nat ->
  exists args, io_args_of pin port attrs gl (locals_of pin ii oi) bit = Ok args.
Proof.
  intros Hx Hb. unfold valid_xdrs_ice40 in Hx.
  assert (Hidx : forall s, sig_width s = pin_width pin ->
                           index s bit = Ok (VBit s bit)).
  { intros s Hs. apply index_lt. by rewrite Hs. }
  unfold io_args_of, locals_of, pin_has_i_clk, pin_has_o_clk, o_type_of,
    i_type_of, has_i, has_o.
  repeat (apply elem_of_cons in Hx as [Hx|Hx]); [| | |by apply elem_of_nil in Hx];
    rewrite Hx; destruct (pin_dir pin), gl; simpl;
    rewrite ?Hidx by (by rewrite ?xor_sig_width); simpl; eexists; reflexivity.
Qed.

Lemma all_io_args_total pin port attrs gl ii oi bits :
  pin_xdr pin ∈ valid_xdrs_ice40 ->
  (forall bit, bit ∈ bits -> (bit < pin_width pin)%nat) ->
  exists argss,
    all_io_args pin port attrs gl (locals_of pin ii oi) bits = Ok argss.
Proof.
  intros Hx Hb.
  destruct (all_io_args_ok (fun _ _ => True) pin port attrs gl
              (locals_of pin ii oi) bits) as (argss & H & _); [|eauto].
  intros bit Hbit.
  destruct (io_args_of_ok pin port attrs gl ii oi bit Hx (Hb bit Hbit)) as [args H].
  eauto.
Qed.

Lemma check_feature_ok feature pin attrs :
  _check_feature feature pin attrs valid_xdrs_ice40 true = Ok () <->
  pin_xdr pin ∈ valid_xdrs_ice40.
Proof.
  unfold _check_feature. simpl. case_bool_decide; simpl; split; try done.
Qed.

Lemma check_feature_inv feature pin attrs (k : BResult (Module * Attrs)) r :
  (let! _ := _check_feature feature pin attrs valid_xdrs_ice40 true in k) = Ok r ->
  pin_xdr pin ∈ valid_xdrs_ice40 /\ k = Ok r.
Proof.
  intros H. apply rbind_ok in H as ([] & Hc & Hk).
  split; [by apply check_feature_ok in Hc | done].
Qed.

(** [_get_io_buffer] succeeds whenever the data rate is supported, the
    assertion holds and the port is no wider than the pin. *)
Lemma get_io_buffer_total m pin port attrs ii oi :
  pin_xdr pin ∈ valid_xdrs_ice40 ->
  global_of attrs && opt_truthy ii = false ->
  (sig_width port <= pin_width pin)%nat ->
  is_ok (_get_io_buffer m pin port attrs ii oi) = true.
Proof.
  intros Hx Ha Hw. rewrite get_io_buffer_eq, Ha.
  destruct (all_io_args_total pin port (attrs_after attrs) (global_of attrs)
              ii oi (seq 0%nat (sig_width port)) Hx) as [argss ->].
  { intros bit Hbit. apply elem_of_seq in Hbit. lia. }
  reflexivity.
Qed.

(** [attrs.get(key)] is the value of the first binding of [key]. *)
Lemma attrs_get_Some key attrs v :
  attrs_get key attrs = Some v <->
  exists l1 l2, attrs = l1 ++ (key, v) :: l2 /\ key ∉ l1.*1.
Proof.
  unfold attrs_get. induction attrs as [|[k v0] attrs IH]; simpl.
  - split; [done|]. intros (l1 & l2 & H & _). by destruct l1.
  - destruct (String.eqb_spec k key) as [->|Hk]; simpl.
    + split.
      * intros [= ->]. exists [], attrs. split; [done|]. apply not_elem_of_nil.
      * intros (l1 & l2 & H & Hn). destruct l1 as [|[k1 v1] l1]; simpl in *.
        -- by inversion H.
        -- inversion H; subst. exfalso. apply Hn, list_elem_of_here.
    + rewrite IH. split.
      * intros (l1 & l2 & -> & Hn). exists ((k, v0) :: l1), l2.
        split; [done|]. simpl. intros Hin.
        apply elem_of_cons in Hin as [->|Hin]; [done|]. by apply Hn.
      * intros (l1 & l2 & H & Hn). destruct l1 as [|[k1 v1] l1]; simpl in *.
        -- inversion H; subst. done.
        -- inversion H; subst. exists l1, l2. split; [done|].
           intros Hin. apply Hn. by apply list_elem_of_further.
Qed.

Lemma package_pins m pin port attrs ii oi m' attrs' :
  _get_io_buffer m pin port attrs ii oi = Ok (m', attrs') ->
  arg_of Kio "PACKAGE_PIN" <$> io_cells m'
  = (arg_of Kio "PACKAGE_PIN" <$> io_cells m)
    ++ ((fun bit => Some (VBit port bit)) <$> seq 0%nat (sig_width port)).
Proof.
  intros H. destruct (instances_io _ _ _ _ _ _ _ _ H) as (argss & Ha & ->).
  rewrite fmap_app. f_equal.
  apply all_io_args_inv in Ha. unfold io_entries.
  rewrite <- !list_fmap_compose.
  induction Ha as [|bit args bits argss Hb _ IH]; simpl; [done|].
  f_equal; [|exact IH].
  apply io_args_of_base in Hb as [tail ->]. reflexivity.
Qed.

(** The cells that one successful call appends, bit by bit. *)
Lemma get_io_buffer_cells m pin port attrs ii oi m' attrs' :
  _get_io_buffer m pin port attrs ii oi = Ok (m', attrs') ->
  exists cells,
    io_cells m' = io_cells m ++ cells /\
    length cells = sig_width port /\
    forall (bit : nat) (cell : Instance),
      cells !! bit = Some cell ->
      exists args,
        io_args_of pin port (attrs_after attrs) (global_of attrs)
                   (locals_of pin ii oi) bit = Ok args /\
        cell = mkInstance (if global_of attrs then "SB_GB_IO" else "SB_IO") args.
Proof.
  intros H. destruct (instances_io _ _ _ _ _ _ _ _ H) as (argss & Ha & Hc).
  apply all_io_args_inv in Ha.
  exists (snd <$> io_entries pin (global_of attrs) argss). split; [done|]. split.
  - unfold io_entries. rewrite !length_fmap.
    apply Forall2_length in Ha. by rewrite <- Ha, length_seq.
  - intros bit cell Hcell. unfold io_entries in Hcell.
    rewrite <- list_fmap_compose in Hcell.
    apply list_lookup_fmap_Some in Hcell as (args & -> & Hlk).
    destruct (Forall2_lookup_r _ _ _ _ _ Ha Hlk) as (bit' & Hbit & HP).
    apply lookup_seq in Hbit as [-> _]. exists args. done.
Qed.

Lemma valid_xdr_cases (x : Z) :
  x ∈ valid_xdrs_ice40 -> x = 0%Z \/ x = 1%Z \/ x = 2%Z.
Proof.
  unfold valid_xdrs_ice40. intros H.
  repeat (apply elem_of_cons in H as [H|H]); auto. by apply elem_of_nil in H.
Qed.

Lemma io_cells_types m pin port attrs ii oi m' attrs' :
  _get_io_buffer m pin port attrs ii oi = Ok (m', attrs') ->
  exists cells,
    io_cells m' = io_cells m ++ cells /\
    length cells = sig_width port /\
    arg_of Kio "PACKAGE_PIN" <$> cells
    = (fun bit => Some (VBit port bit)) <$> seq 0%nat (sig_width port) /\
    Forall (fun cell => inst_type cell
                        = if global_of attrs then "SB_GB_IO" else "SB_IO") cells.
Proof.
  intros H.
  destruct (get_io_buffer_cells _ _ _ _ _ _ _ _ H) as (cells & Hc & Hlen & Hcell).
  exists cells. split; [done|]. split; [done|]. split.
  - apply package_pins in H. rewrite Hc, fmap_app in H.
    by apply app_inv_head in H.
  - apply Forall_forall. intros cell Hin.
    apply list_elem_of_lookup in Hin as [bit Hbit].
    by destruct (Hcell bit cell Hbit) as (args & _ & ->).
Qed.

(** Reading one connection off every cell of a call. *)
Lemma cells_fmap {B} (f : Instance -> B) (g : nat -> B) (cells : list Instance)
    (n : nat) :
  length cells = n ->
  (forall bit cell, cells !! bit = Some cell -> f cell = g bit) ->
  f <$> cells = g <$> seq 0%nat n.
Proof.
  intros Hlen H. apply list_eq. intros i. rewrite !list_lookup_fmap.
  destruct (cells !! i) as [cell|] eqn:E; simpl.
  - assert (i < n)%nat as Hi by (rewrite <- Hlen; by eapply lookup_lt_Some).
    rewrite lookup_seq_lt by done. simpl. f_equal. by apply H.
  - apply lookup_ge_None in E. rewrite lookup_seq_ge by lia. done.
Qed.

(** Peels the slices [s[bit]] off a successful run of [io_args_of]. *)
Ltac peel_index H :=
  repeat match type of H with
  | context [index ?s ?b] =>
      let E := fresh "Hidx" in
      let v := fresh "v" in
      destruct (index s b) as [v|?] eqn:E; simpl in H;
      [apply index_ok in E as [-> ?] | discriminate H]
  end.

(** C10: [should_skip_port_component] answers [True] exactly when the
    component is "n" and the first (in a dictionary, the only) binding of
    [IO_STANDARD] in the attribute mapping is "SB_LVDS_INPUT" (an absent
    key reads as "SB_LVCMOS", which is another string); and
    [get_diff_input] does not depend on the n port, succeeds for every
    supported data rate on a p port no wider than the pin unless a global
    input is inverted, and places its I/O cells, one per bit, on the bits
    of the p port. *)
Theorem diff_input_p_port_only (port : Signal) (attrs : Attrs)
    (component : string) (pin : Pin) (p_port n_port : Signal) (invert : bool) :
  (should_skip_port_component port attrs component = true <->
   component = "n" /\
   exists l1 l2 : Attrs,
     attrs = l1 ++ ("IO_STANDARD", AStr "SB_LVDS_INPUT") :: l2 /\
     "IO_STANDARD" ∉ l1.*1) /\
  (forall n_port' : Signal,
     get_diff_input pin p_port n_port' attrs invert
     = get_diff_input pin p_port n_port attrs invert) /\
  (pin_xdr pin ∈ valid_xdrs_ice40 -> global_of attrs && invert = false ->
   (sig_width p_port <= pin_width pin)%nat ->
   is_ok (get_diff_input pin p_port n_port attrs invert) = true) /\
  (forall (m : Module) (attrs' : Attrs),
     get_diff_input pin p_port n_port attrs invert = Ok (m, attrs') ->
     arg_of Kio "PACKAGE_PIN" <$> io_cells m
     = (fun bit => Some (VBit p_port bit)) <$> seq 0%nat (sig_width p_port)).
Proof.
  split; [|split; [|split]].
  - unfold should_skip_port_component, attrs_get_default.
    rewrite <- attrs_get_Some.
    destruct (String.eqb_spec component "n") as [->|Hn];
      destruct (attrs_get "IO_STANDARD" attrs) as [v|];
      case_bool_decide; simpl; split; try done; try (by intros []).
    all: try (by intros [_ [= ->]]).
    all: try (by intros _; subst).
  - reflexivity.
  - intros Hx Ha Hw. unfold get_diff_input.
    rewrite (proj2 (check_feature_ok "differential input" pin attrs) Hx). simpl.
    apply get_io_buffer_total; [done| |done]. by destruct invert.
  - intros m attrs' H. apply check_feature_inv in H as [_ H].
    apply package_pins in H. exact H.
Qed.

Lemma diff_input_p_port_only_witness :
  should_skip_port_component (mkSignal "clk100_0__n" 1)
    [("IO_STANDARD", AStr "SB_LVDS_INPUT")] "n" = true /\
  is_ok (get_diff_input (mkPin "clk100_0" 1 Dir_i 0) (mkSignal "clk100_0__p" 1)
           (mkSignal "clk100_0__n" 1) [("IO_STANDARD", AStr "SB_LVDS_INPUT")]
           false) = true /\
  arg_of Kio "PACKAGE_PIN" <$>
    io_cells (mkModule [(Some "clk100_0",
                         mkInstance "SB_IO"
                           [(Kio, "PACKAGE_PIN", VBit (mkSignal "clk100_0__p" 1) 0);
                            (Kp, "IO_STANDARD", VAttr (AStr "SB_LVDS_INPUT"));
                            (Kp, "PIN_TYPE", VInt 1);
                            (Ko, "D_IN_0", VBit (mkSignal "clk100_0__i" 1) 0)])])
  = [Some (VBit (mkSignal "clk100_0__p" 1) 0)].
Proof.
  destruct (diff_input_p_port_only (mkSignal "clk100_0__n" 1)
              [("IO_STANDARD", AStr "SB_LVDS_INPUT")] "n"
              (mkPin "clk100_0" 1 Dir_i 0)
              (mkSignal "clk100_0__p" 1) (mkSignal "clk100_0__n" 1) false)
    as (Hskip & _ & Hok & Hcells).
  split; [|split].
  - apply Hskip. split; [reflexivity|]. exists [], []. split; [reflexivity|].
    apply not_elem_of_nil.
  - apply Hok; [apply list_elem_of_here | reflexivity | simpl; lia].
  - exact (Hcells _ _ eq_refl).
Defined.

(** ** Inversion LUTs *)


Lemma in_luts_none pin : in_luts pin None = [].
Proof. unfold in_luts. by repeat case_match. Qed.

Lemma out_luts_none pin : out_luts pin None = [].
Proof. unfold out_luts. by repeat case_match. Qed.

Lemma lut_entries_init inv a y n :
  lut_init <$> (snd <$> lut_entries inv a y n)
  = replicate n (Some (VInt (if inv then 1 else 2)%Z)).
Proof.
  unfold lut_entries. rewrite <- !list_fmap_compose.
  generalize 0%nat. induction n as [|n IH]; intros start; simpl; [done|].
  f_equal. apply IH.
Qed.

Lemma in_luts_init pin inv :
  lut_init <$> (snd <$> in_luts pin (Some inv))
  = replicate (length (in_luts pin (Some inv)))
              (Some (VInt (if inv then 1 else 2)%Z)).
Proof.
  unfold in_luts. repeat case_match; simpl;
    rewrite ?fmap_app, ?length_app, ?replicate_add, ?lut_entries_init;
    unfold lut_entries; rewrite ?length_fmap, ?length_seq; done.
Qed.

Lemma out_luts_init pin inv :
  lut_init <$> (snd <$> out_luts pin (Some inv))
  = replicate (length (out_luts pin (Some inv)))
              (Some (VInt (if inv then 1 else 2)%Z)).
Proof.
  unfold out_luts. repeat case_match; simpl;
    rewrite ?fmap_app, ?length_app, ?replicate_add, ?lut_entries_init;
    unfold lut_entries; rewrite ?length_fmap, ?length_seq; done.
Qed.

Lemma out_luts_length pin inv :
  length (out_luts pin (Some inv))
  = if has_o pin then
      if (pin_xdr pin <? 2)%Z then pin_width pin
      else if (pin_xdr pin =? 2)%Z then (pin_width pin + pin_width pin)%nat
      else 0%nat
    else 0%nat.
Proof.
  unfold out_luts. repeat case_match; simpl; rewrite ?length_app;
    unfold lut_entries; rewrite ?length_fmap, ?length_seq; done.
Qed.

Lemma luts_true_or_none pin invert :
  Forall (fun v => v = Some (VInt 1))
         (lut_init <$> (snd <$> in_luts pin (true_or_none invert))) /\
  Forall (fun v => v = Some (VInt 1))
         (lut_init <$> (snd <$> out_luts pin (true_or_none invert))).
Proof.
  destruct invert; simpl.
  - rewrite in_luts_init, out_luts_init. split; apply Forall_replicate; done.
  - rewrite in_luts_none, out_luts_none. split; constructor.
Qed.

Lemma single_call_luts pin port attrs ii oi m attrs' :
  _get_io_buffer Module_new pin port attrs ii oi = Ok (m, attrs') ->
  instances_of "SB_LUT4" m = (snd <$> in_luts pin ii) ++ (snd <$> out_luts pin oi).
Proof. intros H. by rewrite (instances_lut _ _ _ _ _ _ _ _ H). Qed.

Lemma single_call_policy pin port attrs invert ii oi m attrs' :
  (ii = None \/ ii = true_or_none invert) ->
  (oi = None \/ oi = true_or_none invert) ->
  _get_io_buffer Module_new pin port attrs ii oi = Ok (m, attrs') ->
  (invert = false -> instances_of "SB_LUT4" m = []) /\
  Forall (fun v => v = Some (VInt 1%Z)) (lut_init <$> instances_of "SB_LUT4" m).
Proof.
  intros Hi Ho H. rewrite (single_call_luts _ _ _ _ _ _ _ H). split.
  - intros ->. simpl in Hi, Ho.
    assert (ii = None) as -> by (by destruct Hi).
    assert (oi = None) as -> by (by destruct Ho).
    by rewrite in_luts_none, out_luts_none.
  - rewrite fmap_app, Forall_app.
    destruct (luts_true_or_none pin invert) as [Hin Hout].
    split.
    + destruct Hi as [->| ->]; [rewrite in_luts_none; constructor | exact Hin].
    + destruct Ho as [->| ->]; [rewrite out_luts_none; constructor | exact Hout].
Qed.

Lemma lut_entries_pins inv a y n :
  lut_pins <$> (snd <$> lut_entries inv a y n)
  = (fun bit => (Some (VInt (if inv then 1 else 2)%Z), Some (VBit a bit),
                 Some (VConst 0%Z), Some (VConst 0%Z), Some (VConst 0%Z),
                 Some (VBit y bit))) <$> seq 0%nat n.
Proof.
  unfold lut_entries. rewrite <- !list_fmap_compose.
  generalize 0%nat. induction n as [|n IH]; intros start; simpl; [done|].
  f_equal; auto.
Qed.

Lemma out_luts_pins pin inv :
  lut_pins <$> (snd <$> out_luts pin (Some inv))
  = flat_map (fun a =>
                (fun bit => (Some (VInt (if inv then 1 else 2)%Z), Some (VBit a bit),
                             Some (VConst 0%Z), Some (VConst 0%Z), Some (VConst 0%Z),
                             Some (VBit (xor_sig a (Some inv)) bit)))
                  <$> seq 0%nat (sig_width a))
             (out_signals pin).
Proof.
  unfold out_luts, out_signals, oxor_entries.
  repeat case_match; simpl; rewrite ?fmap_app, ?lut_entries_pins, ?app_nil_r; done.
Qed.

Lemma in_luts_pins pin inv :
  lut_pins <$> (snd <$> in_luts pin (Some inv))
  = flat_map (fun y =>
                (fun bit => (Some (VInt (if inv then 1 else 2)%Z),
                             Some (VBit (xor_sig y (Some inv)) bit),
                             Some (VConst 0%Z), Some (VConst 0%Z), Some (VConst 0%Z),
                             Some (VBit y bit)))
                  <$> seq 0%nat (sig_width y))
             (in_signals pin).
Proof.
  unfold in_luts, in_signals, ixor_entries.
  repeat case_match; simpl; rewrite ?fmap_app, ?lut_entries_pins, ?app_nil_r; done.
Qed.

(** What drives [D_OUT_0] of the cells of one call. *)
Lemma io_args_d_out_0 pin port attrs gl ii oi bit args ty :
  pin_xdr pin ∈ valid_xdrs_ice40 ->
  has_o pin = true ->
  io_args_of pin port attrs gl (locals_of pin ii oi) bit = Ok args ->
  arg_of Ki "D_OUT_0" (mkInstance ty args)
  = Some (VBit (xor_sig (if (pin_xdr pin <? 2)%Z then pin_o pin else pin_o0 pin) oi)
               bit).
Proof.
  intros Hx. unfold io_args_of, locals_of, pin_has_i_clk, pin_has_o_clk, o_type_of,
    i_type_of, has_i, has_o.
  apply valid_xdr_cases in Hx as [Hx|[Hx|Hx]]; rewrite Hx;
    destruct (pin_dir pin) eqn:Hd, gl; simpl; intros Ho Hargs;
    try discriminate Ho; peel_index Hargs; inversion Hargs; subst; clear Hargs;
    to_cell_base port attrs bit; rewrite !arg_of_base by congruence; reflexivity.
Qed.

Lemma get_io_buffer_d_out_0 m pin port attrs ii oi m' attrs' :
  pin_xdr pin ∈ valid_xdrs_ice40 ->
  _get_io_buffer m pin port attrs ii oi = Ok (m', attrs') ->
  exists cells,
    io_cells m' = io_cells m ++ cells /\
    arg_of Kio "PACKAGE_PIN" <$> cells
    = (fun bit => Some (VBit port bit)) <$> seq 0%nat (sig_width port) /\
    (has_o pin = true ->
     arg_of Ki "D_OUT_0" <$> cells
     = (fun bit =>
          Some (VBit (xor_sig (if (pin_xdr pin <? 2)%Z then pin_o pin
                               else pin_o0 pin) oi) bit))
         <$> seq 0%nat (sig_width port)).
Proof.
  intros Hx H.
  destruct (get_io_buffer_cells _ _ _ _ _ _ _ _ H) as (cells & Hc & Hlen & Hcell).
  destruct (io_cells_types _ _ _ _ _ _ _ _ H) as (cells' & Hc' & _ & Hp & _).
  assert (cells' = cells) as -> by (rewrite Hc in Hc'; by apply app_inv_head in Hc').
  exists cells. split; [done|]. split; [done|]. intros Ho.
  apply cells_fmap; [done|]. intros bit cell Hbit.
  destruct (Hcell bit cell Hbit) as (args & Hargs & ->).
  by eapply io_args_d_out_0.
Qed.

(** C8 (as the code has it): the single-ended operations and
    [get_diff_input] insert SB_LUT4 cells only when inversion is requested,
    and then only inverting ones.  [get_diff_output] always inserts one
    SB_LUT4 per bit of each output data signal on each of its two paths:
    the LUTs of the p path come first, read the bits of the pin's own data
    signals on [I0] (with [I1], [I2], [I3] tied to 0), drive the bits of
    the [_x1] (inverting, LUT_INIT 0b01) or [_x0] (pass-through, LUT_INIT
    0b10) copy, and are inverting exactly when [invert] is set; the LUTs of
    the n path are the opposite.  The cells on the bits of the p port read
    their [D_OUT_0] from the output of the p path's LUTs, the cells on the
    bits of the n port from that of the n path's. *)
Theorem inversion_lut_policy (op : BinderOp) (pin : Pin) (p_port n_port : Signal)
    (attrs : Attrs) (invert : bool) (m : Module) (attrs' : Attrs) :
  run_op op pin p_port n_port attrs invert = Ok (m, attrs') ->
  let inits := lut_init <$> instances_of "SB_LUT4" m in
  match op with
  | OpDiffOutput =>
      let k := if has_o pin
               then if (pin_xdr pin <? 2)%Z then pin_width pin
                    else (pin_width pin + pin_width pin)%nat
               else 0%nat in
      let x := fun (s : Signal) (inv : bool) =>
        mkSignal (sig_name s +:+ "_x" +:+ (if inv then "1" else "0"))
                 (sig_width s) in
      let path := fun inv : bool =>
        flat_map (fun a =>
                    (fun bit => (Some (VInt (if inv then 1 else 2)%Z),
                                 Some (VBit a bit),
                                 Some (VConst 0%Z), Some (VConst 0%Z),
                                 Some (VConst 0%Z),
                                 Some (VBit (x a inv) bit)))
                      <$> seq 0%nat (sig_width a))
                 (if has_o pin
                  then if (pin_xdr pin <? 2)%Z then [pin_o pin]
                       else [pin_o0 pin; pin_o1 pin]
                  else []) in
      let o0 := if (pin_xdr pin <? 2)%Z then pin_o pin else pin_o0 pin in
      inits = replicate k (Some (VInt (if invert then 1 else 2)%Z))
              ++ replicate k (Some (VInt (if invert then 2 else 1)%Z)) /\
      exists p_luts n_luts p_cells n_cells : list Instance,
        instances_of "SB_LUT4" m = p_luts ++ n_luts /\
        lut_pins <$> p_luts = path invert /\
        lut_pins <$> n_luts = path (negb invert) /\
        io_cells m = p_cells ++ n_cells /\
        arg_of Kio "PACKAGE_PIN" <$> p_cells
        = (fun bit => Some (VBit p_port bit)) <$> seq 0%nat (sig_width p_port) /\
        arg_of Kio "PACKAGE_PIN" <$> n_cells
        = (fun bit => Some (VBit n_port bit)) <$> seq 0%nat (sig_width n_port) /\
        (has_o pin = true ->
         arg_of Ki "D_OUT_0" <$> p_cells
         = (fun bit => Some (VBit (x o0 invert) bit))
             <$> seq 0%nat (sig_width p_port) /\
         arg_of Ki "D_OUT_0" <$> n_cells
         = (fun bit => Some (VBit (x o0 (negb invert)) bit))
             <$> seq 0%nat (sig_width n_port))
  | _ =>
      (invert = false -> instances_of "SB_LUT4" m = []) /\
      Forall (fun v => v = Some (VInt 1%Z)) inits
  end.
Proof.
  intros H. simpl.
  destruct op; simpl in H; apply check_feature_inv in H as [Hx H];
    try (eapply single_call_policy; [| |exact H]; auto).
  apply rbind_ok in H as ([m1 attrs1] & H1 & H2).
  assert ((pin_xdr pin <? 2)%Z = false -> (pin_xdr pin =? 2)%Z = true) as Hx2.
  { apply valid_xdr_cases in Hx as [Hx|[Hx|Hx]]; rewrite Hx; done. }
  assert (Hsrc : (if has_o pin
                  then if (pin_xdr pin <? 2)%Z then [pin_o pin]
                       else [pin_o0 pin; pin_o1 pin]
                  else []) = out_signals pin).
  { unfold out_signals. destruct (has_o pin); [|done].
    destruct (pin_xdr pin <? 2)%Z; [done|]. by rewrite Hx2. }
  rewrite Hsrc.
  pose proof (instances_lut _ _ _ _ _ _ _ _ H2) as Hl2.
  pose proof (single_call_luts _ _ _ _ _ _ _ H1) as Hl1.
  rewrite Hl1, !in_luts_none in Hl2. simpl in Hl2. rewrite ?app_nil_r in Hl2.
  split.
  { rewrite Hl2, fmap_app, !out_luts_init, !out_luts_length.
    destruct (has_o pin); [|done].
    destruct (pin_xdr pin <? 2)%Z; [by destruct invert|].
    rewrite Hx2 by done. by destruct invert. }
  destruct (get_io_buffer_d_out_0 _ _ _ _ _ _ _ _ Hx H1) as (pc & Hc1 & Hp1 & Hd1).
  destruct (get_io_buffer_d_out_0 _ _ _ _ _ _ _ _ Hx H2) as (nc & Hc2 & Hp2 & Hd2).
  exists (snd <$> out_luts pin (Some invert)),
         (snd <$> out_luts pin (Some (negb invert))), pc, nc.
  split; [exact Hl2|].
  split; [apply out_luts_pins|].
  split; [apply out_luts_pins|].
  split; [by rewrite Hc2, Hc1|].
  split; [exact Hp1|]. split; [exact Hp2|].
  intros Ho. split; [exact (Hd1 Ho) | exact (Hd2 Ho)].
Qed.

Lemma inversion_lut_policy_witness :
  exists m attrs',
    run_op OpDiffOutput (mkPin "c" 2 Dir_o 0) (mkSignal "c__p" 2)
           (mkSignal "c__n" 2) [] false = Ok (m, attrs') /\
    lut_pins <$> instances_of "SB_LUT4" m
    = [ (Some (VInt 2), Some (VBit (mkSignal "c__o" 2) 0), Some (VConst 0),
         Some (VConst 0), Some (VConst 0), Some (VBit (mkSignal "c__o_x0" 2) 0));
        (Some (VInt 2), Some (VBit (mkSignal "c__o" 2) 1), Some (VConst 0),
         Some (VConst 0), Some (VConst 0), Some (VBit (mkSignal "c__o_x0" 2) 1));
        (Some (VInt 1), Some (VBit (mkSignal "c__o" 2) 0), Some (VConst 0),
         Some (VConst 0), Some (VConst 0), Some (VBit (mkSignal "c__o_x1" 2) 0));
        (Some (VInt 1), Some (VBit (mkSignal "c__o" 2) 1), Some (VConst 0),
         Some (VConst 0), Some (VConst 0), Some (VBit (mkSignal "c__o_x1" 2) 1)) ] /\
    (arg_of Kio "PACKAGE_PIN" <$> io_cells m,
     arg_of Ki "D_OUT_0" <$> io_cells m)
    = ([ Some (VBit (mkSignal "c__p" 2) 0); Some (VBit (mkSignal "c__p" 2) 1);
         Some (VBit (mkSignal "c__n" 2) 0); Some (VBit (mkSignal "c__n" 2) 1) ],
       [ Some (VBit (mkSignal "c__o_x0" 2) 0); Some (VBit (mkSignal "c__o_x0" 2) 1);
         Some (VBit (mkSignal "c__o_x1" 2) 0); Some (VBit (mkSignal "c__o_x1" 2) 1) ]).
Proof.
  eexists _, _. split; [reflexivity|].
  destruct (inversion_lut_policy OpDiffOutput (mkPin "c" 2 Dir_o 0)
              (mkSignal "c__p" 2) (mkSignal "c__n" 2) [] false _ _ eq_refl)
    as (_ & pl & nl & pc & nc & Hl & Hpl & Hnl & Hc & Hpp & Hnp & Hd).
  destruct (Hd eq_refl) as [Hdp Hdn].
  split.
  - rewrite Hl, fmap_app, Hpl, Hnl. reflexivity.
  - rewrite Hc, !fmap_app, Hpp, Hnp, Hdp, Hdn. reflexivity.
Defined.

(** C8, as stated, fails: [get_diff_output] with [invert] false
    instantiates SB_LUT4 cells, one of them inverting. *)
Lemma inversion_lut_counterexample :
  ~ (forall (op : BinderOp) (pin : Pin) (p_port n_port : Signal) (attrs : Attrs)
            (m : Module) (attrs' : Attrs),
       run_op op pin p_port n_port attrs false = Ok (m, attrs') ->
       instances_of "SB_LUT4" m = []).
Proof.
  intros H.
  specialize (H OpDiffOutput (mkPin "c" 1 Dir_o 0) (mkSignal "c__p" 1)
                (mkSignal "c__n" 1) [] _ _ eq_refl).
  discriminate H.
Qed.

(** ** Global inputs and inversion *)

Lemma io_args_of_err pin port attrs gl ls bit e :
  io_args_of pin port attrs gl ls bit = Err e ->
  e = UnboundLocalError \/ e = BitIndexError.
Proof.
  unfold io_args_of, local, index. intros H.
  repeat (case_match; simpl in *; try discriminate); inversion H; auto.
Qed.

Lemma all_io_args_err pin port attrs gl ls bits e :
  all_io_args pin port attrs gl ls bits = Err e ->
  e = UnboundLocalError \/ e = BitIndexError.
Proof.
  induction bits as [|bit bits IH]; simpl; [discriminate|].
  destruct (io_args_of pin port attrs gl ls bit) as [args|e'] eqn:Ha; simpl.
  - destruct (all_io_args pin port attrs gl ls bits) as [rest|e'']; simpl;
      [discriminate|]. intros H. inversion H; subst. by apply IH.
  - intros H. inversion H; subst. by eapply io_args_of_err.
Qed.

Lemma global_of_true attrs :
  global_of attrs = true <->
  exists v, attrs_get "GLOBAL" attrs = Some v /\ truthy v = true.
Proof.
  unfold global_of, attrs_mem, attrs_get_default.
  destruct (attrs_get "GLOBAL" attrs) as [v|]; case_bool_decide as Hs.
  - split; [eauto|]. intros (v' & Hv & Ht). by inversion Hv; subst.
  - destruct Hs. eauto.
  - by destruct Hs.
  - split; [done|]. intros (v' & Hv & _). done.
Qed.

(** [bool(v)] *)
Lemma truthy_true v :
  truthy v = true <->
  match v with
  | ABool b => b = true
  | AInt z => z <> 0%Z
  | AStr s => s <> ""
  end.
Proof.
  destruct v as [s|z|b]; simpl; [| |done].
  - rewrite negb_true_iff. apply String.eqb_neq.
  - rewrite negb_true_iff. apply Z.eqb_neq.
Qed.

Lemma global_of_first attrs :
  global_of attrs = true <->
  exists (l1 : Attrs) (v : AttrVal) (l2 : Attrs),
    attrs = l1 ++ ("GLOBAL", v) :: l2 /\ ("GLOBAL" ∉ l1.*1) /\
    match v with
    | ABool b => b = true
    | AInt z => z <> 0%Z
    | AStr s => s <> ""
    end.
Proof.
  rewrite global_of_true. split.
  - intros (v & Hg & Ht). apply attrs_get_Some in Hg as (l1 & l2 & Ha & Hn).
    exists l1, v, l2. split; [done|]. split; [done|]. by apply truthy_true.
  - intros (l1 & v & l2 & Ha & Hn & Ht). exists v. split.
    + apply attrs_get_Some. eauto.
    + by apply truthy_true.
Qed.

(** C9: with the GLOBAL attribute set and an explicit input inversion,
    nothing is instantiated.  For [i_invert] as the binder's operations
    pass it ([True if invert else None]), [_get_io_buffer] fails its
    assertion exactly when the attribute mapping binds GLOBAL to a truthy
    value and [i_invert] is not [None]; and then every operation that
    inverts an input ([get_input], [get_input_output], [get_diff_input]
    with [invert] set) returns no module. *)
Theorem global_input_inversion_rejected (m : Module) (pin : Pin) (port : Signal)
    (attrs : Attrs) (i_invert o_invert : option bool) (invert : bool) :
  i_invert = (if invert then Some true else None) ->
  let global_set :=
    exists (l1 : Attrs) (v : AttrVal) (l2 : Attrs),
      attrs = l1 ++ ("GLOBAL", v) :: l2 /\ ("GLOBAL" ∉ l1.*1) /\
      match v with
      | ABool b => b = true
      | AInt z => z <> 0%Z
      | AStr s => s <> ""
      end in
  (_get_io_buffer m pin port attrs i_invert o_invert = Err AssertionError <->
   global_set /\ i_invert <> None) /\
  (global_set -> i_invert <> None ->
   forall (op : BinderOp) (n_port : Signal),
     op ∈ [OpInput; OpInputOutput; OpDiffInput] ->
     is_ok (run_op op pin port n_port attrs invert) = false).
Proof.
  intros Hi global_set. subst global_set. rewrite <- global_of_first.
  split.
  - rewrite get_io_buffer_eq.
    assert (forall k : list (list Arg) -> Module * Attrs,
              (let! argss := all_io_args pin port (attrs_after attrs)
                               (global_of attrs)
                               (locals_of pin i_invert o_invert)
                               (seq 0%nat (sig_width port)) in
               Ok (k argss)) <> Err AssertionError) as Hloop.
    { intros k H.
      destruct (all_io_args _ _ _ _ _ _) as [argss|e] eqn:Ha; simpl in H;
        [discriminate|].
      inversion H; subst. by apply all_io_args_err in Ha as [Ha|Ha]. }
    destruct (global_of attrs); simpl.
    + subst i_invert. destruct invert; simpl.
      * split; [done|]. by intros _.
      * split; [|intros [_ ?]; done]. intros H. by apply Hloop in H.
    + split; [|intros [? _]; done]. intros H. by apply Hloop in H.
  - intros Hg Hn op n_port Hop.
    assert (invert = true) as -> by (destruct invert; [done | by subst]).
    assert (forall m0 oi, _get_io_buffer m0 pin port attrs (Some true) oi
                          = Err AssertionError) as Hrej.
    { intros m0 oi. by rewrite get_io_buffer_eq, Hg. }
    repeat (apply elem_of_cons in Hop as [->|Hop]);
      [| | |by apply elem_of_nil in Hop]; simpl;
      unfold get_input, get_input_output, get_diff_input; simpl;
      destruct (_check_feature _ pin attrs valid_xdrs_ice40 true); simpl;
      by rewrite ?Hrej.
Qed.

Lemma global_input_inversion_rejected_witness :
  (if true then Some true else None) = Some true /\
  get_input (mkPin "clk" 1 Dir_i 0) (mkSignal "clk__io" 1)
            [("GLOBAL", AStr "1")] true
  = Err AssertionError /\
  is_ok (run_op OpDiffInput (mkPin "clk" 1 Dir_i 0) (mkSignal "clk__io" 1)
                (mkSignal "clk__n" 1) [("GLOBAL", AStr "1")] true) = false.
Proof.
  assert (Hg : exists (l1 : Attrs) (v : AttrVal) (l2 : Attrs),
             [("GLOBAL", AStr "1")] = l1 ++ ("GLOBAL", v) :: l2 /\
             ("GLOBAL" ∉ l1.*1) /\
             match v with
             | ABool b => b = true
             | AInt z => z <> 0%Z
             | AStr s => s <> ""
             end).
  { exists [], (AStr "1"), []. split; [reflexivity|].
    split; [apply not_elem_of_nil | discriminate]. }
  assert (Hn : Some true <> (None : option bool)) by discriminate.
  destruct (global_input_inversion_rejected Module_new
              (mkPin "clk" 1 Dir_i 0) (mkSignal "clk__io" 1)
              [("GLOBAL", AStr "1")] (Some true) None true eq_refl)
    as [Hrej Hops].
  split; [reflexivity|]. split.
  - apply (proj2 Hrej). split; [exact Hg | exact Hn].
  - apply (Hops Hg Hn).
    apply list_elem_of_further, list_elem_of_further, list_elem_of_here.
Defined.
(** ** The resolver: what holds across a request *)

Section ResolveRel.
Variable R : list (string * Group) -> Session -> Session -> Prop.
Hypothesis R_nil : forall s, R [] s s.
Hypothesis R_app : forall l1 l2 s1 s2 s3,
  R l1 s1 s2 -> R l2 s2 s3 -> R (l1 ++ l2) s1 s3.
Hypothesis R_leaf : forall s g dir xdr c v s',
  resolve_leaf s g dir xdr c = Ok (v, s') -> R [(c, g)] s s'.

Lemma resolve_subs_rel dir xdr c subs :
  Forall (fun nb : string * Body =>
            forall s dir xdr c v s',
              resolve s (snd nb) dir xdr c = Ok (v, s') ->
              R (leaves (snd nb) c) s s') subs ->
  forall s fields s',
    resolve_subs resolve dir xdr c s subs = Ok (fields, s') ->
    R (leaves (Node subs) c) s s'.
Proof.
  induction 1 as [|[name b] subs Hb _ IH]; intros s fields s' H; simpl in *.
  - inversion H; subst. apply R_nil.
  - apply rbind_ok in H as ([v s1] & H1 & H).
    apply rbind_ok in H as ([vs s2] & H2 & H). inversion H; subst.
    eapply R_app; [eapply Hb; exact H1 | eapply IH; exact H2].
Qed.

Lemma resolve_rel b :
  forall s dir xdr c v s',
    resolve s b dir xdr c = Ok (v, s') -> R (leaves b c) s s'.
Proof.
  induction b as [g|subs IH] using Body_induction;
    intros s dir xdr c v s' H.
  - simpl in *. eapply R_leaf; exact H.
  - assert (exists fields, resolve_subs resolve dir xdr c s subs = Ok (fields, s'))
      as [fields Hs].
    { simpl in H. destruct dir, xdr; try discriminate;
        apply rbind_ok in H as ([fields s1] & Hs & H); inversion H; subst; eauto. }
    eapply resolve_subs_rel; [exact IH | exact Hs].
Qed.
End ResolveRel.

Lemma claim_all_effect s c pins s' :
  claim_all s c pins = Ok s' ->
  resources s' = resources s /\ connectors s' = connectors s /\
  requested s' = requested s /\ ports s' = ports s /\ clocks s' = clocks s /\
  phys_reqd s ⊆ phys_reqd s' /\
  NoDup pins /\
  (forall pin, pin ∈ pins -> phys_reqd s !! pin = None) /\
  (forall pin, pin ∈ pins -> phys_reqd s' !! pin = Some c) /\
  (forall pin, pin ∉ pins -> phys_reqd s' !! pin = phys_reqd s !! pin).
Proof.
  revert s. induction pins as [|pin pins IH]; intros s H; simpl in H.
  - inversion H; subst. split_and!; try done.
    + constructor.
    + intros pin Hp. by apply elem_of_nil in Hp.
    + intros pin Hp. by apply elem_of_nil in Hp.
  - apply rbind_ok in H as (s1 & H1 & H).
    unfold claim in H1. destruct (phys_reqd s !! pin) as [prior|] eqn:Hfree;
      [discriminate|]. inversion H1; subst. clear H1.
    apply IH in H as (Hr & Hc & Hq & Hp & Hk & Hsub & Hnd & Hnone & Hsome & Hother).
    simpl in *.
    assert (pin ∉ pins) as Hnotin.
    { intros Hin. apply Hnone in Hin. by rewrite lookup_insert_eq in Hin. }
    split_and!; try done.
    + etrans; [|exact Hsub]. by apply insert_subseteq.
    + by constructor.
    + intros p Hin. apply elem_of_cons in Hin as [->|Hin]; [done|].
      apply Hnone in Hin. destruct (decide (pin = p)) as [->|Hne];
        [by rewrite lookup_insert_eq in Hin | by rewrite lookup_insert_ne in Hin].
    + intros p Hin. apply elem_of_cons in Hin as [->|Hin]; [|by apply Hsome].
      rewrite Hother by done. apply lookup_insert_eq.
    + intros p Hin. apply not_elem_of_cons in Hin as [Hne Hin].
      rewrite Hother by done. by apply lookup_insert_ne.
Qed.

Lemma add_clock_port_effect s port f s' :
  add_clock_port s port f = Ok s' ->
  resources s' = resources s /\ connectors s' = connectors s /\
  requested s' = requested s /\ ports s' = ports s /\
  phys_reqd s' = phys_reqd s /\
  clock_of s port = None /\ clocks s' = clocks s ++ [(port, f)].
Proof.
  unfold add_clock_port. destruct (clock_of s port) eqn:Hc; [discriminate|].
  intros H. inversion H; subst. by split_and!.
Qed.

Lemma resolve_effect_nil s : resolve_effect [] s s.
Proof.
  unfold resolve_effect. split_and!; try done. exists [].
  rewrite app_nil_r. simpl. split_and!; try done.
  - constructor.
  - intros pin Hp. by apply elem_of_nil in Hp.
Qed.

Lemma flat_map_app' {A B} (f : A -> list B) (l1 l2 : list A) :
  flat_map f (l1 ++ l2) = flat_map f l1 ++ flat_map f l2.
Proof. induction l1; simpl; [done|]. by rewrite IHl1, app_assoc. Qed.

Lemma elem_of_flat_map {A B} (f : A -> list B) (l : list A) (y : B) :
  y ∈ flat_map f l <-> exists x, x ∈ l /\ y ∈ f x.
Proof.
  rewrite list_elem_of_In, in_flat_map. split; intros (x & Hx & Hy); exists x.
  - by rewrite !list_elem_of_In.
  - by rewrite <- !list_elem_of_In.
Qed.

Lemma resolve_effect_app l1 l2 s1 s2 s3 :
  resolve_effect l1 s1 s2 -> resolve_effect l2 s2 s3 ->
  resolve_effect (l1 ++ l2) s1 s3.
Proof.
  intros (Hr1 & Hc1 & Hq1 & Hsub1 & e1 & Hp1 & HF1 & Hnd1 & Hnone1 & Hoth1)
         (Hr2 & Hc2 & Hq2 & Hsub2 & e2 & Hp2 & HF2 & Hnd2 & Hnone2 & Hoth2).
  assert (forall pin, pin ∈ flat_map entry_pins e1 -> is_Some (phys_reqd s2 !! pin))
    as Hsome1.
  { intros pin Hin. apply elem_of_flat_map in Hin as (e & He & Hin).
    apply list_elem_of_lookup in He as [i Hi].
    destruct (Forall2_lookup_r _ _ _ _ _ HF1 Hi) as (cg & _ & _ & Hown).
    rewrite (Hown pin Hin). eauto. }
  unfold resolve_effect. split_and!; try congruence.
  - by etrans.
  - exists (e1 ++ e2). split_and!.
    + by rewrite Hp2, Hp1, app_assoc.
    + apply Forall2_app.
      * eapply Forall2_impl; [exact HF1|]. intros cg e [He Hown]. split; [done|].
        intros pin Hin. eapply lookup_weaken; [by apply Hown | done].
      * eapply Forall2_impl; [exact HF2|]. intros cg e [He Hown]. split; [|done].
        by rewrite <- Hc1.
    + rewrite flat_map_app'. apply NoDup_app. split_and!; try done.
      intros pin Hin1 Hin2. apply Hsome1 in Hin1 as [o Ho].
      apply Hnone2 in Hin2. congruence.
    + intros pin Hin. rewrite flat_map_app' in Hin.
      apply elem_of_app in Hin as [Hin|Hin]; [by apply Hnone1|].
      apply Hnone2 in Hin. eapply lookup_weaken_None; done.
    + intros pin Hin. rewrite flat_map_app' in Hin.
      apply not_elem_of_app in Hin as [Hin1 Hin2].
      rewrite Hoth2 by done. by apply Hoth1.
Qed.

Lemma resolve_effect_leaf s g dir xdr c v s' :
  resolve_leaf s g dir xdr c = Ok (v, s') -> resolve_effect [(c, g)] s s'.
Proof.
  unfold resolve_leaf. intros H.
  apply rbind_ok in H as (new_ports & Hports & H).
  apply rbind_ok in H as (s1 & Hclaim & H).
  apply rbind_ok in H as (ov & Hov & H).
  apply rbind_ok in H as (x & Hx & H).
  apply rbind_ok in H as (s2 & Hclk & H). inversion H; subst. clear H.
  apply claim_all_effect in Hclaim
    as (Hr & Hc & Hq & Hp & Hk & Hsub & Hnd & Hnone & Hsome & Hother).
  assert (resources s2 = resources s1 /\ connectors s2 = connectors s1 /\
          requested s2 = requested s1 /\ ports s2 = ports s1 /\
          phys_reqd s2 = phys_reqd s1) as (Hr2 & Hc2 & Hq2 & Hp2 & Hphys2).
  { destruct (g_clock g) as [f|]; [destruct new_ports as [|port rest]|];
      try (inversion Hclk; subst; done).
    apply add_clock_port_effect in Hclk as (? & ? & ? & ? & ? & _). done. }
  unfold resolve_effect. simpl.
  split_and!; simpl; [congruence | congruence | congruence | by rewrite Hphys2 |].
  exists [mkEntry g (match ov with
                     | OvDir d => Some (mkPin c (group_width g) d x)
                     | OvRaw => None
                     end) new_ports (g_attrs g)].
  unfold entry_pins. simpl. rewrite !app_nil_r.
  split_and!; simpl; try congruence.
  - constructor; [|constructor]. split.
    + unfold entry_of. split_and!; simpl; try done. destruct ov; eauto.
    + simpl. intros pin Hin. rewrite Hphys2. by apply Hsome.
  - exact Hnone.
  - intros pin Hin. rewrite Hphys2. by apply Hother.
Qed.

(** What one request does to the session. *)
Lemma resolve_effect_resolve b s dir xdr c v s' :
  resolve s b dir xdr c = Ok (v, s') -> resolve_effect (leaves b c) s s'.
Proof.
  apply (resolve_rel resolve_effect resolve_effect_nil resolve_effect_app
                     resolve_effect_leaf).
Qed.

Lemma request_inv s name number dir xdr v s' :
  request s name number dir xdr = Ok (v, s') ->
  exists r s1,
    resources s !! (name, number) = Some r /\
    ((name, number) ∉ requested s) /\
    resolve s (res_body r) dir xdr (component_name name number) = Ok (v, s1) /\
    s' = set_requested s1 ({[ (name, number) ]} ∪ requested s1).
Proof.
  unfold request, lookup. intros H.
  destruct (resources s !! (name, number)) as [r|] eqn:Hr; [|discriminate].
  simpl in H. case_bool_decide as Hq; [discriminate|].
  apply rbind_ok in H as ([v1 s1] & Hres & H). inversion H; subst.
  exists r, s1. done.
Qed.

Lemma add_resources_effect s rs s' :
  add_resources s rs = Ok s' ->
  resources s ⊆ resources s' /\ connectors s' = connectors s /\
  requested s' = requested s /\ phys_reqd s' = phys_reqd s /\
  ports s' = ports s /\ clocks s' = clocks s.
Proof.
  revert s. induction rs as [|r rs IH]; intros s H; simpl in H.
  - by inversion H; subst.
  - destruct (resources s !! (res_name r, res_number r)) eqn:Hfree; [discriminate|].
    apply IH in H as (Hsub & ? & ? & ? & ? & ?). simpl in *.
    split_and!; try done. etrans; [|exact Hsub]. by apply insert_subseteq.
Qed.

Lemma add_connectors_effect s cs s' :
  add_connectors s cs = Ok s' ->
  resources s' = resources s /\ connectors s ⊆ connectors s' /\
  requested s' = requested s /\ phys_reqd s' = phys_reqd s /\
  ports s' = ports s /\ clocks s' = clocks s.
Proof.
  revert s. induction cs as [|c cs IH]; intros s H; simpl in H.
  - by inversion H; subst.
  - destruct (connectors s !! (conn_name c, conn_number c)) eqn:Hfree; [discriminate|].
    apply IH in H as (? & Hsub & ? & ? & ? & ?). simpl in *.
    split_and!; try done. etrans; [|exact Hsub]. by apply insert_subseteq.
Qed.

Lemma add_clock_constraint_effect s target f s' :
  add_clock_constraint s target f = Ok s' ->
  exists port hz,
    f = Hz hz /\ resolve_target s target = Some port /\
    clock_of s port = None /\
    resources s' = resources s /\ connectors s' = connectors s /\
    requested s' = requested s /\ phys_reqd s' = phys_reqd s /\
    ports s' = ports s /\ clocks s' = clocks s ++ [(port, hz)].
Proof.
  unfold add_clock_constraint. intros H.
  destruct target; try discriminate; destruct f as [hz|]; try discriminate;
    (match type of H with
     | context [resolve_target ?s ?t] =>
         destruct (resolve_target s t) as [port|] eqn:Ht; [|discriminate]
     end);
    apply add_clock_port_effect in H as (? & ? & ? & ? & ? & ? & ?);
    exists port, hz; split_and!; done.
Qed.

(** What a session keeps across any successful operation. *)
Lemma session_step_keeps s s' :
  session_step s s' ->
  resources s ⊆ resources s' /\ requested s ⊆ requested s' /\
  phys_reqd s ⊆ phys_reqd s' /\ (exists new, ports s' = ports s ++ new).
Proof.
  destruct 1 as [s name number dir xdr v s' H|s target f s' H|s rs s' H|s cs s' H].
  - apply request_inv in H as (r & s1 & Hr & Hq & Hres & ->).
    apply resolve_effect_resolve in Hres
      as (Hr1 & Hc1 & Hq1 & Hsub & entries & Hp & _).
    simpl. split_and!; [by rewrite Hr1 | rewrite Hq1; apply union_subseteq_r | done | eauto].
  - apply add_clock_constraint_effect in H
      as (port & hz & _ & _ & _ & Hr & _ & Hq & Hphys & Hp & _).
    rewrite Hr, Hq, Hphys, Hp. split_and!; try done. exists []. by rewrite app_nil_r.
  - apply add_resources_effect in H as (Hr & _ & Hq & Hphys & Hp & _).
    rewrite Hq, Hphys, Hp. split_and!; try done. exists []. by rewrite app_nil_r.
  - apply add_connectors_effect in H as (Hr & _ & Hq & Hphys & Hp & _).
    rewrite Hr, Hq, Hphys, Hp. split_and!; try done. exists []. by rewrite app_nil_r.
Qed.

Lemma session_steps_keeps s s' :
  session_steps s s' ->
  resources s ⊆ resources s' /\ requested s ⊆ requested s' /\
  phys_reqd s ⊆ phys_reqd s' /\ (exists new, ports s' = ports s ++ new).
Proof.
  induction 1 as [s|s1 s2 s3 Hstep _ (Hr & Hq & Hphys & new2 & Hp)].
  - split_and!; try done. exists []. by rewrite app_nil_r.
  - apply session_step_keeps in Hstep as (Hr1 & Hq1 & Hphys1 & new1 & Hp1).
    split_and!; try (etrans; done).
    exists (new1 ++ new2). by rewrite Hp, Hp1, app_assoc.
Qed.

(** ** Identity errors *)

(** C2: a request for an identity that is not in the database fails with
    "does not exist"; and once a request for (name, number) has succeeded,
    every later request for the same identity in the session fails with
    "has already been requested". *)
Theorem request_identity_errors (s : Session) (name : string) (number : nat)
    (dir : DirArg) (xdr : XdrArg) :
  (resources s !! (name, number) = None ->
   request s name number dir xdr
   = Err (ResourceError_DoesNotExist name number)) /\
  (forall (v : Bound) (s1 s2 : Session) (dir' : DirArg) (xdr' : XdrArg),
     request s name number dir xdr = Ok (v, s1) ->
     session_steps s1 s2 ->
     request s2 name number dir' xdr'
     = Err (ResourceError_AlreadyRequested name number)).
Proof.
  split.
  - intros Hnone. unfold request, lookup. by rewrite Hnone.
  - intros v s1 s2 dir' xdr' H Hsteps.
    apply request_inv in H as (r & s0 & Hr & _ & Hres & ->).
    apply resolve_effect_resolve in Hres as (Hr0 & _ & _).
    apply session_steps_keeps in Hsteps as (Hrs & Hqs & _). simpl in *.
    unfold request, lookup.
    rewrite (lookup_weaken _ _ _ _ (eq_trans (f_equal (.!! (name, number)) Hr0) Hr) Hrs).
    simpl. rewrite bool_decide_eq_true_2; [done|]. set_solver.
Qed.

Lemma request_identity_errors_witness :
  (let! (_, s) := request session_setup "user_led" 0 DirNone XdrNone in
   request s "user_led" 0 DirNone XdrNone)
  = Err (ResourceError_AlreadyRequested "user_led" 0) /\
  request session_setup "user_led" 1 DirNone XdrNone
  = Err (ResourceError_DoesNotExist "user_led" 1).
Proof.
  split.
  - destruct (request session_setup "user_led" 0 DirNone XdrNone)
      as [[v s1]|e] eqn:Hreq; [|vm_compute in Hreq; discriminate].
    simpl.
    apply (proj2 (request_identity_errors session_setup "user_led" 0%nat
                    DirNone XdrNone) v s1 s1 DirNone XdrNone Hreq).
    apply rtc_refl.
  - apply (proj1 (request_identity_errors session_setup "user_led" 1%nat
                    DirNone XdrNone)).
    vm_compute. reflexivity.
Defined.

(** ** Allocation conflicts *)

Lemma flat_map_flat_map {A B C} (f : A -> list B) (g : B -> list C) (l : list A) :
  flat_map g (flat_map f l) = flat_map (fun x => flat_map g (f x)) l.
Proof. induction l; simpl; [done|]. by rewrite flat_map_app', IHl. Qed.

Lemma iter_ports_app s s' entries :
  ports s' = ports s ++ entries ->
  iter_ports s' = iter_ports s ++ flat_map e_ports entries /\
  bound_pins s' = bound_pins s ++ flat_map entry_pins entries.
Proof.
  intros H. unfold bound_pins, iter_ports. rewrite H, !flat_map_app'.
  split; [done|]. f_equal. apply flat_map_flat_map.
Qed.

Lemma resolve_effect_owned l s s' entries :
  Forall2 (fun (cg : string * Group) (e : Entry) =>
             entry_of (connectors s) (fst cg) (snd cg) e /\
             forall pin, pin ∈ entry_pins e -> phys_reqd s' !! pin = Some (fst cg))
          l entries ->
  forall pin, pin ∈ flat_map entry_pins entries -> is_Some (phys_reqd s' !! pin).
Proof.
  intros HF pin Hin. apply elem_of_flat_map in Hin as (e & He & Hin).
  apply list_elem_of_lookup in He as [i Hi].
  destruct (Forall2_lookup_r _ _ _ _ _ HF Hi) as (cg & _ & _ & Hown).
  rewrite (Hown pin Hin). eauto.
Qed.

(** A request binds fresh pins only, and keeps every earlier claim. *)
Lemma request_claims s name number dir xdr v s' :
  request s name number dir xdr = Ok (v, s') ->
  phys_reqd s ⊆ phys_reqd s' /\
  exists new,
    iter_ports s' = iter_ports s ++ new /\
    bound_pins s' = bound_pins s ++ flat_map port_pins new /\
    NoDup (flat_map port_pins new) /\
    forall pin, pin ∈ flat_map port_pins new ->
                phys_reqd s !! pin = None /\ is_Some (phys_reqd s' !! pin).
Proof.
  intros H. apply request_inv in H as (r & s1 & Hr & Hq & Hres & ->).
  apply resolve_effect_resolve in Hres
    as (_ & _ & _ & Hsub & entries & Hp & HF & Hnd & Hnone & _).
  simpl. split; [done|]. exists (flat_map e_ports entries).
  destruct (iter_ports_app s s1 entries Hp) as [Hip Hbp].
  rewrite flat_map_flat_map. split_and!; try done.
  intros pin Hin. split; [by apply Hnone|].
  eapply resolve_effect_owned; done.
Qed.

Lemma ledger_ok_step s s' :
  ledger_ok s -> session_step s s' -> ledger_ok s'.
Proof.
  intros [Hnd Hdom] Hstep.
  destruct Hstep as [s name number dir xdr v s' H|s target f s' H|s rs s' H|s cs s' H].
  - apply request_claims in H as (Hsub & new & _ & Hbp & Hnew & Hfresh).
    unfold ledger_ok. rewrite Hbp. split.
    + apply NoDup_app. split_and!; try done.
      intros pin Hin Hin'. apply Hdom in Hin as [o Ho].
      apply Hfresh in Hin' as [Hnone _]. congruence.
    + intros pin Hin. apply elem_of_app in Hin as [Hin|Hin].
      * apply Hdom in Hin as [o Ho]. exists o. by eapply lookup_weaken.
      * by apply Hfresh.
  - apply add_clock_constraint_effect in H
      as (port & hz & _ & _ & _ & _ & _ & _ & Hphys & Hp & _).
    unfold ledger_ok, bound_pins, iter_ports. by rewrite Hphys, Hp.
  - apply add_resources_effect in H as (_ & _ & _ & Hphys & Hp & _).
    unfold ledger_ok, bound_pins, iter_ports. by rewrite Hphys, Hp.
  - apply add_connectors_effect in H as (_ & _ & _ & Hphys & Hp & _).
    unfold ledger_ok, bound_pins, iter_ports. by rewrite Hphys, Hp.
Qed.

Lemma ledger_ok_steps s s' :
  ledger_ok s -> session_steps s s' -> ledger_ok s'.
Proof.
  intros Hok Hsteps. induction Hsteps as [s|s1 s2 s3 Hstep _ IH]; [done|].
  apply IH. by eapply ledger_ok_step.
Qed.

Lemma ledger_ok_new rs cs s :
  ResourceManager rs cs = Ok s -> ledger_ok s.
Proof.
  unfold ResourceManager. intros H. apply rbind_ok in H as (s1 & H1 & H2).
  apply add_resources_effect in H1 as (_ & _ & _ & _ & Hp1 & _).
  apply add_connectors_effect in H2 as (_ & _ & _ & _ & Hp2 & _).
  unfold ledger_ok, bound_pins, iter_ports. rewrite Hp2, Hp1. simpl.
  split; [constructor|]. intros pin Hin. by apply elem_of_nil in Hin.
Qed.

Lemma claim_all_conflict s c pins1 pin pins2 prior :
  NoDup pins1 -> pin ∉ pins1 ->
  (forall p, p ∈ pins1 -> phys_reqd s !! p = None) ->
  phys_reqd s !! pin = Some prior ->
  claim_all s c (pins1 ++ pin :: pins2) = Err (ResourceError_Conflict c pin prior).
Proof.
  revert s. induction pins1 as [|p pins1 IH]; intros s Hnd Hnotin Hfree Hpin; simpl.
  - unfold claim. by rewrite Hpin.
  - unfold claim at 1. rewrite (Hfree p) by apply list_elem_of_here. simpl.
    apply NoDup_cons in Hnd as [Hp Hnd].
    apply not_elem_of_cons in Hnotin as [Hne Hnotin].
    apply IH; try done; simpl.
    + intros q Hq. rewrite lookup_insert_ne by (intros ->; done).
      apply Hfree. by apply list_elem_of_further.
    + by rewrite lookup_insert_ne.
Qed.

(** C1: a pin token that is already claimed makes the claim fail with a
    conflict naming the new component, the pin and the prior claimant;
    otherwise the token is recorded for the new component.  Hence a
    request for a resource one of whose pins is taken fails with that
    conflict, a successful request binds only pins that were free and
    keeps every earlier claim, and in every session reached from a sound
    one no physical pin is bound to two ports. *)
Theorem pin_allocation_exclusive (s : Session) (component pin : string) :
  (forall prior : string,
     phys_reqd s !! pin = Some prior ->
     claim s component pin = Err (ResourceError_Conflict component pin prior)) /\
  (phys_reqd s !! pin = None ->
   claim s component pin = Ok (set_phys_reqd s (<[pin := component]> (phys_reqd s)))) /\
  (forall (name : string) (number : nat) (r : Resource) (g : Group)
          (dir : DirArg) (xdr : XdrArg) (new : list Port)
          (pins1 pins2 : list string) (prior : string),
     resources s !! (name, number) = Some r ->
     (name, number) ∉ requested s ->
     res_body r = Leaf g ->
     resolve_ports (connectors s) (component_name name number) (group_tokens g)
       = Ok new ->
     flat_map port_pins new = pins1 ++ pin :: pins2 ->
     NoDup pins1 -> pin ∉ pins1 ->
     (forall p, p ∈ pins1 -> phys_reqd s !! p = None) ->
     phys_reqd s !! pin = Some prior ->
     request s name number dir xdr
     = Err (ResourceError_Conflict (component_name name number) pin prior)) /\
  (forall (name : string) (number : nat) (dir : DirArg) (xdr : XdrArg)
          (v : Bound) (s' : Session),
     request s name number dir xdr = Ok (v, s') ->
     phys_reqd s ⊆ phys_reqd s' /\
     exists new : list Port,
       iter_ports s' = iter_ports s ++ new /\
       NoDup (flat_map port_pins new) /\
       forall p, p ∈ flat_map port_pins new ->
                 phys_reqd s !! p = None /\ is_Some (phys_reqd s' !! p)) /\
  (forall s' : Session, ledger_ok s -> session_steps s s' -> ledger_ok s').
Proof.
  split_and!.
  - intros prior H. unfold claim. by rewrite H.
  - intros H. unfold claim. by rewrite H.
  - intros name number r g dir xdr new pins1 pins2 prior
           Hr Hq Hb Hports Hpins Hnd Hnotin Hfree Hpin.
    unfold request, lookup. rewrite Hr. simpl.
    rewrite bool_decide_eq_false_2 by done. rewrite Hb. simpl.
    unfold resolve_leaf. rewrite Hports. simpl. rewrite Hpins.
    by rewrite (claim_all_conflict s _ pins1 pin pins2 prior).
  - intros name number dir xdr v s' H.
    apply request_claims in H as (Hsub & new & Hip & _ & Hnd & Hfresh).
    split; [done|]. exists new. done.
  - intros s' Hok Hsteps. by eapply ledger_ok_steps.
Qed.

Lemma pin_allocation_exclusive_witness :
  request session_clk100 "clk20" 0 DirNone XdrNone
  = Err (ResourceError_Conflict "clk20_0" "H1" "clk100_0").
Proof.
  apply (proj1 (proj2 (proj2 (pin_allocation_exclusive session_clk100 "clk20_0" "H1")))
           "clk20" 0%nat (mkResource "clk20" 0 (Leaf (pins ["H1"] Dir_i)))
           (pins ["H1"] Dir_i) DirNone XdrNone
           [mk_port "clk20_0" "io" ["H1"]] [] [] "clk100_0").
  - vm_compute. reflexivity.
  - apply (bool_decide_unpack _). vm_compute. exact I.
  - reflexivity.
  - vm_compute. reflexivity.
  - reflexivity.
  - constructor.
  - apply not_elem_of_nil.
  - intros p Hp. by apply elem_of_nil in Hp.
  - vm_compute. reflexivity.
Defined.

(** ** Direction overrides *)

Arguments resolve_dir : simpl never.
Arguments resolve_xdr : simpl never.

Lemma parse_override_str ov : parse_override (ov_str ov) = Some ov.
Proof. by destruct ov as [[]|]. Qed.

Lemma resolve_dir_allowed g ov c :
  allowed (g_dir g) ov -> resolve_dir g (DirScalar (ov_str ov)) c = Ok ov.
Proof.
  unfold resolve_dir. rewrite parse_override_str.
  intros [->|[[Hio Hov]| ->]]; simpl.
  - by rewrite bool_decide_eq_true_2.
  - rewrite Hio. by destruct Hov as [->|[->| ->]].
  - done.
Qed.

Lemma resolve_dir_disallowed g ov c :
  ~ allowed (g_dir g) ov ->
  resolve_dir g (DirScalar (ov_str ov)) c
  = Err (ValueError_Direction g (dir_str (g_dir g)) (ov_str ov)).
Proof.
  unfold resolve_dir, allowed. rewrite parse_override_str. intros Hno.
  destruct ov as [d|]; [|by destruct Hno; auto].
  case_bool_decide as Heq; [subst; by destruct Hno; auto|].
  case_bool_decide as Hio; [|done].
  destruct Hno. right. left. split; [done|].
  destruct d; auto. congruence.
Qed.

(** C3: for a leaf resource, a request with an override succeeds exactly
    when the override is allowed by the lattice (no change, a narrowing of
    "io", or "-") and the request would succeed without it; a disallowed
    override on an otherwise successful request fails naming the declared
    direction and the override. *)
Theorem direction_override_lattice (s : Session) (name : string) (number : nat)
    (r : Resource) (g : Group) (ov : Override) (xdr : XdrArg) :
  resources s !! (name, number) = Some r ->
  res_body r = Leaf g ->
  (is_ok (request s name number (DirScalar (ov_str ov)) xdr) = true <->
   allowed (g_dir g) ov /\ is_ok (request s name number DirNone xdr) = true) /\
  (~ allowed (g_dir g) ov ->
   is_ok (request s name number DirNone xdr) = true ->
   request s name number (DirScalar (ov_str ov)) xdr
   = Err (ValueError_Direction g (dir_str (g_dir g)) (ov_str ov))).
Proof.
  intros Hr Hb. unfold request, lookup. rewrite Hr. simpl.
  case_bool_decide as Hq; [simpl; split; [split; [done|by intros [_ ?]]|done]|].
  rewrite Hb. simpl. unfold resolve_leaf.
  destruct (resolve_ports _ _ _) as [new|e]; simpl;
    [|split; [split; [done|by intros [_ ?]]|done]].
  destruct (claim_all _ _ _) as [s1|e]; simpl;
    [|split; [split; [done|by intros [_ ?]]|done]].
  destruct (decide (allowed (g_dir g) ov)) as [Hal|Hno].
  - rewrite resolve_dir_allowed by done. simpl.
    split; [|done].
    destruct (resolve_xdr g xdr _) as [x|e]; simpl; [|by split; [|intros [_ ?]]].
    destruct (match g_clock g with
              | Some f => match new with [] => Ok s1 | port :: _ => add_clock_port s1 port f end
              | None => Ok s1 end) as [s2|e]; simpl; by split; [|intros [_ ?]].
  - rewrite resolve_dir_disallowed by done. simpl.
    split; [split; [done|by intros [? _]]|done].
Qed.

Lemma direction_override_lattice_witness :
  request session_setup "user_led" 0 (DirScalar "i") XdrNone
  = Err (ValueError_Direction (pins ["A0"] Dir_o) "o" "i").
Proof.
  assert (Hr : resources session_setup !! ("user_led", 0%nat)
               = Some (mkResource "user_led" 0 (Leaf (pins ["A0"] Dir_o))))
    by (vm_compute; reflexivity).
  apply (proj2 (direction_override_lattice session_setup "user_led" 0%nat
                  (mkResource "user_led" 0 (Leaf (pins ["A0"] Dir_o)))
                  (pins ["A0"] Dir_o) (OvDir Dir_i) XdrNone Hr eq_refl)).
  - intros [H|[[H _]|H]]; discriminate.
  - vm_compute. reflexivity.
Defined.

(** ** Clock constraints *)

Lemma clock_of_None s port :
  clock_of s port = None <-> port ∉ (fst <$> clocks s).
Proof.
  unfold clock_of. generalize (clocks s) as l.
  induction l as [|[p f] l IH]; simpl.
  - split; [intros _; apply not_elem_of_nil | done].
  - case_bool_decide as Heq; simpl in *.
    + subst. split; [done|]. intros H. destruct H. apply list_elem_of_here.
    + rewrite not_elem_of_cons, IH.
      split; [intros H; split; [congruence | done] | by intros [_ H]].
Qed.

Lemma add_clock_port_unique s port f s' :
  add_clock_port s port f = Ok s' -> clocks_unique s -> clocks_unique s'.
Proof.
  intros H Hu. apply add_clock_port_effect in H as (_ & _ & _ & _ & _ & Hnone & Hc).
  unfold clocks_unique in *. rewrite Hc, fmap_app. simpl.
  apply NoDup_app. split_and!; [done| |apply NoDup_singleton].
  intros p Hin Hin'. apply list_elem_of_singleton in Hin' as ->.
  by apply clock_of_None in Hnone.
Qed.

Lemma resolve_leaf_unique s g dir xdr c v s' :
  resolve_leaf s g dir xdr c = Ok (v, s') -> clocks_unique s -> clocks_unique s'.
Proof.
  unfold resolve_leaf. intros H Hu.
  apply rbind_ok in H as (new_ports & Hports & H).
  apply rbind_ok in H as (s1 & Hclaim & H).
  apply rbind_ok in H as (ov & Hov & H).
  apply rbind_ok in H as (x & Hx & H).
  apply rbind_ok in H as (s2 & Hclk & H). inversion H; subst. clear H.
  apply claim_all_effect in Hclaim as (_ & _ & _ & _ & Hk & _).
  assert (clocks_unique s1) as Hu1 by (unfold clocks_unique; by rewrite Hk).
  unfold clocks_unique. simpl. fold (clocks_unique s2).
  destruct (g_clock g) as [f|]; [destruct new_ports as [|port rest]|];
    try (inversion Hclk; subst; done).
  by eapply add_clock_port_unique.
Qed.

Lemma resolve_unique b s dir xdr c v s' :
  resolve s b dir xdr c = Ok (v, s') -> clocks_unique s -> clocks_unique s'.
Proof.
  apply (resolve_rel (fun _ s s' => clocks_unique s -> clocks_unique s')).
  - done.
  - intros l1 l2 s1 s2 s3 H1 H2 Hu. auto.
  - intros s0 g dir0 xdr0 c0 v0 s0'. apply resolve_leaf_unique.
Qed.

Lemma clocks_unique_step s s' :
  clocks_unique s -> session_step s s' -> clocks_unique s'.
Proof.
  intros Hu Hstep.
  destruct Hstep as [s name number dir xdr v s' H|s target f s' H|s rs s' H|s cs s' H].
  - apply request_inv in H as (r & s1 & _ & _ & Hres & ->).
    apply resolve_unique in Hres; done.
  - unfold add_clock_constraint in H.
    destruct target; try discriminate; destruct f as [hz|]; try discriminate;
      (match type of H with
       | context [resolve_target ?s ?t] =>
           destruct (resolve_target s t) as [port|]; [|discriminate]
       end); by eapply add_clock_port_unique.
  - apply add_resources_effect in H as (_ & _ & _ & _ & _ & Hk).
    unfold clocks_unique. by rewrite Hk.
  - apply add_connectors_effect in H as (_ & _ & _ & _ & _ & Hk).
    unfold clocks_unique. by rewrite Hk.
Qed.

Lemma find_some_elem {A} (P : A -> bool) (l : list A) (x : A) :
  List.find P l = Some x -> x ∈ l /\ P x = true.
Proof.
  intros H. apply List.find_some in H as [Hin HP]. split; [|done].
  by apply list_elem_of_In.
Qed.

Lemma resolve_target_port s target port :
  resolve_target s target = Some port -> port ∈ iter_ports s.
Proof.
  unfold resolve_target, iter_ports. destruct target as [pin|sg|]; [| |done].
  - destruct (List.find _ (ports s)) as [e|] eqn:Hf; [|done].
    apply find_some_elem in Hf as [He _]. intros Hhead.
    apply elem_of_flat_map. exists e. split; [done|].
    destruct (e_ports e) as [|p rest]; [done|]. inversion Hhead; subst.
    apply list_elem_of_here.
  - intros Hf. by apply find_some_elem in Hf as [Hin _].
Qed.

(** C6: [add_clock_constraint] fails when the target does not resolve to
    a port of a prior request (with "not a previously requested resource"
    for a pin or signal and a numeric frequency), fails when the frequency
    is not a number, and fails naming the existing frequency when the
    port is already constrained; a target that resolves, resolves to a
    port of the ledger; and across any operations no port ever carries two
    clock constraints. *)
Theorem clock_constraint_errors (s : Session) (target : ClockTarget)
    (frequency : Frequency) :
  (resolve_target s target = None ->
   is_ok (add_clock_constraint s target frequency) = false) /\
  (forall hz : Z,
     resolve_target s target = None -> target <> TOther ->
     add_clock_constraint s target (Hz hz) = Err (ValueError_NotRequested target)) /\
  (target <> TOther ->
   add_clock_constraint s target NotANumber = Err TypeError_Frequency) /\
  (forall (port : Port) (existing hz : Z),
     resolve_target s target = Some port ->
     clock_of s port = Some existing ->
     add_clock_constraint s target (Hz hz)
     = Err (ValueError_Constrained port existing)) /\
  (forall port : Port, resolve_target s target = Some port -> port ∈ iter_ports s) /\
  (forall s' : Session,
     clocks_unique s -> session_steps s s' -> clocks_unique s').
Proof.
  split_and!.
  - intros Hnone. unfold add_clock_constraint.
    destruct target; [| |done]; destruct frequency; try done; by rewrite Hnone.
  - intros hz Hnone Hne. unfold add_clock_constraint.
    destruct target; [| |done]; by rewrite Hnone.
  - intros Hne. unfold add_clock_constraint. by destruct target.
  - intros port existing hz Hres Hclk. unfold add_clock_constraint.
    destruct target; [| |done]; rewrite Hres; unfold add_clock_port; by rewrite Hclk.
  - apply resolve_target_port.
  - intros s' Hu Hsteps. induction Hsteps as [s|s1 s2 s3 Hstep _ IH]; [done|].
    apply IH. by eapply clocks_unique_step.
Qed.

Lemma clock_constraint_errors_witness :
  add_clock_constraint session_clk100 (TPin (mkPin "clk100_0" 1 Dir_i 0)) (Hz 1000000)
  = Err (ValueError_Constrained (mk_port "clk100_0" "p" ["H1"]) 100000000) /\
  add_clock_constraint session_setup (TPin (mkPin "" 1 Dir_i 0)) (Hz 1000000)
  = Err (ValueError_NotRequested (TPin (mkPin "" 1 Dir_i 0))).
Proof.
  split.
  - apply (proj1 (proj2 (proj2 (proj2
             (clock_constraint_errors session_clk100
                (TPin (mkPin "clk100_0" 1 Dir_i 0)) (Hz 1000000)))))
             (mk_port "clk100_0" "p" ["H1"]) 100000000%Z 1000000%Z);
      vm_compute; reflexivity.
  - apply (proj1 (proj2
             (clock_constraint_errors session_setup
                (TPin (mkPin "" 1 Dir_i 0)) (Hz 1000000))) 1000000%Z);
      [vm_compute; reflexivity | discriminate].
Defined.

(** ** Ports of a request *)

Lemma entry_of_port_spec conns c g e :
  entry_of conns c g e -> port_spec conns c g e.
Proof.
  intros (Hg & Ha & Hports & Hpin). unfold port_spec, group_tokens in *.
  unfold single_ended_of, differential_of, is_single_ended. rewrite Hg, Ha.
  destruct (g_io g) as [names|p n]; simpl in Hports.
  - apply rbind_ok in Hports as (pins & Hpins & H). inversion H as [Hp].
    exists pins. split_and!; try done; by destruct (e_pin e).
  - apply rbind_ok in Hports as (pp & Hpp & H).
    apply rbind_ok in H as (ps & Hps & H). inversion H as [Hp]. clear H.
    apply rbind_ok in Hps as (pn & Hpn & H). inversion H; subst.
    exists pp, pn. split_and!; try done; by destruct (e_pin e).
Qed.

(** C5: a successful request appends one ledger entry per electrical
    group of the resource, in order; an entry for a single-ended group has
    exactly one port, named after the request path with suffix [__io], and
    an entry for a differential group exactly two, suffixed [__p] and
    [__n]; the ports are bound to the declared tokens, resolved, in order,
    whatever the declared polarity; the polarity reaches the binder only
    as the flag of [iter_single_ended_pins] / [iter_differential_pins]. *)
Theorem request_ports (s : Session) (name : string) (number : nat)
    (dir : DirArg) (xdr : XdrArg) (v : Bound) (s' : Session) (r : Resource) :
  request s name number dir xdr = Ok (v, s') ->
  resources s !! (name, number) = Some r ->
  exists entries : list Entry,
    ports s' = ports s ++ entries /\
    Forall2 (fun (cg : string * Group) (e : Entry) =>
               e_group e = snd cg /\ port_spec (connectors s) (fst cg) (snd cg) e)
            (leaves (res_body r) (component_name name number)) entries /\
    iter_ports s' = iter_ports s ++ flat_map e_ports entries /\
    iter_single_ended_pins s'
    = iter_single_ended_pins s ++ flat_map single_ended_of entries /\
    iter_differential_pins s'
    = iter_differential_pins s ++ flat_map differential_of entries.
Proof.
  intros H Hr. apply request_inv in H as (r' & s1 & Hr' & _ & Hres & ->).
  assert (r' = r) as -> by congruence.
  apply resolve_effect_resolve in Hres
    as (_ & _ & _ & _ & entries & Hp & HF & _).
  exists entries.
  unfold iter_ports, iter_single_ended_pins, iter_differential_pins. simpl.
  rewrite Hp, !flat_map_app'. split_and!; try done.
  eapply Forall2_impl; [exact HF|]. intros cg e [He _]. split.
  - by destruct He.
  - by apply entry_of_port_spec.
Qed.


(** * Further properties of the iCE40 binder *)

Lemma find_app_some {A} (P : A -> bool) (l1 l2 : list A) a :
  List.find P l1 = Some a -> List.find P (l1 ++ l2) = Some a.
Proof.
  induction l1 as [|x l1 IH]; simpl; [done|]. destruct (P x); [done | exact IH].
Qed.

Lemma param_of_tail name ty base tail v :
  param_of name (mkInstance ty tail) = Some v ->
  param_of name (mkInstance ty (base ++ tail)) = Some v.
Proof.
  unfold param_of. simpl. rewrite rev_app_distr. intros H.
  destruct (List.find _ (rev tail)) as [a|] eqn:Hf; [|discriminate].
  by rewrite (find_app_some _ _ _ _ Hf).
Qed.

(** Normalises the argument list of a cell to [cell_base ++ tail]. *)
Ltac cell_shape port attrs bit :=
  rewrite <- ?app_assoc; simpl;
  match goal with
  | |- context [(Kio, "PACKAGE_PIN", VBit port bit) :: ?l ++ ?tail] =>
      change ((Kio, "PACKAGE_PIN", VBit port bit) :: l ++ tail)
        with (cell_base port attrs bit ++ tail)
  end.

(** X1: the [PIN_TYPE] of every cell, field by field: the input field is 01
    for an unregistered input and 00 otherwise; the output field is 10,
    01, 00 for an unregistered, registered, double-data-rate output; the
    enable field is 00 without output capability, 01 for direction "o",
    and 10 (unregistered) or 11 (registered) for "oe" and "io". *)
Theorem pin_type_fields (m : Module) (pin : Pin) (port : Signal) (attrs : Attrs)
    (i_invert o_invert : option bool) (m' : Module) (attrs' : Attrs) :
  pin_xdr pin ∈ valid_xdrs_ice40 ->
  _get_io_buffer m pin port attrs i_invert o_invert = Ok (m', attrs') ->
  exists cells : list Instance,
    io_cells m' = io_cells m ++ cells /\
    length cells = sig_width port /\
    forall cell : Instance, cell ∈ cells ->
      exists p : Z,
        param_of "PIN_TYPE" cell = Some (VInt p) /\
        pin_type_input p
        = (if has_i pin && (pin_xdr pin =? 0)%Z then 1 else 0)%Z /\
        pin_type_output p
        = (if has_o pin then 2 - pin_xdr pin else 0)%Z /\
        pin_type_enable p
        = (if negb (has_o pin) then 0
           else if bool_decide (pin_dir pin = Dir_o) then 1
           else if (pin_xdr pin =? 0)%Z then 2 else 3)%Z.
Proof.
  intros Hx H.
  destruct (get_io_buffer_cells _ _ _ _ _ _ _ _ H) as (cells & Hc & Hlen & Hcell).
  exists cells. split; [done|]. split; [done|].
  intros cell Hin. apply list_elem_of_lookup in Hin as [bit Hbit].
  destruct (Hcell bit cell Hbit) as (args & Hargs & ->). clear Hcell H.
  revert Hargs. generalize (attrs_after attrs) (global_of attrs). intros at' gl.
  unfold io_args_of, locals_of, pin_has_i_clk, pin_has_o_clk, o_type_of,
    i_type_of, has_i, has_o.
  apply valid_xdr_cases in Hx as [Hx|[Hx|Hx]]; rewrite Hx;
    destruct (pin_dir pin), gl; simpl; intros Hargs; peel_index Hargs; inversion Hargs; subst;
    clear Hargs; cell_shape port at' bit;
    (eexists; split; [apply param_of_tail; reflexivity|]); done.
Qed.

Lemma pin_type_fields_witness :
  pin_xdr (mkPin "d" 1 Dir_io 1) ∈ valid_xdrs_ice40 /\
  exists cells : list Instance,
    length cells = 1%nat /\
    forall cell, cell ∈ cells ->
      exists p, param_of "PIN_TYPE" cell = Some (VInt p) /\ pin_type_enable p = 3%Z.
Proof.
  assert (Hx : pin_xdr (mkPin "d" 1 Dir_io 1) ∈ valid_xdrs_ice40)
    by apply list_elem_of_further, list_elem_of_here.
  split; [exact Hx|].
  destruct (pin_type_fields Module_new (mkPin "d" 1 Dir_io 1)
              (mkSignal "d__io" 1) [] None None _ _ Hx eq_refl)
    as (cells & Hc & Hlen & Hcell).
  exists cells. split; [exact Hlen|]. intros cell Hin.
  destruct (Hcell cell Hin) as (p & Hp & _ & _ & He).
  exists p. split; [exact Hp | exact He].
Defined.

(** X2: a cell is connected to [pin.oe] exactly when the direction is "oe" or
    "io", which is exactly when the enable field of its [PIN_TYPE] selects
    a controlled enable (10 or 11). *)
Theorem output_enable_matches_pin_type (m : Module) (pin : Pin) (port : Signal)
    (attrs : Attrs) (i_invert o_invert : option bool) (m' : Module)
    (attrs' : Attrs) :
  pin_xdr pin ∈ valid_xdrs_ice40 ->
  _get_io_buffer m pin port attrs i_invert o_invert = Ok (m', attrs') ->
  exists cells : list Instance,
    io_cells m' = io_cells m ++ cells /\
    forall cell : Instance, cell ∈ cells ->
      arg_of Ki "OUTPUT_ENABLE" cell
      = (if bool_decide (pin_dir pin = Dir_oe \/ pin_dir pin = Dir_io)
         then Some (VSig (pin_oe pin)) else None) /\
      exists p : Z,
        param_of "PIN_TYPE" cell = Some (VInt p) /\
        (is_Some (arg_of Ki "OUTPUT_ENABLE" cell) <-> (2 <= pin_type_enable p)%Z).
Proof.
  intros Hx H.
  destruct (get_io_buffer_cells _ _ _ _ _ _ _ _ H) as (cells & Hc & Hlen & Hcell).
  exists cells. split; [done|].
  intros cell Hin. apply list_elem_of_lookup in Hin as [bit Hbit].
  destruct (Hcell bit cell Hbit) as (args & Hargs & ->). clear Hcell H.
  revert Hargs. generalize (attrs_after attrs) (global_of attrs). intros at' gl.
  unfold io_args_of, locals_of, pin_has_i_clk, pin_has_o_clk, o_type_of,
    i_type_of, has_i, has_o.
  apply valid_xdr_cases in Hx as [Hx|[Hx|Hx]]; rewrite Hx;
    destruct (pin_dir pin) eqn:Hd, gl; simpl; intros Hargs; peel_index Hargs; inversion Hargs; subst;
    clear Hargs; cell_shape port at' bit;
    rewrite arg_of_base by congruence;
    (split; [reflexivity|]);
    (eexists; split; [apply param_of_tail; reflexivity|]);
    (split; [intros [? Hs]; vm_compute in Hs |- *; congruence
            | intros Hle; vm_compute in Hle |- *; try (by eauto);
              exfalso; by apply Hle]).
Qed.

Lemma output_enable_matches_pin_type_witness :
  exists cells : list Instance,
    forall cell, cell ∈ cells ->
      arg_of Ki "OUTPUT_ENABLE" cell = Some (VSig (pin_oe (mkPin "d" 1 Dir_oe 0))).
Proof.
  destruct (output_enable_matches_pin_type Module_new (mkPin "d" 1 Dir_oe 0)
              (mkSignal "d__io" 1) [] None None _ _
              (list_elem_of_here _ _) eq_refl)
    as (cells & Hc & Hcell).
  exists cells. intros cell Hin. exact (proj1 (Hcell cell Hin)).
Defined.

Lemma attrs_after_del attrs : attrs_after attrs = attrs_del "GLOBAL" attrs.
Proof.
  unfold attrs_after, attrs_mem, attrs_get, attrs_del.
  case_bool_decide as Hs; [done|].
  induction attrs as [|[k v] attrs IH]; simpl in *; [done|].
  destruct (String.eqb k "GLOBAL") eqn:Hk; simpl in *.
  - destruct Hs. eauto.
  - f_equal. by apply IH.
Qed.

Lemma attrs_get_del_eq key attrs : attrs_get key (attrs_del key attrs) = None.
Proof.
  unfold attrs_get, attrs_del.
  induction attrs as [|[k v] attrs IH]; simpl; [done|].
  destruct (String.eqb k key) eqn:Hk; simpl; [exact IH|]. by rewrite Hk.
Qed.

Lemma attrs_get_del_ne key key' attrs :
  key' <> key -> attrs_get key' (attrs_del key attrs) = attrs_get key' attrs.
Proof.
  intros Hne. unfold attrs_get, attrs_del.
  induction attrs as [|[k v] attrs IH]; simpl; [done|].
  destruct (String.eqb_spec k key) as [->|Hk]; simpl.
  - rewrite (proj2 (String.eqb_neq key key')) by congruence. exact IH.
  - destruct (String.eqb k key'); [done | exact IH].
Qed.

Lemma global_of_after attrs : global_of (attrs_after attrs) = false.
Proof.
  rewrite attrs_after_del. unfold global_of, attrs_mem.
  rewrite attrs_get_del_eq. by rewrite bool_decide_eq_false_2 by (intros [? ?]; done).
Qed.

Lemma params_base ty port attrs bit tail :
  params (mkInstance ty (cell_base port attrs bit ++ tail))
  = attr_params attrs ++ params (mkInstance ty tail).
Proof.
  unfold params, cell_base, attr_params. simpl. rewrite List.filter_app. f_equal.
  induction attrs as [|[k v] attrs IH]; simpl; [done|]. by f_equal.
Qed.

Lemma io_args_of_params pin port attrs gl ls bit args ty :
  io_args_of pin port attrs gl ls bit = Ok args ->
  exists p, params (mkInstance ty args)
            = attr_params attrs ++ [(Kp, "PIN_TYPE", VInt p)].
Proof.
  unfold io_args_of, local, index. intros H.
  repeat (case_match; simpl in *; try discriminate);
    inversion H; subst; rewrite <- ?app_assoc; simpl;
    match goal with
    | |- context [(Kio, "PACKAGE_PIN", VBit port bit) :: ?l ++ ?tail] =>
        change ((Kio, "PACKAGE_PIN", VBit port bit) :: l ++ tail)
          with (cell_base port attrs bit ++ tail)
    end; rewrite params_base; eexists; reflexivity.
Qed.

(** X3: the GLOBAL attribute selects the primitive and is consumed: the cells
    are SB_GB_IO when it is present and truthy and SB_IO otherwise; the
    dictionary handed back has no GLOBAL key and is unchanged elsewhere;
    and the parameters of each cell are the remaining attributes, in
    order, followed by PIN_TYPE. *)
Theorem global_attribute_consumed (m : Module) (pin : Pin) (port : Signal)
    (attrs : Attrs) (i_invert o_invert : option bool) (m' : Module)
    (attrs' : Attrs) :
  _get_io_buffer m pin port attrs i_invert o_invert = Ok (m', attrs') ->
  attrs' = attrs_del "GLOBAL" attrs /\
  attrs_get "GLOBAL" attrs' = None /\
  (forall key : string, key <> "GLOBAL" -> attrs_get key attrs' = attrs_get key attrs) /\
  exists cells : list Instance,
    io_cells m' = io_cells m ++ cells /\
    forall cell : Instance, cell ∈ cells ->
      (inst_type cell = "SB_GB_IO" \/ inst_type cell = "SB_IO") /\
      (inst_type cell = "SB_GB_IO" <->
       exists v, attrs_get "GLOBAL" attrs = Some v /\ truthy v = true) /\
      exists p : Z,
        params cell = attr_params attrs' ++ [(Kp, "PIN_TYPE", VInt p)].
Proof.
  intros H.
  destruct (get_io_buffer_instances _ _ _ _ _ _ _ _ H) as (_ & Ha & _).
  rewrite attrs_after_del in Ha. subst attrs'.
  split; [done|]. split; [apply attrs_get_del_eq|].
  split; [intros key Hne; by apply attrs_get_del_ne|].
  destruct (get_io_buffer_cells _ _ _ _ _ _ _ _ H) as (cells & Hc & _ & Hcell).
  exists cells. split; [done|]. intros cell Hin.
  apply list_elem_of_lookup in Hin as [bit Hbit].
  destruct (Hcell bit cell Hbit) as (args & Hargs & ->).
  rewrite <- global_of_true. rewrite attrs_after_del in Hargs.
  split_and!.
  - simpl. destruct (global_of attrs); auto.
  - simpl. destruct (global_of attrs); split; done.
  - eapply io_args_of_params. exact Hargs.
Qed.

Lemma global_attribute_consumed_witness :
  exists m' : Module,
    _get_io_buffer Module_new (mkPin "clk" 1 Dir_i 0) (mkSignal "clk__io" 1)
                   [("GLOBAL", AInt 0); ("PULLUP", AInt 1)] None None
    = Ok (m', [("PULLUP", AInt 1)]) /\
    exists cells, io_cells m' = cells /\
                  forall cell, cell ∈ cells -> inst_type cell <> "SB_GB_IO".
Proof.
  eexists. split; [reflexivity|].
  destruct (global_attribute_consumed Module_new (mkPin "clk" 1 Dir_i 0)
              (mkSignal "clk__io" 1) [("GLOBAL", AInt 0); ("PULLUP", AInt 1)]
              None None _ _ eq_refl)
    as (_ & _ & _ & cells & Hc & Hcell).
  exists cells. split; [exact Hc|]. intros cell Hin Hty.
  destruct (proj1 (proj1 (proj2 (Hcell cell Hin))) Hty) as (v & Hv & Ht).
  inversion Hv; subst. discriminate Ht.
Defined.

Lemma attrs_del_idem key attrs :
  attrs_del key (attrs_del key attrs) = attrs_del key attrs.
Proof.
  unfold attrs_del. induction attrs as [|[k v] attrs IH]; simpl; [done|].
  destruct (String.eqb k key) eqn:Hk; simpl; [exact IH|].
  rewrite Hk. simpl. by f_equal.
Qed.

(** X4: [get_diff_output] places one cell per bit on the p port and then one
    per bit on the n port.  Because the first call removes GLOBAL from the
    shared attribute dictionary, only the p cells can be SB_GB_IO: the n
    cells are always SB_IO, and the dictionary handed back has no GLOBAL
    key. *)
Theorem diff_output_cells (pin : Pin) (p_port n_port : Signal) (attrs : Attrs)
    (invert : bool) (m : Module) (attrs' : Attrs) :
  get_diff_output pin p_port n_port attrs invert = Ok (m, attrs') ->
  attrs' = attrs_del "GLOBAL" attrs /\
  exists p_cells n_cells : list Instance,
    io_cells m = p_cells ++ n_cells /\
    arg_of Kio "PACKAGE_PIN" <$> p_cells
    = (fun bit => Some (VBit p_port bit)) <$> seq 0%nat (sig_width p_port) /\
    arg_of Kio "PACKAGE_PIN" <$> n_cells
    = (fun bit => Some (VBit n_port bit)) <$> seq 0%nat (sig_width n_port) /\
    Forall (fun cell =>
              inst_type cell = if global_of attrs then "SB_GB_IO" else "SB_IO")
           p_cells /\
    Forall (fun cell => inst_type cell = "SB_IO") n_cells.
Proof.
  intros H. unfold get_diff_output in H. apply check_feature_inv in H as [_ H].
  apply rbind_ok in H as ([m1 attrs1] & H1 & H2).
  destruct (get_io_buffer_instances _ _ _ _ _ _ _ _ H1) as (_ & Ha1 & _).
  destruct (get_io_buffer_instances _ _ _ _ _ _ _ _ H2) as (_ & Ha2 & _).
  destruct (io_cells_types _ _ _ _ _ _ _ _ H1) as (pc & Hc1 & _ & Hp1 & Ht1).
  destruct (io_cells_types _ _ _ _ _ _ _ _ H2) as (nc & Hc2 & _ & Hp2 & Ht2).
  subst attrs1. rewrite global_of_after in Ht2. split.
  - by rewrite Ha2, !attrs_after_del, attrs_del_idem.
  - exists pc, nc. rewrite Hc2, Hc1. done.
Qed.

Lemma diff_output_cells_witness :
  exists (m : Module) (attrs' : Attrs),
    get_diff_output (mkPin "c" 1 Dir_o 0) (mkSignal "c__p" 1) (mkSignal "c__n" 1)
                    [("GLOBAL", ABool true)] false = Ok (m, attrs') /\
    inst_type <$> io_cells m = ["SB_GB_IO"; "SB_IO"].
Proof.
  eexists _, _. split; [reflexivity|].
  destruct (diff_output_cells (mkPin "c" 1 Dir_o 0) (mkSignal "c__p" 1)
              (mkSignal "c__n" 1) [("GLOBAL", ABool true)] false _ _ eq_refl)
    as (_ & pc & nc & Hc & _). reflexivity.
Defined.

Lemma lut_entries_anon inv a y n :
  Forall (fun e : option string * Instance =>
            fst e = None /\ inst_type (snd e) = "SB_LUT4")
         (lut_entries inv a y n).
Proof. unfold lut_entries. apply Forall_fmap, Forall_forall. by intros bit _. Qed.

Lemma in_luts_anon pin invert :
  Forall (fun e : option string * Instance =>
            fst e = None /\ inst_type (snd e) = "SB_LUT4") (in_luts pin invert).
Proof.
  unfold in_luts, ixor_entries.
  repeat case_match; rewrite ?Forall_app; repeat split;
    try apply lut_entries_anon; constructor.
Qed.

Lemma out_luts_anon pin invert :
  Forall (fun e : option string * Instance =>
            fst e = None /\ inst_type (snd e) = "SB_LUT4") (out_luts pin invert).
Proof.
  unfold out_luts, oxor_entries.
  repeat case_match; rewrite ?Forall_app; repeat split;
    try apply lut_entries_anon; constructor.
Qed.

Lemma anon_dffs l :
  Forall (fun i => inst_type i = "$dff") l ->
  Forall (fun e : option string * Instance =>
            fst e = None /\ inst_type (snd e) = "$dff") (anon l).
Proof.
  intros H. unfold anon. apply Forall_fmap.
  eapply Forall_impl; [exact H|]. by intros i Hi.
Qed.

(** X5: the submodules of one call: first the inversion LUTs and the retiming
    flip-flops, all added anonymously, then one I/O cell per bit of the
    port, each added under the name of the pin. *)
Theorem submodule_names (m : Module) (pin : Pin) (port : Signal) (attrs : Attrs)
    (i_invert o_invert : option bool) (m' : Module) (attrs' : Attrs) :
  _get_io_buffer m pin port attrs i_invert o_invert = Ok (m', attrs') ->
  exists helpers cells : list (option string * Instance),
    submodules m' = submodules m ++ helpers ++ cells /\
    Forall (fun e => fst e = None /\
                     (inst_type (snd e) = "SB_LUT4" \/ inst_type (snd e) = "$dff"))
           helpers /\
    length cells = sig_width port /\
    Forall (fun e => fst e = Some (pin_name pin) /\ is_io_cell (snd e) = true)
           cells.
Proof.
  intros H. rewrite get_io_buffer_eq in H.
  destruct (global_of attrs && opt_truthy i_invert); [discriminate|].
  apply rbind_ok in H as (argss & Ha & H). inversion H; subst. clear H.
  exists (in_luts pin i_invert ++ out_luts pin o_invert
          ++ anon (in_dffs pin i_invert) ++ anon (out_dffs pin o_invert)),
         (io_entries pin (global_of attrs) argss).
  split; [simpl; by rewrite <- !app_assoc|]. split_and!.
  - rewrite !Forall_app. split_and!.
    + eapply Forall_impl; [apply in_luts_anon|]. intros e [? ?]. auto.
    + eapply Forall_impl; [apply out_luts_anon|]. intros e [? ?]. auto.
    + eapply Forall_impl; [apply anon_dffs, in_dffs_type|]. intros e [? ?]. auto.
    + eapply Forall_impl; [apply anon_dffs, out_dffs_type|]. intros e [? ?]. auto.
  - unfold io_entries. rewrite length_fmap.
    apply all_io_args_inv, Forall2_length in Ha. by rewrite <- Ha, length_seq.
  - unfold io_entries. apply Forall_fmap, Forall_forall. intros args _. simpl.
    split; [done|]. unfold is_io_cell, is_type. simpl. by destruct (global_of attrs).
Qed.

Lemma submodule_names_witness :
  exists m' attrs',
    _get_io_buffer Module_new (mkPin "b" 2 Dir_i 0) (mkSignal "b__io" 2) []
                   (Some true) None = Ok (m', attrs') /\
    fst <$> submodules m' = [None; None; Some "b"; Some "b"].
Proof.
  eexists _, _. split; [reflexivity|].
  destruct (submodule_names Module_new (mkPin "b" 2 Dir_i 0) (mkSignal "b__io" 2)
              [] (Some true) None _ _ eq_refl) as (helpers & cells & Hs & _).
  reflexivity.
Defined.

(** X6: on a cell with input capability exactly one of GLOBAL_BUFFER_OUTPUT
    and D_IN_0 is connected, on a cell without neither is.  The global
    buffer output is used only for an unregistered global input and drives
    the bit of [pin.i] itself; a registered or double-data-rate global
    input is an SB_GB_IO whose global buffer output stays unconnected. *)
Theorem global_buffer_output_wiring (m : Module) (pin : Pin) (port : Signal)
    (attrs : Attrs) (i_invert o_invert : option bool) (m' : Module)
    (attrs' : Attrs) :
  pin_xdr pin ∈ valid_xdrs_ice40 ->
  _get_io_buffer m pin port attrs i_invert o_invert = Ok (m', attrs') ->
  exists cells : list Instance,
    io_cells m' = io_cells m ++ cells /\
    forall (bit : nat) (cell : Instance),
      cells !! bit = Some cell ->
      arg_of Ko "GLOBAL_BUFFER_OUTPUT" cell
      = (if has_i pin && (pin_xdr pin =? 0)%Z
            && bool_decide (inst_type cell = "SB_GB_IO")
         then Some (VBit (pin_i pin) bit) else None) /\
      (is_Some (arg_of Ko "D_IN_0" cell) <->
       has_i pin = true /\ arg_of Ko "GLOBAL_BUFFER_OUTPUT" cell = None).
Proof.
  intros Hx H.
  destruct (get_io_buffer_cells _ _ _ _ _ _ _ _ H) as (cells & Hc & Hlen & Hcell).
  exists cells. split; [done|].
  intros bit cell Hbit.
  destruct (Hcell bit cell Hbit) as (args & Hargs & ->). clear Hcell H.
  revert Hargs. generalize (attrs_after attrs) (global_of attrs). intros at' gl.
  unfold io_args_of, locals_of, pin_has_i_clk, pin_has_o_clk, o_type_of,
    i_type_of, has_i, has_o.
  apply valid_xdr_cases in Hx as [Hx|[Hx|Hx]]; rewrite Hx;
    destruct (pin_dir pin) eqn:Hd, gl; simpl; intros Hargs; peel_index Hargs; inversion Hargs; subst;
    clear Hargs; cell_shape port at' bit;
    rewrite !arg_of_base by congruence;
    (split; [reflexivity|]);
    (split; [intros [? Hs]; vm_compute in Hs |- *; try discriminate Hs; by split
            | intros [Hi Hg]; vm_compute in Hi, Hg |- *; try discriminate; eauto]).
Qed.

Lemma global_buffer_output_wiring_witness :
  exists cells : list Instance,
    length cells = 1%nat /\
    forall cell, cells !! 0%nat = Some cell ->
      arg_of Ko "GLOBAL_BUFFER_OUTPUT" cell = None /\
      inst_type cell = "SB_GB_IO".
Proof.
  destruct (get_io_buffer_cells Module_new (mkPin "clk" 1 Dir_i 1)
              (mkSignal "clk__io" 1) [("GLOBAL", ABool true)] None None _ _ eq_refl)
    as (cells0 & Hc0 & Hlen0 & Hcell0).
  destruct (global_buffer_output_wiring Module_new (mkPin "clk" 1 Dir_i 1)
              (mkSignal "clk__io" 1) [("GLOBAL", ABool true)] None None _ _
              (list_elem_of_further _ _ _ (list_elem_of_here _ _)) eq_refl)
    as (cells & Hc & Hcell).
  assert (cells = cells0) as -> by (by rewrite Hc0 in Hc; apply app_inv_head in Hc).
  exists cells0. split; [exact Hlen0|]. intros cell Hbit.
  split; [exact (proj1 (Hcell _ _ Hbit))|].
  by destruct (Hcell0 _ _ Hbit) as (args & _ & ->).
Defined.

(** X7: below double data rate ([xdr] 0 or 1) no flip-flop is added, no cell
    has a D_IN_1 or D_OUT_1 connection, D_OUT_0 is the bit of the signal
    that [get_oxor] returned for [pin.o], and D_IN_0, when connected, is
    the bit of the signal that [get_ixor] returned for [pin.i]. *)
Theorem single_data_rate_path (m : Module) (pin : Pin) (port : Signal)
    (attrs : Attrs) (i_invert o_invert : option bool) (m' : Module)
    (attrs' : Attrs) :
  pin_xdr pin = 0%Z \/ pin_xdr pin = 1%Z ->
  _get_io_buffer m pin port attrs i_invert o_invert = Ok (m', attrs') ->
  instances_of "$dff" m' = instances_of "$dff" m /\
  exists cells : list Instance,
    io_cells m' = io_cells m ++ cells /\
    forall (bit : nat) (cell : Instance),
      cells !! bit = Some cell ->
      arg_of Ko "D_IN_1" cell = None /\
      arg_of Ki "D_OUT_1" cell = None /\
      arg_of Ki "D_OUT_0" cell
      = (if has_o pin then Some (VBit (xor_sig (pin_o pin) o_invert) bit)
         else None) /\
      (forall v, arg_of Ko "D_IN_0" cell = Some v ->
                 v = VBit (xor_sig (pin_i pin) i_invert) bit).
Proof.
  intros Hx H. split.
  { rewrite (instances_dff _ _ _ _ _ _ _ _ H). unfold in_dffs, out_dffs.
    destruct Hx as [-> | ->]; simpl; by rewrite !andb_false_r, app_nil_r. }
  destruct (get_io_buffer_cells _ _ _ _ _ _ _ _ H) as (cells & Hc & Hlen & Hcell).
  exists cells. split; [done|].
  intros bit cell Hbit.
  destruct (Hcell bit cell Hbit) as (args & Hargs & ->). clear Hcell H.
  revert Hargs. generalize (attrs_after attrs) (global_of attrs). intros at' gl.
  unfold io_args_of, locals_of, pin_has_i_clk, pin_has_o_clk, o_type_of,
    i_type_of, has_i, has_o.
  destruct Hx as [Hx|Hx]; rewrite Hx;
    destruct (pin_dir pin) eqn:Hd, gl; simpl; intros Hargs; peel_index Hargs; inversion Hargs; subst;
    clear Hargs; cell_shape port at' bit;
    rewrite !arg_of_base by congruence;
    (split_and!; [reflexivity | reflexivity | reflexivity |]);
    intros v Hv; vm_compute in Hv; try discriminate Hv; by inversion Hv.
Qed.

Lemma single_data_rate_path_witness :
  exists cells : list Instance,
    forall cell, cells !! 0%nat = Some cell ->
      arg_of Ki "D_OUT_0" cell
      = Some (VBit (Signal_like (pin_o (mkPin "led" 1 Dir_o 0)) "_x1") 0).
Proof.
  destruct (single_data_rate_path Module_new (mkPin "led" 1 Dir_o 0)
              (mkSignal "led__io" 1) [] None (Some true) _ _
              (or_introl eq_refl) eq_refl)
    as (_ & cells & Hc & Hcell).
  exists cells. intros cell Hbit.
  exact (proj1 (proj2 (proj2 (Hcell _ _ Hbit)))).
Defined.

(** X8: the SB_LUT4 cells of one call, read connection by connection: one
    per bit of each data signal for which an inversion flag was given, and
    no other.  On the input side [I0] reads the bit of the [_x] copy, which
    the cell drives, and [O] drives the bit of the pin's own signal; on the
    output side [I0] reads the bit of the pin's own signal and [O] drives
    the bit of the [_x] copy, which the cell reads.  [I1], [I2] and [I3]
    are tied to the constant 0, and LUT_INIT is 0b01 when the flag is true
    and 0b10 when it is false. *)
Theorem inversion_lut_wiring (m : Module) (pin : Pin) (port : Signal)
    (attrs : Attrs) (i_invert o_invert : option bool) (m' : Module)
    (attrs' : Attrs) :
  _get_io_buffer m pin port attrs i_invert o_invert = Ok (m', attrs') ->
  let x := fun (s : Signal) (inv : bool) =>
    mkSignal (sig_name s +:+ "_x" +:+ (if inv then "1" else "0")) (sig_width s) in
  let row := fun (inv : bool) (a y : Signal) (bit : nat) =>
    (Some (VInt (if inv then 1 else 2)%Z), Some (VBit a bit),
     Some (VConst 0%Z), Some (VConst 0%Z), Some (VConst 0%Z),
     Some (VBit y bit)) in
  let ins := if has_i pin then
               if (pin_xdr pin <? 2)%Z then [pin_i pin]
               else if (pin_xdr pin =? 2)%Z then [pin_i0 pin; pin_i1 pin]
               else []
             else [] in
  let outs := if has_o pin then
                if (pin_xdr pin <? 2)%Z then [pin_o pin]
                else if (pin_xdr pin =? 2)%Z then [pin_o0 pin; pin_o1 pin]
                else []
              else [] in
  exists luts : list Instance,
    instances_of "SB_LUT4" m' = instances_of "SB_LUT4" m ++ luts /\
    lut_pins <$> luts
    = match i_invert with
      | Some inv =>
          flat_map (fun y => row inv (x y inv) y <$> seq 0%nat (sig_width y)) ins
      | None => []
      end
      ++ match o_invert with
         | Some inv =>
             flat_map (fun a => row inv a (x a inv) <$> seq 0%nat (sig_width a)) outs
         | None => []
         end.
Proof.
  intros H x row ins outs.
  exists ((snd <$> in_luts pin i_invert) ++ (snd <$> out_luts pin o_invert)).
  split; [exact (instances_lut _ _ _ _ _ _ _ _ H)|].
  rewrite fmap_app. f_equal.
  - destruct i_invert as [inv|]; [|by rewrite in_luts_none].
    rewrite in_luts_pins. reflexivity.
  - destruct o_invert as [inv|]; [|by rewrite out_luts_none].
    rewrite out_luts_pins. reflexivity.
Qed.

Lemma inversion_lut_wiring_witness :
  exists m' attrs',
    _get_io_buffer Module_new (mkPin "b" 2 Dir_i 0) (mkSignal "b__io" 2) []
                   (Some true) None = Ok (m', attrs') /\
    lut_pins <$> instances_of "SB_LUT4" m'
    = [ (Some (VInt 1), Some (VBit (mkSignal "b__i_x1" 2) 0), Some (VConst 0),
         Some (VConst 0), Some (VConst 0), Some (VBit (mkSignal "b__i" 2) 0));
        (Some (VInt 1), Some (VBit (mkSignal "b__i_x1" 2) 1), Some (VConst 0),
         Some (VConst 0), Some (VConst 0), Some (VBit (mkSignal "b__i" 2) 1)) ].
Proof.
  eexists _, _. split; [reflexivity|].
  destruct (inversion_lut_wiring Module_new (mkPin "b" 2 Dir_i 0)
              (mkSignal "b__io" 2) [] (Some true) None _ _ eq_refl)
    as (luts & Hl & Hp).
  rewrite Hl. exact Hp.
Defined.

Lemma io_args_of_high pin port attrs gl ii oi bit :
  (2 < pin_xdr pin)%Z ->
  is_ok (io_args_of pin port attrs gl (locals_of pin ii oi) bit) = negb (has_o pin).
Proof.
  intros Hx.
  assert ((pin_xdr pin =? 0)%Z = false) as E0 by lia.
  assert ((pin_xdr pin =? 1)%Z = false) as E1 by lia.
  assert ((pin_xdr pin =? 2)%Z = false) as E2 by lia.
  assert ((pin_xdr pin <? 2)%Z = false) as E3 by lia.
  assert ((pin_xdr pin >? 0)%Z = true) as E4 by lia.
  assert ((0 <? pin_xdr pin)%Z = true) as E5 by lia.
  unfold io_args_of, locals_of, pin_has_i_clk, pin_has_o_clk, o_type_of,
    i_type_of, has_i, has_o.
  rewrite E0, E1, E2, E3, E4, E5.
  destruct (pin_dir pin), gl; reflexivity.
Qed.

Lemma valid_xdr_range (x : Z) : (0 <= x <= 2)%Z -> x ∈ valid_xdrs_ice40.
Proof.
  intros H. unfold valid_xdrs_ice40.
  assert (x = 0 \/ x = 1 \/ x = 2)%Z as Hc by lia. clear H.
  destruct Hc as [Hc|[Hc|Hc]]; rewrite Hc; set_solver.
Qed.

Lemma all_io_args_prefix_err pin port attrs gl ls l1 bit l2 e :
  (forall b, b ∈ l1 -> is_ok (io_args_of pin port attrs gl ls b) = true) ->
  io_args_of pin port attrs gl ls bit = Err e ->
  all_io_args pin port attrs gl ls (l1 ++ bit :: l2) = Err e.
Proof.
  intros Hok He. induction l1 as [|b l1 IH]; simpl.
  - by rewrite He.
  - pose proof (Hok b (list_elem_of_here _ _)) as Hb.
    destruct (io_args_of pin port attrs gl ls b) as [args|]; [|discriminate].
    simpl. rewrite IH; [done|]. intros b' Hb'. apply Hok.
    by apply list_elem_of_further.
Qed.

Lemma all_io_args_all_ok pin port attrs gl ls bits :
  (forall bit, bit ∈ bits -> is_ok (io_args_of pin port attrs gl ls bit) = true) ->
  is_ok (all_io_args pin port attrs gl ls bits) = true.
Proof.
  intros H. induction bits as [|bit bits IH]; simpl; [done|].
  pose proof (H bit (list_elem_of_here _ _)) as Hb.
  destruct (io_args_of pin port attrs gl ls bit); [|done]. simpl.
  destruct (all_io_args pin port attrs gl ls bits); [done|]. apply IH.
  intros b Hin. apply H. by apply list_elem_of_further.
Qed.

(** A cell that slices none of the pin's signals. *)
Lemma io_args_of_ok_narrow pin port attrs gl ii oi bit :
  pin_xdr pin ∈ valid_xdrs_ice40 ->
  (has_i pin && (pin_xdr pin <? 2)%Z) || has_o pin = false ->
  is_ok (io_args_of pin port attrs gl (locals_of pin ii oi) bit) = true.
Proof.
  intros Hx. unfold io_args_of, locals_of, pin_has_i_clk, pin_has_o_clk, o_type_of,
    i_type_of, has_i, has_o.
  apply valid_xdr_cases in Hx as [Hx|[Hx|Hx]]; rewrite Hx;
    destruct (pin_dir pin), gl; simpl; intros Hc; try discriminate Hc;
    reflexivity.
Qed.

(** A cell for a bit beyond the width of the pin. *)
Lemma io_args_of_overrun pin port attrs gl ii oi bit :
  pin_xdr pin ∈ valid_xdrs_ice40 ->
  (has_i pin && (pin_xdr pin <? 2)%Z) || has_o pin = true ->
  (pin_width pin <= bit)%nat ->
  io_args_of pin port attrs gl (locals_of pin ii oi) bit = Err BitIndexError.
Proof.
  intros Hx Hc Hb. revert Hc.
  assert (Hidx : forall s, sig_width s = pin_width pin ->
                           index s bit = Err BitIndexError).
  { intros s Hs. apply index_ge. by rewrite Hs. }
  unfold io_args_of, locals_of, pin_has_i_clk, pin_has_o_clk, o_type_of,
    i_type_of, has_i, has_o.
  apply valid_xdr_cases in Hx as [Hx|[Hx|Hx]]; rewrite Hx;
    destruct (pin_dir pin), gl; simpl; intros Hc; try discriminate Hc;
    rewrite ?Hidx by (by rewrite ?xor_sig_width); reflexivity.
Qed.

(** X9: the outcomes of [_get_io_buffer] for a pin with a non-negative data
    rate, when the assertion holds.  For a data rate above 2 on a pin with
    output capability and a port that is not empty the call raises
    UnboundLocalError ([o_type] is never assigned).  For a data rate of at
    most 2 and a port wider than the pin, the call raises IndexError when
    it slices one of the pin's signals by the port's bit, which it does
    for an input below double data rate and for every output.  In every
    other case it succeeds. *)
Theorem get_io_buffer_outcomes (m : Module) (pin : Pin) (port : Signal)
    (attrs : Attrs) (i_invert o_invert : option bool) :
  (0 <= pin_xdr pin)%Z ->
  global_of attrs && opt_truthy i_invert = false ->
  let r := _get_io_buffer m pin port attrs i_invert o_invert in
  let unbound := ((2 <? pin_xdr pin)%Z && has_o pin
                  && negb (Nat.eqb (sig_width port) 0))%bool in
  let overrun := ((pin_width pin <? sig_width port)%nat
                  && (pin_xdr pin <=? 2)%Z
                  && ((has_i pin && (pin_xdr pin <? 2)%Z) || has_o pin))%bool in
  (unbound = true -> r = Err UnboundLocalError) /\
  (overrun = true -> r = Err BitIndexError) /\
  (unbound = false -> overrun = false -> is_ok r = true).
Proof.
  intros Hx Ha r unbound overrun. subst r unbound overrun.
  rewrite get_io_buffer_eq, Ha.
  set (at' := attrs_after attrs). set (gl := global_of attrs).
  set (ls := locals_of pin i_invert o_invert). split_and!.
  - intros Hu. apply andb_prop in Hu as [Hu Hw]. apply andb_prop in Hu as [Hu Ho].
    destruct (sig_width port) as [|w]; [discriminate|].
    change (seq 0 (S w)) with ([] ++ 0%nat :: seq 1 w).
    rewrite (all_io_args_prefix_err pin port at' gl ls [] 0 (seq 1 w)
               UnboundLocalError); [done | by intros b Hb%elem_of_nil |].
    pose proof (io_args_of_high pin port at' gl i_invert o_invert 0%nat
                  ltac:(lia)) as Hhi.
    rewrite Ho in Hhi. simpl in Hhi. fold ls in Hhi.
    destruct (io_args_of pin port at' gl ls 0) as [args|e] eqn:He;
      [discriminate|].
    f_equal. subst ls. revert He.
    unfold io_args_of, local, o_type_of. rewrite Ho.
    assert ((pin_xdr pin =? 0)%Z = false) as -> by lia.
    assert ((pin_xdr pin =? 1)%Z = false) as -> by lia.
    assert ((pin_xdr pin =? 2)%Z = false) as -> by lia.
    simpl. intros He. by inversion He.
  - intros Hu. apply andb_prop in Hu as [Hu Hc]. apply andb_prop in Hu as [Hw Hle].
    apply Nat.ltb_lt in Hw. apply Z.leb_le in Hle.
    assert (Hv : pin_xdr pin ∈ valid_xdrs_ice40) by (apply valid_xdr_range; lia).
    assert (Hs : seq 0%nat (sig_width port)
                 = seq 0%nat (pin_width pin)
                   ++ pin_width pin
                      :: seq (S (pin_width pin))
                             (sig_width port - S (pin_width pin))).
    { replace (sig_width port)
        with (pin_width pin + S (sig_width port - S (pin_width pin)))%nat at 1
        by lia.
      by rewrite seq_app. }
    rewrite Hs.
    rewrite (all_io_args_prefix_err pin port at' gl ls _ _ _ BitIndexError);
      [done| |].
    + intros b Hb. apply elem_of_seq in Hb. subst ls.
      destruct (io_args_of_ok pin port at' gl i_invert o_invert b Hv) as [args ->];
        [lia | done].
    + subst ls. by apply io_args_of_overrun.
  - intros Hu Hov.
    assert (is_ok (all_io_args pin port at' gl ls (seq 0 (sig_width port))) = true)
      as Hok.
    { apply all_io_args_all_ok. intros bit Hbit. apply elem_of_seq in Hbit.
      subst ls.
      destruct (Z_lt_dec 2 (pin_xdr pin)) as [Hhi|Hlo].
      - rewrite io_args_of_high by done.
        rewrite (proj2 (Z.ltb_lt _ _) Hhi) in Hu. simpl in Hu.
        destruct (has_o pin); [|done]. simpl in Hu.
        apply negb_false_iff, Nat.eqb_eq in Hu. lia.
      - assert (Hv : pin_xdr pin ∈ valid_xdrs_ice40)
          by (apply valid_xdr_range; lia).
        rewrite (proj2 (Z.leb_le (pin_xdr pin) 2)) in Hov by lia.
        rewrite andb_true_r in Hov.
        apply andb_false_iff in Hov as [Hw|Hc].
        + apply Nat.ltb_ge in Hw.
          destruct (io_args_of_ok pin port at' gl i_invert o_invert bit Hv)
            as [args ->]; [lia | done].
        + by apply io_args_of_ok_narrow. }
    by destruct (all_io_args pin port at' gl ls (seq 0 (sig_width port))).
Qed.

Lemma get_io_buffer_outcomes_witness :
  _get_io_buffer Module_new (mkPin "q" 1 Dir_o 4) (mkSignal "q__io" 1) [] None None
  = Err UnboundLocalError /\
  _get_io_buffer Module_new (mkPin "q" 1 Dir_i 0) (mkSignal "q__io" 2) [] None None
  = Err BitIndexError /\
  is_ok (_get_io_buffer Module_new (mkPin "q" 1 Dir_i 2) (mkSignal "q__io" 2) []
                        None None) = true.
Proof.
  split_and!.
  - apply (proj1 (get_io_buffer_outcomes Module_new (mkPin "q" 1 Dir_o 4)
                    (mkSignal "q__io" 1) [] None None ltac:(simpl; lia) eq_refl)).
    reflexivity.
  - apply (proj1 (proj2 (get_io_buffer_outcomes Module_new (mkPin "q" 1 Dir_i 0)
                    (mkSignal "q__io" 2) [] None None ltac:(simpl; lia) eq_refl))).
    reflexivity.
  - apply (proj2 (proj2 (get_io_buffer_outcomes Module_new (mkPin "q" 1 Dir_i 2)
                    (mkSignal "q__io" 2) [] None None ltac:(simpl; lia) eq_refl)));
      reflexivity.
Defined.
(** * Clock domain crossing *)

(** The pairs of [zip((x, *l), l)]: each element with its predecessor. *)
Lemma zip_shift_lookup {A} (x : A) (l : list A) (k : nat) (a b : A) :
  zip (x :: l) l !! k = Some (a, b) <->
  l !! k = Some b /\ a = match k with O => x | S k' => default x (l !! k') end.
Proof.
  split.
  - intros H. apply lookup_zip_with_Some in H as (a' & b' & Heq & Ha & Hb).
    inversion Heq; subst. split; [done|].
    destruct k as [|k']; simpl in Ha; [by inversion Ha | by rewrite Ha].
  - intros [Hb ->]. apply lookup_zip_with_Some. eexists _, b.
    split; [done|]. split; [|done].
    destruct k as [|k']; simpl; [done|].
    destruct (l !! k') as [y|] eqn:Hy; [done|].
    apply lookup_ge_None in Hy. apply lookup_lt_Some in Hb. lia.
Qed.

Lemma zip_shift_length {A} (x : A) (l : list A) :
  length (zip (x :: l) l) = length l.
Proof. apply length_zip_with_r. simpl. lia. Qed.

Lemma py_range_lookup n k j :
  py_range n !! k = Some j <-> j = k /\ (Z.of_nat k < n)%Z.
Proof.
  unfold py_range. rewrite lookup_seq. split; intros [-> H]; split; try done; lia.
Qed.

Lemma py_range_last n :
  last (py_range n) = if (0 <? n)%Z then Some (Z.to_nat n - 1)%nat else None.
Proof.
  unfold py_range. rewrite last_lookup, length_seq.
  destruct (0 <? n)%Z eqn:Hn.
  - apply lookup_seq. lia.
  - apply lookup_ge_None. rewrite length_seq. lia.
Qed.

(** X10: without a platform hook, [MultiReg(i, o, odomain, n, ...)] elaborates
    for [n >= 1] to a chain: [n] assignments in [odomain], the first
    register taking [i] and each later one its predecessor, then the
    combinational assignment of the last register to [o], and no
    submodule; the registers have the shape of [i], the given reset value
    and flag, and pairwise distinct names.  For [n <= 0] it raises
    IndexError. *)
Theorem multireg_chain (i o : HSignal) (odomain : string) (n reset : Z)
    (reset_less : bool) (platform : Platform) :
  get_multi_reg platform = None ->
  let reg := fun k : nat =>
    mkHSignal ("cdc" +:+ pretty k) (hs_width i) (hs_signed i) reset reset_less in
  let self := MultiReg_init i o odomain n reset reset_less in
  ((n <= 0)%Z -> MultiReg_elaborate self platform = Err IndexError) /\
  ((0 < n)%Z ->
   exists sync : list Assign,
     MultiReg_elaborate self platform
     = Ok (mkDesign
             (sync ++ [mkAssign "comb" (ESig o) (ESig (reg (Z.to_nat n - 1)%nat))])
             []) /\
     length sync = Z.to_nat n /\
     forall (k : nat) (a : Assign),
       sync !! k = Some a ->
       a = mkAssign odomain (ESig (reg k))
                    (ESig (match k with O => i | S k' => reg k' end))) /\
  NoDup (hs_name <$> mr_regs self).
Proof.
  intros Hhook reg self. unfold MultiReg_elaborate. rewrite Hhook.
  subst self. unfold MultiReg_init. cbn [mr_regs mr_i mr_o mr_odomain].
  fold reg. rewrite fmap_last, py_range_last. split_and!.
  - intros Hn. assert ((0 <? n)%Z = false) as -> by lia. done.
  - intros Hn. assert ((0 <? n)%Z = true) as -> by lia. cbn [fmap option_fmap option_map].
    eexists. split; [reflexivity|]. split.
    + rewrite length_fmap, zip_shift_length, length_fmap.
      unfold py_range. by rewrite length_seq.
    + intros k a Hk. apply list_lookup_fmap_Some in Hk as ([x y] & -> & Hk).
      apply zip_shift_lookup in Hk as [Hy ->].
      apply list_lookup_fmap_Some in Hy as (j & -> & Hj).
      apply py_range_lookup in Hj as [-> Hlt]. simpl. f_equal. f_equal.
      destruct k as [|k']; [done|].
      rewrite list_lookup_fmap.
      rewrite (proj2 (py_range_lookup n k' k')) by (split; [done | lia]). done.
  - rewrite <- list_fmap_compose. apply NoDup_fmap_2_strong; [|apply NoDup_seq].
    intros x y _ _ Hxy. simpl in Hxy. apply (inj (String.append "cdc")) in Hxy.
    by apply (inj pretty) in Hxy.
Qed.

Lemma multireg_chain_witness :
  exists sync : list Assign,
    MultiReg_elaborate
      (MultiReg_init (mkHSignal "a" 1 false 0 false) (mkHSignal "b" 1 false 0 false)
                     "sync" 2 0 true) no_platform
    = Ok (mkDesign
            (sync ++ [mkAssign "comb" (ESig (mkHSignal "b" 1 false 0 false))
                               (ESig (mkHSignal "cdc1" 1 false 0 true))]) []) /\
    length sync = 2%nat.
Proof.
  destruct (proj1 (proj2 (multireg_chain (mkHSignal "a" 1 false 0 false)
              (mkHSignal "b" 1 false 0 false) "sync" 2 0 true no_platform eq_refl))
              eq_refl) as (sync & Hrun & Hlen & _).
  exists sync. split; [exact Hrun | exact Hlen].
Defined.

(** X11: without a platform hook, [ResetSynchronizer(arst, domain, n)]
    elaborates for [n >= 1] to [n] [$adff] cells, all clocked by the
    domain's clock and asynchronously set to 1 by [arst]; the first takes
    the constant 0 and each later one the output of its predecessor; the
    output of the last one drives the domain's reset.  For [n <= 0] it
    raises IndexError. *)
Theorem reset_synchronizer_chain (arst : Expr) (domain : string) (n : Z)
    (platform : Platform) :
  get_reset_sync platform = None ->
  let reg := fun k : nat => mkHSignal ("arst" +:+ pretty k) 1 false 1%Z false in
  let self := ResetSynchronizer_init arst domain n in
  ((n <= 0)%Z -> ResetSynchronizer_elaborate self platform = Err IndexError) /\
  ((0 < n)%Z ->
   exists cells : list CInstance,
     ResetSynchronizer_elaborate self platform
     = Ok (mkDesign
             [mkAssign "comb" (EResetSignal domain)
                       (ESig (reg (Z.to_nat n - 1)%nat))]
             cells) /\
     length cells = Z.to_nat n /\
     forall (k : nat) (cell : CInstance),
       cells !! k = Some cell ->
       ci_type cell = "$adff" /\
       cport Ki "CLK" cell = Some (CExpr (EClockSignal domain)) /\
       cport Ki "ARST" cell = Some (CExpr arst) /\
       cport Kp "ARST_VALUE" cell = Some (CExpr (EConst 1 1)) /\
       cport Ko "Q" cell = Some (CExpr (ESig (reg k))) /\
       cport Ki "D" cell
       = Some (CExpr (match k with O => EConst 0 1 | S k' => ESig (reg k') end))).
Proof.
  intros Hhook reg self. unfold ResetSynchronizer_elaborate. rewrite Hhook.
  subst self. unfold ResetSynchronizer_init. cbn [rs_regs rs_arst rs_domain].
  fold reg. rewrite fmap_last, py_range_last. split.
  - intros Hn. assert ((0 <? n)%Z = false) as -> by lia. done.
  - intros Hn. assert ((0 <? n)%Z = true) as -> by lia.
    cbn [fmap option_fmap option_map].
    eexists. split; [reflexivity|]. split.
    + rewrite length_fmap. rewrite length_zip_with_r by (simpl; rewrite !length_fmap; lia).
      rewrite length_fmap. unfold py_range. by rewrite length_seq.
    + intros k cell Hk. apply list_lookup_fmap_Some in Hk as ([x y] & -> & Hk).
      apply lookup_zip_with_Some in Hk as (x' & y' & Heq & Hx & Hy).
      inversion Heq; subst x' y'. clear Heq.
      apply list_lookup_fmap_Some in Hy as (j & -> & Hj).
      apply py_range_lookup in Hj as [-> Hlt].
      assert (x = match k with O => EConst 0 1 | S k' => ESig (reg k') end) as ->.
      { destruct k as [|k']; simpl in Hx; [by inversion Hx|].
        rewrite <- list_fmap_compose, list_lookup_fmap in Hx.
        rewrite (proj2 (py_range_lookup n k' k')) in Hx by (split; [done | lia]).
        by inversion Hx. }
      split_and!; reflexivity.
Qed.

Lemma reset_synchronizer_chain_witness :
  exists cells : list CInstance,
    ResetSynchronizer_elaborate
      (ResetSynchronizer_init (ESig (mkHSignal "rst" 1 false 0 false)) "sync" 2)
      no_platform
    = Ok (mkDesign
            [mkAssign "comb" (EResetSignal "sync")
                      (ESig (mkHSignal "arst1" 1 false 1 false))] cells) /\
    length cells = 2%nat.
Proof.
  destruct (proj2 (reset_synchronizer_chain (ESig (mkHSignal "rst" 1 false 0 false))
              "sync" 2 no_platform eq_refl) eq_refl)
    as (cells & Hrun & Hlen & _).
  exists cells. split; [exact Hrun | exact Hlen].
Defined.
